(** * Go-rpc: a shallow embedding of the client multiplexer, the server's
    timeout supervision, the load-balancing client and the registry.

    Every Go function that a property below talks about is transcribed as a
    Rocq function over an explicit state.  Go's [int] and [uint64] are [Z]
    with the wrap-around written out, maps are [gmap]s, pointers are
    addresses into an explicit heap, channels are bounded queues, and the
    results of the outside world (codec reads and writes, the random number
    generator, the clock) are arguments of the functions that consume
    them. *)

From Stdlib Require Import ZArith Lia String Ascii List.
From stdpp Require Import base tactics option numbers list strings gmap
  fin_maps sorting relations.

Local Open Scope string_scope.
Local Open Scope list_scope.
Local Open Scope Z_scope.

(** ** Machine integers *)

Definition uint64_mod : Z := 2 ^ 64.
Definition max_int : Z := 2 ^ 63 - 1.

(** [x] reduced to an unsigned 64-bit value, as [uint64] arithmetic does. *)
Definition wrap_uint64 (x : Z) : Z := x `mod` uint64_mod.

(** [x] reduced to a signed 64-bit value, as [int] arithmetic does. *)
Definition wrap_int (x : Z) : Z := (x + 2 ^ 63) `mod` uint64_mod - 2 ^ 63.

(** What a Go call can do besides returning: run into a run-time panic. *)
Inductive outcome (A : Type) : Type :=
  | Return (a : A)
  | Panics (msg : string).
Arguments Return {A} a.
Arguments Panics {A} msg.

(** ** xclient/discovery.go *)

Module Discovery.

(** type SelectMode int *)
Definition SelectMode := Z.
Definition RandomSelect : SelectMode := 0.
Definition RoundRobinSelect : SelectMode := 1.

(** The fields of [MultiServersDiscovery] that [Get] reads and writes.  The
    generator [r] is represented by the numbers it hands out, which are
    arguments of the functions drawing them; [mu] only serialises the
    method bodies, each of which is one function here. *)
Record MultiServersDiscovery : Type := mkMSD {
  servers : list string;
  index : Z
}.

Definition err_no_servers : string := "rpc discovery: no available servers".
Definition err_bad_mode : string := "rpc discovery: not supported select mode".

(** [d.servers[i]]: a run-time panic outside [0 <= i < len]. *)
Definition at_index (l : list string) (i : Z) : outcome string :=
  if decide (0 ≤ i) then
    match l !! Z.to_nat i with
    | Some s => Return s
    | None => Panics "index out of range"
    end
  else Panics "index out of range".

(** [NewMultiServerDiscovery]; [r0] is what [d.r.Intn(math.MaxInt32 - 1)]
    returned. *)
Definition NewMultiServerDiscovery (l : list string) (r0 : Z)
  : MultiServersDiscovery :=
  {| servers := l; index := r0 |}.

(** [Update] *)
Definition Update (d : MultiServersDiscovery) (l : list string)
  : MultiServersDiscovery :=
  {| servers := l; index := index d |}.

(** [Get]; [intn] is what [d.r.Intn(n)] returns if it is called.  The
    result is the discovery after the call and Go's pair
    [(string, error)]. *)
Definition Get (d : MultiServersDiscovery) (mode : SelectMode) (intn : Z)
  : outcome (MultiServersDiscovery * (string * option string)) :=
  let n := Z.of_nat (length (servers d)) in
  if decide (n = 0) then Return (d, ("", Some err_no_servers))
  else if decide (mode = RandomSelect) then
    match at_index (servers d) intn with
    | Return s => Return (d, (s, None))
    | Panics m => Panics m
    end
  else if decide (mode = RoundRobinSelect) then
    match at_index (servers d) (Z.rem (index d) n) with
    | Return s =>
        Return ({| servers := servers d;
                   index := Z.rem (wrap_int (index d + 1)) n |}, (s, None))
    | Panics m => Panics m
    end
  else Return (d, ("", Some err_bad_mode)).

(** [GetAll] returns a copy of the list. *)
Definition GetAll (d : MultiServersDiscovery) : list string * option string :=
  (servers d, None).

(** [k] consecutive [Get(RoundRobinSelect)] calls; the addresses they
    return, in order, or nothing if one of them fails or panics. *)
Fixpoint round_robin (k : nat) (d : MultiServersDiscovery)
  : option (list string * MultiServersDiscovery) :=
  match k with
  | O => Some ([], d)
  | S k' =>
      match Get d RoundRobinSelect 0 with
      | Return (d', (s, None)) =>
          match round_robin k' d' with
          | Some (l, d'') => Some (s :: l, d'')
          | None => None
          end
      | _ => None
      end
  end.

(** The index is a position that [index + 1] cannot overflow, and the
    list has a length Go can represent. *)
Definition index_ok (d : MultiServersDiscovery) : Prop :=
  0 ≤ index d < max_int ∧ Z.of_nat (length (servers d)) ≤ max_int.

(** Three servers and an initial offset of 7. *)
Definition three_servers : MultiServersDiscovery :=
  NewMultiServerDiscovery ["tcp@a:1"; "tcp@b:2"; "tcp@c:3"] 7.

End Discovery.

(** ** The handshake options (server.go) and [parseOptions] (client.go) *)

Module Options.

Definition Number : Z := 0x1a2b3c.

(** type Option struct *)
Record Option : Type := mkOption {
  opt_Number : Z;
  CodecType : string;
  ConnectTimeout : Z;
  HandleTimeout : Z
}.

(** [*Option] values are addresses into a store of options; [nil] is
    [None].  The package variable [DefaultOption] is the address
    [DefaultOption]. *)
Definition DefaultOption : nat := 0%nat.

Section WithCodec.
(** [codec.GobType]: the codec package is outside the sources at hand,
    so the constant is a parameter. *)
Variable GobType : string.

Definition DefaultOption_value : Option :=
  {| opt_Number := Number; CodecType := GobType;
     ConnectTimeout := 0; HandleTimeout := 0 |}.

(** The store at program start. *)
Definition initial_options : gmap nat Option :=
  {[ DefaultOption := DefaultOption_value ]}.

Definition err_too_many : string := "number of options is more than 1".

(** [parseOptions]: Go's result pair is an option address and an error.
    The option the
    caller passed is updated in place and its own address returned. *)
Definition parseOptions (st : gmap nat Option) (opts : list (option nat))
  : outcome (gmap nat Option * (option nat * option string)) :=
  match opts with
  | [] | None :: _ => Return (st, (Some DefaultOption, None))
  | Some a :: _ =>
      if decide (length opts ≠ 1%nat) then
        Return (st, (None, Some err_too_many))
      else
        match st !! a, st !! DefaultOption with
        | Some opt, Some dflt =>
            let opt1 := {| opt_Number := opt_Number dflt;
                           CodecType := CodecType opt;
                           ConnectTimeout := ConnectTimeout opt;
                           HandleTimeout := HandleTimeout opt |} in
            let st1 := <[a := opt1]> st in
            if decide (CodecType opt = "") then
              (* [DefaultOption] is read again after the first write:
                 the two addresses may be the same. *)
              match st1 !! DefaultOption with
              | Some dflt1 =>
                  Return (<[a := {| opt_Number := opt_Number opt1;
                                    CodecType := CodecType dflt1;
                                    ConnectTimeout := ConnectTimeout opt1;
                                    HandleTimeout := HandleTimeout opt1 |}]> st1,
                          (Some a, None))
              | None => Panics "invalid memory address"
              end
            else Return (st1, (Some a, None))
        | _, _ => Panics "invalid memory address"
        end
  end.
End WithCodec.

(** A caller's option with a wrong magic number and no codec type, at
    address 1 of the store. *)
Definition user_option : Option :=
  {| opt_Number := 7; CodecType := ""; ConnectTimeout := 1000000000;
     HandleTimeout := 0 |}.

Definition two_options : gmap nat Option :=
  <[1%nat := user_option]> (initial_options "application/gob").

End Options.

(** ** registry/registry.go *)

Module Registry.

(** type ServerItem struct; [start] is an instant in nanoseconds. *)
Record ServerItem : Type := mkItem { Addr : string; start : Z }.

(** type GoRegistry struct; [timeout] is a [time.Duration] in
    nanoseconds.  The items are reachable through the map only. *)
Record GoRegistry : Type := mkRegistry {
  timeout : Z;
  servers : gmap string ServerItem
}.

Definition defaultTimeout : Z := 5 * 60 * 1000000000.

Definition New (t : Z) : GoRegistry := {| timeout := t; servers := ∅ |}.

(** [putServer]; [now] is the reading of [time.Now()]. *)
Definition putServer (r : GoRegistry) (addr : string) (now : Z) : GoRegistry :=
  match servers r !! addr with
  | None =>
      {| timeout := timeout r;
         servers := <[addr := {| Addr := addr; start := now |}]> (servers r) |}
  | Some s =>
      {| timeout := timeout r;
         servers := <[addr := {| Addr := Addr s; start := now |}]> (servers r) |}
  end.

(** Go's order on strings: bytewise lexicographic. *)
Definition string_le (s1 s2 : string) : Prop := String.leb s1 s2 = true.

#[global] Instance string_le_dec s1 s2 : Decision (string_le s1 s2).
Proof. unfold string_le. apply _. Defined.

(** [sort.Strings]: the increasing arrangement of the slice. *)
Definition sort_Strings (l : list string) : list string :=
  merge_sort string_le l.

(** [strings.Join] *)
Fixpoint Join (l : list string) (sep : string) : string :=
  match l with
  | [] => ""
  | [s] => s
  | s :: rest => (s ++ sep ++ Join rest sep)%string
  end.

(** [s.start.Add(r.timeout).After(now)] *)
Definition still_alive (t : Z) (s : ServerItem) (now : Z) : Prop :=
  t = 0 ∨ now < start s + t.

#[global] Instance still_alive_dec t s now : Decision (still_alive t s now).
Proof. unfold still_alive. apply _. Defined.

(** One iteration of the loop of [aliveServers] at the entry [e]: the
    slice [alive] and the map after it.  [now a] is the reading of
    [time.Now()] taken while the entry of [a] is examined. *)
Definition alive_step (t : Z) (now : string → Z)
    (acc : list string * gmap string ServerItem) (e : string * ServerItem)
  : list string * gmap string ServerItem :=
  if decide (still_alive t e.2 (now e.1)) then (acc.1 ++ [e.1], acc.2)
  else (acc.1, delete e.1 acc.2).

(** [aliveServers]: the loop visits every entry of the map once, in the
    order the map yields them, then the slice is sorted. *)
Definition aliveServers (r : GoRegistry) (now : string → Z)
  : list string * GoRegistry :=
  let res := foldl (alive_step (timeout r) now) ([], servers r)
               (map_to_list (servers r)) in
  (sort_Strings res.1, {| timeout := timeout r; servers := res.2 |}).

(** The part of an HTTP request and of the response that [ServeHTTP]
    touches.  [Header.Get] of an absent header is the empty string. *)
Record Request : Type := mkRequest {
  Method : string;
  req_Header : gmap string string
}.

Record Response : Type := mkResponse {
  status : option Z;
  resp_Header : gmap string string
}.

Definition Header_Get (h : gmap string string) (k : string) : string :=
  default "" (h !! k).

Definition StatusInternalServerError : Z := 500.
Definition StatusMethodNotAllowed : Z := 405.

(** [ServeHTTP]; [w] is the response so far. *)
Definition ServeHTTP (r : GoRegistry) (w : Response) (req : Request)
    (now : string → Z) : GoRegistry * Response :=
  if decide (Method req = "GET") then
    let '(alive, r') := aliveServers r now in
    (r', {| status := status w;
            resp_Header := <["X-Gorpc-Servers" := Join alive ","]> (resp_Header w) |})
  else if decide (Method req = "POST") then
    let addr := Header_Get (req_Header req) "X-Gorpc-Server" in
    if decide (addr = "") then
      (r, {| status := Some StatusInternalServerError;
             resp_Header := resp_Header w |})
    else (putServer r addr (now addr), w)
  else
    (r, {| status := Some StatusMethodNotAllowed; resp_Header := resp_Header w |}).

(** Three heartbeats, at 50, 10 and 70, in a registry with timeout 100. *)
Definition demo_registry : GoRegistry :=
  putServer (putServer (putServer (New 100) "tcp@b:2" 50) "tcp@a:1" 10)
    "tcp@c:3" 70.

End Registry.

(** ** client.go *)

Module Client.

(** codec.Header *)
Record Header : Type := mkHeader {
  h_ServiceMethod : string;
  h_Seq : Z;
  h_Error : string
}.

(** The error values the client handles, by the way they are made. *)
Inductive error : Type :=
  | ErrShutdown                     (* the package variable ErrShutdown *)
  | errors_New (msg : string)       (* errors.New(msg) *)
  | fmt_Errorf (format : string)    (* fmt.Errorf(format), no operands *)
  | io_error (msg : string).        (* returned by the codec; msg is its text *)

#[global] Instance error_eq_dec : EqDecision error.
Proof. solve_decision. Defined.

(** The text of [fmt.Sprintf(format)] for a call without operands, on
    the formats made of literal bytes, [%%], and a percent sign followed by
    flags and a letter; such a verb finds no operand.  Other formats (width,
    precision, argument indexes, verbs that are not letters) are outside
    the fragment.  [st] is [0] in literal text, [1] right after a percent
    sign and [2] after a flag. *)
Definition is_flag (c : ascii) : bool :=
  bool_decide (c ∈ ["#"; "0"; "+"; "-"; " "]%char).

Definition is_letter (c : ascii) : bool :=
  let n := N_of_ascii c in
  ((97 <=? n) && (n <=? 122) || (65 <=? n) && (n <=? 90))%N.

Fixpoint Sprintf0 (st : nat) (format : string) : option string :=
  match format with
  | EmptyString =>
      match st with
      | O => Some ""
      | _ => Some "%!(NOVERB)"
      end
  | String c rest =>
      match st with
      | O =>
          if Ascii.eqb c "%" then Sprintf0 1 rest
          else String c <$> Sprintf0 0 rest
      | S st' =>
          if Ascii.eqb c "%" then
            match st' with
            | O => String "%" <$> Sprintf0 0 rest
            | _ => None
            end
          else if is_flag c then Sprintf0 2 rest
          else if is_letter c then
            (λ r, "%!" ++ String c "(MISSING)" ++ r)%string <$> Sprintf0 0 rest
          else None
      end
  end.

(** [err.Error()], where the fragment above covers it. *)
Definition Error_text (e : error) : option string :=
  match e with
  | ErrShutdown => Some "connection is shut down"
  | errors_New msg => Some msg
  | fmt_Errorf format => Sprintf0 0 format
  | io_error msg => Some msg
  end.

(** [strings.Contains(s, "%")] *)
Fixpoint has_percent (s : string) : bool :=
  match s with
  | EmptyString => false
  | String c rest => Ascii.eqb c "%" || has_percent rest
  end.

(** A [*Call] is an index into the client's store of calls and a
    [chan *Call] an index into its store of channels. *)
Record Call : Type := mkCall {
  Seq : Z;
  ServiceMethod : string;
  Args : string;
  Reply : string;
  Error : option error;
  Done : nat
}.

(** A buffered channel of [*Call]: its capacity and the queued elements,
    oldest first. *)
Record Chan : Type := mkChan { cap : nat; buf : list nat }.

(** The calls made on the codec, oldest first.  What a read or a write
    returns is an argument of the function that performs it. *)
Inductive codec_op : Type :=
  | Write (h : Header) (body : string)
  | ReadHeader
  | ReadBody (into : option nat)    (* [None]: the nil sink *)
  | CloseCodec.

(** type Client struct, with the two stores of the objects it points
    into.  [completions] is a history: every call that [done] has put on
    its channel, oldest first.  The mutexes are represented by the
    granularity of the functions and, for [sending], in [System]. *)
Record Client : Type := mkClient {
  cc : list codec_op;
  header : Header;
  seq : Z;
  pending : gmap Z nat;
  closing : bool;
  shutdown : bool;
  calls : list Call;
  chans : list Chan;
  completions : list nat
}.

Definition set_cc (f : list codec_op → list codec_op) (c : Client) : Client :=
  mkClient (f (cc c)) (header c) (seq c) (pending c) (closing c) (shutdown c)
    (calls c) (chans c) (completions c).
Definition set_header (h : Header) (c : Client) : Client :=
  mkClient (cc c) h (seq c) (pending c) (closing c) (shutdown c)
    (calls c) (chans c) (completions c).
Definition set_seq (z : Z) (c : Client) : Client :=
  mkClient (cc c) (header c) z (pending c) (closing c) (shutdown c)
    (calls c) (chans c) (completions c).
Definition set_pending (f : gmap Z nat → gmap Z nat) (c : Client) : Client :=
  mkClient (cc c) (header c) (seq c) (f (pending c)) (closing c) (shutdown c)
    (calls c) (chans c) (completions c).
Definition set_closing (b : bool) (c : Client) : Client :=
  mkClient (cc c) (header c) (seq c) (pending c) b (shutdown c)
    (calls c) (chans c) (completions c).
Definition set_shutdown (b : bool) (c : Client) : Client :=
  mkClient (cc c) (header c) (seq c) (pending c) (closing c) b
    (calls c) (chans c) (completions c).
Definition set_calls (f : list Call → list Call) (c : Client) : Client :=
  mkClient (cc c) (header c) (seq c) (pending c) (closing c) (shutdown c)
    (f (calls c)) (chans c) (completions c).
Definition set_chans (f : list Chan → list Chan) (c : Client) : Client :=
  mkClient (cc c) (header c) (seq c) (pending c) (closing c) (shutdown c)
    (calls c) (f (chans c)) (completions c).
Definition set_completions (f : list nat → list nat) (c : Client) : Client :=
  mkClient (cc c) (header c) (seq c) (pending c) (closing c) (shutdown c)
    (calls c) (chans c) (f (completions c)).

(** *** Computations over the client *)

(** A method body either returns, or stops at a channel operation that
    cannot proceed, or panics. *)
Inductive result (A : Type) : Type :=
  | Ok (a : A) (c : Client)
  | Blocked (c : Client)
  | Panicked (msg : string).
Arguments Ok {A} a c.
Arguments Blocked {A} c.
Arguments Panicked {A} msg.

Definition M (A : Type) : Type := Client → result A.

Definition ret {A} (a : A) : M A := λ c, Ok a c.
Definition bind {A B} (m : M A) (k : A → M B) : M B :=
  λ c, match m c with
       | Ok a c' => k a c'
       | Blocked c' => Blocked c'
       | Panicked msg => Panicked msg
       end.
Definition modify (f : Client → Client) : M unit := λ c, Ok tt (f c).

Notation "x <~ m ;; k" := (bind m (λ x, k))
  (at level 100, m at next level, right associativity).
Notation "m ;;; k" := (bind m (λ _, k))
  (at level 100, right associativity).

Definition nil_deref : string := "invalid memory address or nil pointer dereference".

Definition load_call (p : nat) : M Call :=
  λ c, match calls c !! p with
       | Some x => Ok x c
       | None => Panicked nil_deref
       end.

Definition set_Seq (z : Z) (x : Call) : Call :=
  mkCall z (ServiceMethod x) (Args x) (Reply x) (Error x) (Done x).
Definition set_Error (e : error) (x : Call) : Call :=
  mkCall (Seq x) (ServiceMethod x) (Args x) (Reply x) (Some e) (Done x).
Definition set_Reply (v : string) (x : Call) : Call :=
  mkCall (Seq x) (ServiceMethod x) (Args x) v (Error x) (Done x).

(** An assignment to a field of [*p]. *)
Definition update_call (p : nat) (f : Call → Call) : M unit :=
  x <~ load_call p ;; modify (set_calls (<[p := f x]>)).

Definition log (op : codec_op) : M unit := modify (set_cc (λ l, l ++ [op])).

(** [make(chan *Call, n)] *)
Definition make_chan (n : nat) : M nat :=
  λ c, Ok (length (chans c)) (set_chans (λ l, l ++ [mkChan n []]) c).

(** [&Call{...}] *)
Definition new_call (x : Call) : M nat :=
  λ c, Ok (length (calls c)) (set_calls (λ l, l ++ [x]) c).

(** [call.done()]: [call.Done <- call].  The send proceeds when the buffer
    has room and otherwise waits for a receiver. *)
Definition done (p : nat) : M unit :=
  x <~ load_call p ;;
  λ c, match chans c !! Done x with
       | Some ch =>
           if decide (length (buf ch) < cap ch)%nat then
             Ok tt (set_completions (λ l, l ++ [p])
                      (set_chans (<[Done x := mkChan (cap ch) (buf ch ++ [p])]>) c))
           else Blocked c
       | None => Blocked c
       end.

(** [<-ch] by some goroutine: the oldest element, if there is one. *)
Definition chan_recv (ch : nat) (c : Client) : option (nat * Client) :=
  match chans c !! ch with
  | Some (mkChan k (p :: rest)) =>
      Some (p, set_chans (<[ch := mkChan k rest]>) c)
  | _ => None
  end.

(** *** The methods *)

(** [Close]; [closed] is what [client.cc.Close()] returns. *)
Definition Close (closed : option error) : M (option error) :=
  λ c, if closing c then Ok (Some ErrShutdown) c
       else (log CloseCodec ;;; ret closed) (set_closing true c).

(** [IsAvailable] *)
Definition IsAvailable (c : Client) : bool :=
  negb (shutdown c) && negb (closing c).

(** [registerCall] *)
Definition registerCall (p : nat) : M (Z * option error) :=
  λ c, if closing c || shutdown c then Ok (0, Some ErrShutdown) c
       else (update_call p (set_Seq (seq c)) ;;;
             modify (set_pending (<[seq c := p]>)) ;;;
             modify (set_seq (wrap_uint64 (seq c + 1))) ;;;
             ret (seq c, None)) c.

(** [removeCall] *)
Definition removeCall (s : Z) : M (option nat) :=
  λ c, Ok (pending c !! s) (set_pending (delete s) c).

(** The loop of [terminateCalls] over the entries of [pending]. *)
Fixpoint terminate_each (err : error) (l : list (Z * nat)) : M unit :=
  match l with
  | [] => ret tt
  | (_, p) :: rest =>
      update_call p (set_Error err) ;;; done p ;;; terminate_each err rest
  end.

(** [terminateCalls].  The loop ranges over the map in the order the map
    yields its entries. *)
Definition terminateCalls (err : error) : M unit :=
  modify (set_shutdown true) ;;;
  (λ c, terminate_each err (map_to_list (pending c)) c).

(** [send] up to and including [cc.Write]: the sequence number under
    which the request went out, or nothing when registration failed. *)
Definition send_begin (p : nat) : M (option Z) :=
  r <~ registerCall p ;;
  match r with
  | (_, Some err) => update_call p (set_Error err) ;;; done p ;;; ret None
  | (s, None) =>
      x <~ load_call p ;;
      modify (set_header (mkHeader (ServiceMethod x) s "")) ;;;
      log (Write (mkHeader (ServiceMethod x) s "") (Args x)) ;;;
      ret (Some s)
  end.

(** [send] after [cc.Write] has returned [err]. *)
Definition send_failed (s : Z) (err : error) : M unit :=
  q <~ removeCall s ;;
  match q with
  | Some p => update_call p (set_Error err) ;;; done p
  | None => ret tt
  end.

(** [send]; [written] is what [cc.Write] returns. *)
Definition send (p : nat) (written : option error) : M unit :=
  r <~ send_begin p ;;
  match r, written with
  | Some s, Some err => send_failed s err
  | _, _ => ret tt
  end.

Definition unbuffered : string := "rpc client: done channel is unbuffered".

(** The channel [Go] attaches to the call. *)
Definition Go_chan (done_ch : option nat) : M nat :=
  match done_ch with
  | None => make_chan 10
  | Some ch =>
      λ c, match chans c !! ch with
           | Some k => if decide (cap k = 0%nat) then Panicked unbuffered
                       else Ok ch c
           | None => Panicked nil_deref
           end
  end.

(** [Go]; a nil [done] is [None]. *)
Definition Go (serviceMethod args reply : string) (done_ch : option nat)
    (written : option error) : M nat :=
  ch <~ Go_chan done_ch ;;
  p <~ new_call (mkCall 0 serviceMethod args reply None ch) ;;
  send p written ;;;
  ret p.

(** What [cc.ReadBody] returns: the decoded body or an error. *)
Inductive body_result : Type :=
  | BodyOk (v : string)
  | BodyErr (msg : string).

Definition body_error (b : body_result) : option error :=
  match b with
  | BodyOk _ => None
  | BodyErr m => Some (io_error m)
  end.

(** One turn of the loop of [receive] after [ReadHeader] has filled [h]:
    the value of [err] at the end of the turn. *)
Definition receive_frame (h : Header) (b : body_result) : M (option error) :=
  q <~ removeCall (h_Seq h) ;;
  match q with
  | None => log (ReadBody None) ;;; ret (body_error b)
  | Some p =>
      if decide (h_Error h ≠ "") then
        update_call p (set_Error (fmt_Errorf (h_Error h))) ;;;
        log (ReadBody None) ;;;
        done p ;;;
        ret (body_error b)
      else
        log (ReadBody (Some p)) ;;;
        match b with
        | BodyOk v => update_call p (set_Reply v)
        | BodyErr m => update_call p (set_Error (errors_New ("reading body " ++ m)%string))
        end ;;;
        done p ;;;
        ret (body_error b)
  end.

(** What arrives on the connection: a frame, or a header that cannot be
    read. *)
Inductive incoming : Type :=
  | Frame (h : Header) (b : body_result)
  | HeaderErr (msg : string).

(** [receive] on the stream [ins].  When the stream has nothing more the
    goroutine waits in [ReadHeader]. *)
Fixpoint receive (ins : list incoming) : M unit :=
  match ins with
  | [] => log ReadHeader ;;; (λ c, Blocked c)
  | HeaderErr m :: _ => log ReadHeader ;;; terminateCalls (io_error m)
  | Frame h b :: rest =>
      log ReadHeader ;;;
      err <~ receive_frame h b ;;
      match err with
      | None => receive rest
      | Some e => terminateCalls e
      end
  end.

(** [NewClientCodec], without the goroutine it starts. *)
Definition NewClientCodec : Client :=
  {| cc := []; header := mkHeader "" 0 ""; seq := 1; pending := ∅;
     closing := false; shutdown := false;
     calls := []; chans := []; completions := [] |}.

(** *** [Call] *)

(** The state of [ctx]: [None] while [ctx.Done()] is open, otherwise the
    text of [ctx.Err()]. *)
Definition context := option string.

(** Where a goroutine running [Call] stands: waiting in the receive that
    follows [Go], at the [select], or returned. *)
Inductive call_pc : Type :=
  | AfterGo (p : nat)
  | AtSelect (p : nat)
  | Returned (e : option error).

(** [Call] up to the return of [Go]. *)
Definition Call_begin (serviceMethod args reply : string)
    (written : option error) : M call_pc :=
  ch <~ make_chan 1 ;;
  p <~ Go serviceMethod args reply (Some ch) written ;;
  ret (AfterGo p).

(** The moves [Call] can make from [pc]; none when it has to wait. *)
Definition Call_step (ctx : context) (pc : call_pc) (c : Client)
  : list (call_pc * Client) :=
  match pc with
  | AfterGo p =>
      match calls c !! p with
      | Some x =>
          match chan_recv (Done x) c with
          | Some (q, c') => [(AtSelect q, c')]
          | None => []
          end
      | None => []
      end
  | AtSelect p =>
      match calls c !! p with
      | Some x =>
          match ctx, removeCall (Seq x) c with
          | Some msg, Ok _ c' =>
              [(Returned (Some (errors_New ("rpc client: call failed: " ++ msg)%string)),
                c')]
          | _, _ => []
          end ++
          match chan_recv (Done x) c with
          | Some (q, c') =>
              [(Returned (from_option Error None (calls c' !! q)), c')]
          | None => []
          end
      | None => []
      end
  | Returned _ => []
  end.

(** *** The goroutines around one client *)

(** The goroutine running [receive]: in its loop, out of the loop with
    the error that ended it, or past [terminateCalls]. *)
Inductive receiver : Type :=
  | Receiving
  | Failed (e : error)
  | Stopped.

(** A client together with what its goroutines hold: [sending] is
    [Some (s, err)] while a [send] holds the mutex [sending] after its
    [cc.Write] for sequence number [s] has returned [err]. *)
Record System : Type := mkSystem {
  client : Client;
  sending : option (Z * error);
  rx : receiver
}.

(** [Go] up to and including the [cc.Write] of its [send]. *)
Definition Go_begin (serviceMethod args reply : string) (done_ch : option nat)
  : M (nat * option Z) :=
  ch <~ Go_chan done_ch ;;
  p <~ new_call (mkCall 0 serviceMethod args reply None ch) ;;
  r <~ send_begin p ;;
  ret (p, r).

(** One atomic move of some goroutine.  Moves that would wait (a full
    [Done] channel, a held mutex) are not enabled. *)
Inductive step (s : System) : System → Prop :=
  | step_make_chan n a c' :
      (* a caller makes a channel, as [Call] does *)
      make_chan n (client s) = Ok a c' →
      step s (mkSystem c' (sending s) (rx s))
  | step_Go sm args reply d p c' :
      (* [Go] whose [cc.Write], if it is reached, returns nil *)
      sending s = None →
      Go sm args reply d None (client s) = Ok p c' →
      step s (mkSystem c' None (rx s))
  | step_Go_write_error sm args reply d p sq e c' :
      (* [Go] up to a [cc.Write] that returns [e] *)
      sending s = None →
      Go_begin sm args reply d (client s) = Ok (p, Some sq) c' →
      step s (mkSystem c' (Some (sq, e)) (rx s))
  | step_send_failed sq e c' :
      (* the rest of that [send] *)
      sending s = Some (sq, e) →
      send_failed sq e (client s) = Ok tt c' →
      step s (mkSystem c' None (rx s))
  | step_receive h b err c' :
      (* one turn of the loop of [receive] *)
      rx s = Receiving →
      (log ReadHeader ;;; receive_frame h b) (client s) = Ok err c' →
      step s (mkSystem c' (sending s)
                (match err with None => Receiving | Some e => Failed e end))
  | step_header_error m a c' :
      (* [ReadHeader] fails *)
      rx s = Receiving →
      log ReadHeader (client s) = Ok a c' →
      step s (mkSystem c' (sending s) (Failed (io_error m)))
  | step_terminate e c' :
      (* [terminateCalls], which takes both mutexes *)
      rx s = Failed e →
      sending s = None →
      terminateCalls e (client s) = Ok tt c' →
      step s (mkSystem c' None Stopped)
  | step_removeCall sq q c' :
      (* [Call] on the [ctx.Done()] branch *)
      removeCall sq (client s) = Ok q c' →
      step s (mkSystem c' (sending s) (rx s))
  | step_Close closed r c' :
      Close closed (client s) = Ok r c' →
      step s (mkSystem c' (sending s) (rx s))
  | step_chan_recv ch p c' :
      (* a caller receives from a [Done] channel *)
      chan_recv ch (client s) = Some (p, c') →
      step s (mkSystem c' (sending s) (rx s)).

Definition initial : System := mkSystem NewClientCodec None Receiving.

(** The states reached from [initial] in [n] moves. *)
Inductive reach : nat → System → Prop :=
  | reach_initial : reach 0 initial
  | reach_step n s s' : reach n s → step s s' → reach (S n) s'.

(** A call has completed when [done] has put it on its channel. *)
Definition completed (c : Client) (p : nat) : Prop := p ∈ completions c.

(** *** A predicate transformer for the computations *)

(** [wp m c Q QB QP]: run from [c], [m] returns in a state satisfying [Q],
    or waits in a state satisfying [QB], or panics and [QP] holds. *)
Definition wp {A} (m : M A) (c : Client) (Q : A → Client → Prop)
    (QB : Client → Prop) (QP : Prop) : Prop :=
  match m c with
  | Ok a c' => Q a c'
  | Blocked c' => QB c'
  | Panicked _ => QP
  end.

(** *** The invariant *)

Definition range_free (m : gmap Z nat) (p : nat) : Prop := ∀ s, m !! s ≠ Some p.

(** The part of the invariant about the pending map [m], the number [n]
    of calls made so far and the history [l] of completions. *)
Record inv3 (live : bool) (m : gmap Z nat) (n : nat) (l : list nat) : Prop := {
  inv_nodup : NoDup l;
  inv_pending : ∀ s p, m !! s = Some p → (p < n)%nat ∧ (live = true → p ∉ l);
  inv_inj : ∀ s1 s2 p, m !! s1 = Some p → m !! s2 = Some p → s1 = s2;
  inv_done : ∀ p, p ∈ l → (p < n)%nat
}.

(** The part about sequence numbers: every call carries [0] (never
    registered) or a number from [1] to below the next free one [z], and
    the numbers increase with the order of creation. *)
Definition seqs_ok (z : Z) (l : list Call) : Prop :=
  (∀ p x, l !! p = Some x → Seq x = 0 ∨ 1 ≤ Seq x < z) ∧
  (∀ p q x y, (p < q)%nat → l !! p = Some x → l !! q = Some y →
     Seq x ≠ 0 → Seq y ≠ 0 → Seq x < Seq y).

Record Good (live : bool) (n : nat) (c : Client) : Prop := {
  good_inv : inv3 live (pending c) (length (calls c)) (completions c);
  good_seq : Z.of_nat n < uint64_mod - 1 →
             1 ≤ seq c ≤ 1 + Z.of_nat n ∧ seqs_ok (seq c) (calls c)
}.

(** What no method undoes. *)
Definition stable (c c' : Client) : Prop :=
  (shutdown c = true → shutdown c' = true) ∧
  (closing c = true → closing c' = true).

Definition live (r : receiver) : bool :=
  match r with Stopped => false | _ => true end.

Definition SysInv (n : nat) (s : System) : Prop :=
  Good (live (rx s)) n (client s) ∧
  (rx s = Stopped → sending s = None ∧ shutdown (client s) = true).

(** *** States used in the examples *)

(** The state a computation leaves behind. *)
Definition state_after {A} (m : M A) (c : Client) : Client :=
  match m c with
  | Ok _ c' | Blocked c' => c'
  | Panicked _ => c
  end.

(** One [Go] on a new client. *)
Definition one_call : Client :=
  state_after (Go "Foo.Sum" "3,4" "" None None) NewClientCodec.


(** Or the connection breaks instead and [receive] terminates the calls. *)
Definition one_call_cut : Client := state_after (log ReadHeader) one_call.

Definition one_call_terminated : Client :=
  state_after (terminateCalls (io_error "EOF")) one_call_cut.

(** [Call] of Foo.Sum on a new client, its response read by [receive], and
    the first receive of [Call] done. *)
Definition sum_call_begun : Client :=
  state_after (Call_begin "Foo.Sum" "3,4" "" None) NewClientCodec.

Definition sum_call_answered : Client :=
  state_after (log ReadHeader ;;;
               receive_frame (mkHeader "Foo.Sum" 1 "") (BodyOk "7"))
    sum_call_begun.

Definition sum_call_at_select : Client :=
  match chan_recv 0 sum_call_answered with
  | Some (_, c) => c
  | None => sum_call_answered
  end.

(** A new client and an unbuffered channel made by a caller. *)
Definition unbuffered_channel : Client :=
  state_after (make_chan 0) NewClientCodec.


(** A new client with two calls made and not yet registered. *)
Definition two_calls_new : Client :=
  state_after (new_call (mkCall 0 "Foo.Sum" "1,2" "" None 0) ;;;
               new_call (mkCall 0 "Foo.Sum" "3,4" "" None 0))
    NewClientCodec.

(** Room in the [Done] channel of the call at [p] for [n] more sends. *)
Definition has_room (n : nat) (c : Client) (p : nat) : bool :=
  match calls c !! p with
  | Some x =>
      match chans c !! Done x with
      | Some k => bool_decide (length (buf k) + n ≤ cap k)%nat
      | None => false
      end
  | None => false
  end.

(** The codec operations that read. *)
Definition is_read (op : codec_op) : Prop :=
  match op with
  | ReadHeader | ReadBody _ => True
  | _ => False
  end.

(** The arrivals at which the loop of [receive] ends: a header or a body
    that cannot be read. *)
Definition stops (i : incoming) : bool :=
  match i with
  | HeaderErr _ => true
  | Frame _ (BodyErr _) => true
  | Frame _ (BodyOk _) => false
  end.

(** The error of the first read of the stream that fails: the value of
    [err] with which the loop of [receive] is left. *)
Fixpoint stopping_error (ins : list incoming) : option error :=
  match ins with
  | [] => None
  | HeaderErr m :: _ => Some (io_error m)
  | Frame _ (BodyErr m) :: _ => Some (io_error m)
  | Frame _ (BodyOk _) :: rest => stopping_error rest
  end.

(** The requests handed to [cc.Write], oldest first. *)
Definition writes (l : list codec_op) : list (Header * string) :=
  omap (λ op, match op with Write h a => Some (h, a) | _ => None end) l.

(** The request [w] is the one of the call [x]. *)
Definition carries (x : Call) (w : Header * string) : Prop :=
  h_Seq w.1 = Seq x ∧ h_ServiceMethod w.1 = ServiceMethod x ∧
  w.2 = Args x ∧ h_Error w.1 = "".

(** What holds of the requests written so far: each is the request of a
    call, its sequence number is below the counter, the numbers increase,
    and they are the numbers from 1 to below the counter, none left out. *)
Record Wire (c : Client) : Prop := {
  wire_calls : ∀ w, w ∈ writes (cc c) → ∃ p x, calls c !! p = Some x ∧ carries x w;
  wire_below : ∀ w, w ∈ writes (cc c) → 1 ≤ h_Seq w.1 < seq c;
  wire_sorted : StronglySorted Z.lt ((λ w, h_Seq w.1) <$> writes (cc c));
  wire_count : (λ w, h_Seq w.1) <$> writes (cc c) = seqZ 1 (seq c - 1)
}.

(** Every pending call carries the number it is pending under, which is
    not below 1. *)
Definition Paired (c : Client) : Prop :=
  ∀ s p, pending c !! s = Some p →
    1 ≤ s ∧ ∃ x, calls c !! p = Some x ∧ Seq x = s.


(** [c'] has the requests and the counter of [c], no pending call that
    [c] has not, the completions of [c] and perhaps more, and its calls
    the sequence numbers, methods and arguments they have in [c]. *)
Definition keeps (c c' : Client) : Prop :=
  writes (cc c') = writes (cc c) ∧ seq c' = seq c ∧
  pending c' ⊆ pending c ∧
  (∀ p, p ∈ completions c → p ∈ completions c') ∧
  ∀ p x, calls c !! p = Some x →
    ∃ x', calls c' !! p = Some x' ∧ Seq x' = Seq x ∧
          ServiceMethod x' = ServiceMethod x ∧ Args x' = Args x.

End Client.

(** ** xclient/xclient.go: [Broadcast] *)

Module XClient.

(** What [xc.call] returned in one goroutine of [Broadcast], and what it
    left in that goroutine's [clonedReply]. *)
Record task_result : Type := mkResult {
  err : option string;
  clonedReply : string
}.

(** The variables the goroutines of one [Broadcast] share.  [reply] is the
    contents of the caller's slot.  [cancels] and [sets] are histories:
    the number of calls of [cancel] and the values stored into the
    caller's slot, oldest first. *)
Record vars : Type := mkVars {
  e : option string;
  replyDone : bool;
  reply : string;
  wg : nat;
  cancels : nat;
  sets : list string
}.

(** The end of a goroutine: the section between [mu.Lock] and
    [mu.Unlock], then the deferred [wg.Done]. *)
Definition task_end (r : task_result) (v : vars) : vars :=
  let v1 :=
    if decide (err r ≠ None ∧ e v = None) then
      mkVars (err r) (replyDone v) (reply v) (wg v) (S (cancels v)) (sets v)
    else v in
  let v2 :=
    if decide (err r = None ∧ replyDone v1 = false) then
      mkVars (e v1) true (clonedReply r) (wg v1) (cancels v1)
        (sets v1 ++ [clonedReply r])
    else v1 in
  mkVars (e v2) (replyDone v2) (reply v2) (pred (wg v2)) (cancels v2) (sets v2).

(** One [Broadcast]: the shared variables, the addresses whose goroutine
    is still running, the goroutines that have ended with their results,
    oldest first, and what [Broadcast] has returned, if it has. *)
Record broadcast : Type := mkBroadcast {
  shared : vars;
  running : list string;
  ended : list (string * task_result);
  returned : option (option string)
}.

(** [Broadcast] after its loop has started the goroutines;
    [reply_is_nil] says whether the caller passed a nil [reply], and
    [reply0] is what the caller's slot holds.  When [GetAll] fails,
    [Broadcast] returns its error at once. *)
Definition Broadcast_start (getall : list string * option string)
    (reply_is_nil : bool) (reply0 : string) : broadcast :=
  match getall with
  | (_, Some err) =>
      mkBroadcast (mkVars None reply_is_nil reply0 0 0 []) [] [] (Some (Some err))
  | (servers, None) =>
      mkBroadcast (mkVars None reply_is_nil reply0 (length servers) 0 [])
        servers [] None
  end.

(** The moves: the goroutine at position [i] ends with result [r], or
    [wg.Wait] finds the counter at zero and [Broadcast] returns [e]. *)
Inductive bstep (b : broadcast) : broadcast → Prop :=
  | bstep_end i addr r :
      running b !! i = Some addr →
      bstep b (mkBroadcast (task_end r (shared b)) (delete i (running b))
                 (ended b ++ [(addr, r)]) (returned b))
  | bstep_return :
      wg (shared b) = 0%nat → returned b = None →
      bstep b (mkBroadcast (shared b) (running b) (ended b)
                 (Some (e (shared b)))).

(** The errors, and the replies of the successes, in the order in which
    the goroutines ended. *)
Definition errors_of (l : list (string * task_result)) : list string :=
  omap (λ x, err x.2) l.

Definition successes_of (l : list (string * task_result)) : list string :=
  omap (λ x, match err x.2 with None => Some (clonedReply x.2) | Some _ => None end) l.

(** What holds of one [Broadcast], over [servers], in every state. *)
Record BInv (servers : list string) (reply_is_nil : bool) (reply0 : string)
    (b : broadcast) : Prop := {
  binv_wg : wg (shared b) = length (running b);
  binv_e : e (shared b) = head (errors_of (ended b));
  binv_cancels : cancels (shared b) = length (take 1 (errors_of (ended b)));
  binv_sets : sets (shared b) =
              if reply_is_nil then [] else take 1 (successes_of (ended b));
  binv_done : replyDone (shared b) = false ↔
              reply_is_nil = false ∧ successes_of (ended b) = [];
  binv_reply : reply (shared b) = default reply0 (head (sets (shared b)));
  binv_perm : running b ++ (ended b).*1 ≡ₚ servers;
  binv_ret : ∀ r, returned b = Some r → running b = [] ∧ r = e (shared b)
}.

(** Two servers answer 5 and 6, the second one first, and [Broadcast]
    returns. *)
Definition two_successes : broadcast :=
  mkBroadcast (mkVars None true "5" 0 0 ["5"]) []
    [("tcp@b:2", mkResult None "5"); ("tcp@a:1", mkResult None "6")]
    (Some None).

(** *** The goroutines of [Broadcast], inside [xc.call] *)

(** [ctx.Done()] and [ctx.Err()] of the context that [Broadcast] makes
    with [context.WithCancel(ctx)]: cancelled when the caller's context
    is, and once [cancel] has been called. *)
Definition ctx_of (parent : Client.context) (v : vars) : Client.context :=
  match parent with
  | Some msg => Some msg
  | None => if decide (cancels v = 0%nat) then None else Some "context canceled"
  end.

(** Where a goroutine of [Broadcast] stands in [xc.call]: before [xc.dial]
    has returned, after it has returned an error, or in [client.Call] on
    the client it returned.  [s] is that client with the goroutines around
    it, [p] the call made by [Go] and [pc] the place in [Call].  A client
    that several goroutines use is seen by each of them with the moves of
    the others as moves of [Client.step]. *)
Inductive task : Type :=
  | Dialing
  | DialFailed (msg : string)
  | InCall (s : Client.System) (p : nat) (pc : Client.call_pc).

(** What [xc.call] has returned and left in [clonedReply], once it has
    returned. *)
Definition result_of (t : task) : option task_result :=
  match t with
  | DialFailed msg => Some (mkResult (Some msg) "")
  | InCall s p (Client.Returned None) =>
      Some (mkResult None
              (from_option Client.Reply "" (Client.calls (Client.client s) !! p)))
  | InCall s p (Client.Returned (Some x)) =>
      (λ msg, mkResult (Some msg)
                (from_option Client.Reply "" (Client.calls (Client.client s) !! p)))
        <$> Client.Error_text x
  | _ => None
  end.

(** One [Broadcast] with its goroutines: [tasks] holds the places of the
    goroutines still running, in the order of [running]. *)
Record goroutines : Type := mkGoroutines {
  bc : broadcast;
  tasks : list task
}.

(** [Broadcast] after its loop has started one goroutine for each
    address. *)
Definition Broadcast_begin (servers : list string) (reply_is_nil : bool)
    (reply0 : string) : goroutines :=
  mkGoroutines (Broadcast_start (servers, None) reply_is_nil reply0)
    (replicate (length servers) Dialing).

(** The moves of one [Broadcast] of [serviceMethod] and [args] under the
    caller's context [parent]. *)
Inductive gstep (parent : Client.context) (serviceMethod args : string)
    (g : goroutines) : goroutines → Prop :=
  | gstep_dial_failed i msg :
      (* [xc.dial] returns an error *)
      tasks g !! i = Some Dialing →
      gstep parent serviceMethod args g
        (mkGoroutines (bc g) (<[i := DialFailed msg]> (tasks g)))
  | gstep_Call_begin i s written p c1 :
      (* [xc.dial] returns a client; [Call] makes its channel and runs [Go] *)
      tasks g !! i = Some Dialing →
      Client.sending s = None →
      Client.Call_begin serviceMethod args "" written (Client.client s)
        = Client.Ok (Client.AfterGo p) c1 →
      gstep parent serviceMethod args g
        (mkGoroutines (bc g)
           (<[i := InCall (Client.mkSystem c1 None (Client.rx s)) p
                     (Client.AfterGo p)]> (tasks g)))
  | gstep_Call i s p pc pc' c' :
      (* a move of [Call] *)
      tasks g !! i = Some (InCall s p pc) →
      (pc', c') ∈ Client.Call_step (ctx_of parent (shared (bc g))) pc
                    (Client.client s) →
      gstep parent serviceMethod args g
        (mkGoroutines (bc g)
           (<[i := InCall (Client.mkSystem c' (Client.sending s) (Client.rx s))
                     p pc']> (tasks g)))
  | gstep_client i s s' p pc :
      (* a move of another goroutine around that client *)
      tasks g !! i = Some (InCall s p pc) →
      Client.step s s' →
      gstep parent serviceMethod args g
        (mkGoroutines (bc g) (<[i := InCall s' p pc]> (tasks g)))
  | gstep_end i addr t r :
      (* [xc.call] has returned: the section under [mu], then [wg.Done] *)
      running (bc g) !! i = Some addr →
      tasks g !! i = Some t →
      result_of t = Some r →
      gstep parent serviceMethod args g
        (mkGoroutines
           (mkBroadcast (task_end r (shared (bc g))) (delete i (running (bc g)))
              (ended (bc g) ++ [(addr, r)]) (returned (bc g)))
           (delete i (tasks g)))
  | gstep_return :
      (* [wg.Wait] returns *)
      wg (shared (bc g)) = 0%nat → returned (bc g) = None →
      gstep parent serviceMethod args g
        (mkGoroutines
           (mkBroadcast (shared (bc g)) (running (bc g)) (ended (bc g))
              (Some (e (shared (bc g)))))
           (tasks g)).

(** [Call] of Foo.Sleep on a new client, up to the return of [Go]. *)
Definition sleep_call_begun : Client.Client :=
  Client.state_after (Client.Call_begin "Foo.Sleep" "3,0" "" None)
    Client.NewClientCodec.

Definition dial_refused : string := "dial tcp 10.0.0.1:1: connect: connection refused".

(** [Broadcast] over two servers: [xc.dial] has failed for the first,
    whose goroutine has ended, and the request to the second has been
    written and not yet answered. *)
Definition one_failed_one_waiting : goroutines :=
  mkGoroutines
    (mkBroadcast (mkVars (Some dial_refused) false "0" 1 1 []) ["tcp@b:2"]
       [("tcp@a:1", mkResult (Some dial_refused) "")] None)
    [InCall (Client.mkSystem sleep_call_begun None Client.Receiving) 0
       (Client.AfterGo 0)].

(** Then the response of the second server arrives and is read by
    [receive]. *)
Definition sleep_call_answered : Client.Client :=
  Client.state_after
    (Client.bind (Client.log Client.ReadHeader)
       (λ _, Client.receive_frame (Client.mkHeader "Foo.Sleep" 1 "")
               (Client.BodyOk "3")))
    sleep_call_begun.

End XClient.

(** ** server.go: [handleRequest] *)

Module Server.

(** The body of a response: the placeholder [invalidRequest] or the
    reply value. *)
Inductive body : Type :=
  | invalidRequest
  | replyv (v : string).

(** Where the goroutine started by [handleRequest] stands. *)
Inductive worker : Type :=
  | Calling            (* in req.svc.call *)
  | SendingCalled      (* at called <- struct{}{} *)
  | Responding         (* about to write its response *)
  | SendingSent        (* at sent <- struct{}{} *)
  | WorkerDone.

(** Where [handleRequest] itself stands. *)
Inductive supervisor : Type :=
  | Start
  | AwaitCalled        (* timeout == 0: at <-called *)
  | Select             (* at the select *)
  | AwaitSent          (* at <-sent after <-called *)
  | TimedOut           (* the timer case was taken *)
  | DrainCalled        (* at <-called after the timeout response *)
  | DrainSent          (* at <-sent after that *)
  | Returned.

(** [req.h] is one header that both goroutines write through the same
    pointer; [wire] is what [cc.Write] has been given, oldest first. *)
Record state : Type := mkState {
  w : worker;
  sv : supervisor;
  h : Client.Header;
  wire : list (Client.Header * body)
}.

Definition set_Error (msg : string) (hd : Client.Header) : Client.Header :=
  Client.mkHeader (Client.h_ServiceMethod hd) (Client.h_Seq hd) msg.

Inductive move : Type :=
  | CallReturns        (* req.svc.call returns *)
  | HandOverCalled     (* the send and the receive on called meet *)
  | WorkerResponds     (* the worker's sendResponse *)
  | HandOverSent       (* the send and the receive on sent meet *)
  | Enter              (* handleRequest reaches the test of timeout *)
  | TimerFires         (* the select takes the time.After case *)
  | TimeoutResponds.   (* the sendResponse of the timeout case *)

Section Request.
(** The request's [HandleTimeout], what the method returns (its error
    text, if any, and the reply value), and the text of the timeout
    error, [fmt.Sprintf] of the fixed format and the duration. *)
Variable timeout : Z.
Variable result : option string * string.
Variable timeout_message : string.

(** One move, when it is enabled. *)
Definition step (m : move) (s : state) : option state :=
  match m, w s, sv s with
  | CallReturns, Calling, _ =>
      Some (mkState SendingCalled (sv s) (h s) (wire s))
  | HandOverCalled, SendingCalled, AwaitCalled
  | HandOverCalled, SendingCalled, Select =>
      Some (mkState Responding AwaitSent (h s) (wire s))
  | HandOverCalled, SendingCalled, DrainCalled =>
      Some (mkState Responding DrainSent (h s) (wire s))
  | WorkerResponds, Responding, _ =>
      match result.1 with
      | Some msg =>
          Some (mkState SendingSent (sv s) (set_Error msg (h s))
                  (wire s ++ [(set_Error msg (h s), invalidRequest)]))
      | None =>
          Some (mkState SendingSent (sv s) (h s)
                  (wire s ++ [(h s, replyv result.2)]))
      end
  | HandOverSent, SendingSent, AwaitSent
  | HandOverSent, SendingSent, DrainSent =>
      Some (mkState WorkerDone Returned (h s) (wire s))
  | Enter, _, Start =>
      Some (mkState (w s) (if decide (timeout = 0) then AwaitCalled else Select)
              (h s) (wire s))
  | TimerFires, _, Select =>
      Some (mkState (w s) TimedOut (h s) (wire s))
  | TimeoutResponds, _, TimedOut =>
      Some (mkState (w s) DrainCalled (set_Error timeout_message (h s))
              (wire s ++ [(set_Error timeout_message (h s), invalidRequest)]))
  | _, _, _ => None
  end.

(** A schedule, move by move. *)
Fixpoint run (ms : list move) (s : state) : option state :=
  match ms with
  | [] => Some s
  | m :: rest =>
      match step m s with
      | Some s' => run rest s'
      | None => None
      end
  end.

(** [handleRequest] is entered with the request's header. *)
Definition enter (hd0 : Client.Header) : state := mkState Calling Start hd0 [].

(** Both goroutines have finished. *)
Definition finished (s : state) : Prop := w s = WorkerDone ∧ sv s = Returned.

(** The header [handleRequest] is entered with. *)
Variable hd : Client.Header.

(** What the worker writes when it runs after the timeout response. *)
Definition late_response : Client.Header * body :=
  match result.1 with
  | Some msg => (set_Error msg hd, invalidRequest)
  | None => (set_Error timeout_message hd, replyv result.2)
  end.

(** The response written when the timer has not fired. *)
Definition response : Client.Header * body :=
  match result.1 with
  | Some msg => (set_Error msg hd, invalidRequest)
  | None => (hd, replyv result.2)
  end.

Definition timeout_response : Client.Header * body :=
  (set_Error timeout_message hd, invalidRequest).

(** What the header and the wire are at each pair of positions;
    [fired] says whether the timer case has been taken. *)
Definition expected (fired : bool) (s : state) : Prop :=
  match sv s, w s with
  | Start, Calling | Start, SendingCalled
  | AwaitCalled, Calling | AwaitCalled, SendingCalled =>
      fired = false ∧ h s = hd ∧ wire s = []
  | Select, Calling | Select, SendingCalled =>
      fired = false ∧ timeout ≠ 0 ∧ h s = hd ∧ wire s = []
  | AwaitSent, Responding => fired = false ∧ h s = hd ∧ wire s = []
  | AwaitSent, SendingSent => fired = false ∧ wire s = [response]
  | TimedOut, Calling | TimedOut, SendingCalled =>
      fired = true ∧ timeout ≠ 0 ∧ h s = hd ∧ wire s = []
  | DrainCalled, Calling | DrainCalled, SendingCalled
  | DrainSent, Responding =>
      fired = true ∧ timeout ≠ 0 ∧ h s = set_Error timeout_message hd ∧
      wire s = [timeout_response]
  | DrainSent, SendingSent =>
      fired = true ∧ timeout ≠ 0 ∧
      wire s = [timeout_response; late_response]
  | Returned, WorkerDone =>
      if fired then
        timeout ≠ 0 ∧
        wire s = [timeout_response; late_response]
      else wire s = [response]
  | _, _ => False
  end.

Definition is_timer (m : move) : bool :=
  match m with TimerFires => true | _ => false end.

(** The schedule of a request that outlasts the timer. *)
Definition slow_request : list move :=
  [Enter; TimerFires; TimeoutResponds; CallReturns; HandOverCalled;
   WorkerResponds; HandOverSent].
End Request.

End Server.

(** ** Go's strings *)

Module Strings.

(** [strings.Split(s, sep)] for a separator of one byte. *)
Fixpoint Split (s : string) (sep : ascii) : list string :=
  match s with
  | EmptyString => [""]
  | String a rest =>
      if Ascii.eqb a sep then "" :: Split rest sep
      else match Split rest sep with
           | h :: t => String a h :: t
           | [] => [String a ""]
           end
  end.

(** Whether the byte [c] occurs in [s]. *)
Fixpoint has_byte (c : ascii) (s : string) : bool :=
  match s with
  | EmptyString => false
  | String a rest => Ascii.eqb a c || has_byte c rest
  end.

(** [strings.LastIndex(s, sep)] for a separator of one byte: the position
    of its last occurrence, or [-1]. *)
Fixpoint LastIndex (s : string) (sep : ascii) : Z :=
  match s with
  | EmptyString => -1
  | String a rest =>
      let i := LastIndex rest sep in
      if decide (0 ≤ i) then i + 1
      else if Ascii.eqb a sep then 0 else -1
  end.

(** [s[:i]] and [s[i:]] *)
Definition slice_to (s : string) (i : Z) : string :=
  substring 0 (Z.to_nat i) s.
Definition slice_from (s : string) (i : Z) : string :=
  substring (Z.to_nat i) (String.length s - Z.to_nat i)%nat s.

(** [strings.TrimSpace] on strings of ASCII bytes: the white space is tab,
    line feed, vertical tab, form feed, carriage return and space. *)
Definition is_space (c : ascii) : bool :=
  bool_decide (c ∈ ["009"; "010"; "011"; "012"; "013"; " "]%char).

Fixpoint trim_left (s : string) : string :=
  match s with
  | EmptyString => ""
  | String a rest => if is_space a then trim_left rest else s
  end.

Fixpoint trim_right (s : string) : string :=
  match s with
  | EmptyString => ""
  | String a rest =>
      match trim_right rest with
      | EmptyString => if is_space a then "" else String a ""
      | r => String a r
      end
  end.

Definition TrimSpace_ascii (s : string) : string := trim_right (trim_left s).

End Strings.

(** ** registry/registry.go: requests in sequence *)

Module RegistryLog.
Import Registry.

(** A request as the registry sees it: the request and the clock readings
    taken while it is handled. *)
Definition arrival : Type := Request * (string → Z).

(** The registry after it has handled the requests, oldest first, each
    with a response writer of its own. *)
Definition serve (r : GoRegistry) (reqs : list arrival) : GoRegistry :=
  foldl (λ r q, (ServeHTTP r (mkResponse None ∅) q.1 q.2).1) r reqs.

(** The request [sendHeartbeat] makes for [addr]. *)
Definition heartbeat (addr : string) : Request :=
  mkRequest "POST" {[ "X-Gorpc-Server" := addr ]}.

Definition is_heartbeat (addr : string) (q : arrival) : bool :=
  bool_decide (Method q.1 = "POST" ∧
               Header_Get (req_Header q.1) "X-Gorpc-Server" = addr).

(** The clock reading of the last POST that named [addr]. *)
Definition last_heartbeat (addr : string) (reqs : list arrival) : option Z :=
  foldl (λ acc q, if is_heartbeat addr q then Some (q.2 addr) else acc)
    None reqs.

(** Two heartbeats of a server and a query in between, at a registry with
    timeout 100. *)
Definition busy_day : list arrival :=
  [(heartbeat "tcp@a:1", λ _, 10); (mkRequest "GET" ∅, λ _, 150);
   (heartbeat "tcp@a:1", λ _, 200)].

End RegistryLog.

(** ** xclient/discovery_gorpc.go *)

Module RegistryDiscovery.
Import Strings Discovery.

(** type GoRegistryDiscovery struct; the embedded
    [*MultiServersDiscovery] is the field [msd].  Instants and durations
    are in nanoseconds. *)
Record GoRegistryDiscovery : Type := mkGRD {
  msd : MultiServersDiscovery;
  registry : string;
  timeout : Z;
  lastUpdate : Z
}.

Definition defaultUpdateTimeout : Z := 10 * 1000000000.

(** The zero [time.Time], January 1 of year 1, counted from the Unix
    epoch. *)
Definition zero_Time : Z := -62135596800 * 1000000000.

(** [NewGoRegistryDiscovery]; [r0] as in [NewMultiServerDiscovery]. *)
Definition NewGoRegistryDiscovery (registerAddr : string) (t : Z) (r0 : Z)
  : GoRegistryDiscovery :=
  {| msd := NewMultiServerDiscovery [] r0;
     registry := registerAddr;
     timeout := if decide (t = 0) then defaultUpdateTimeout else t;
     lastUpdate := zero_Time |}.

(** [Update]; [now] is the reading of [time.Now()]. *)
Definition Update (d : GoRegistryDiscovery) (l : list string) (now : Z)
  : GoRegistryDiscovery :=
  {| msd := {| servers := l; index := index (msd d) |};
     registry := registry d;
     timeout := timeout d;
     lastUpdate := now |}.

(** What [http.Get] returns: an error or a response. *)
Inductive http_result : Type :=
  | HttpErr (msg : string)
  | HttpResp (resp : Registry.Response).

Section WithTrimSpace.

(** [strings.TrimSpace] *)
Variable TrimSpace : string → string.

(** The loop of [Refresh] over the pieces of the header. *)
Definition keep_server (acc : list string) (server : string) : list string :=
  if decide (TrimSpace server ≠ "") then acc ++ [TrimSpace server] else acc.

(** [Refresh]; [now1] and [now2] are the two readings of [time.Now()],
    [get] is what [http.Get(d.registry)] returns if it is called.  The
    result is the discovery after the call and the error. *)
Definition Refresh (d : GoRegistryDiscovery) (now1 : Z) (get : http_result)
    (now2 : Z) : GoRegistryDiscovery * option string :=
  if decide (now1 < lastUpdate d + timeout d) then (d, None)
  else
    match get with
    | HttpErr e => (d, Some e)
    | HttpResp resp =>
        let pieces :=
          Split (Registry.Header_Get (Registry.resp_Header resp) "X-Gorpc-Servers")
            "," in
        ({| msd := {| servers := foldl keep_server [] pieces;
                      index := index (msd d) |};
            registry := registry d;
            timeout := timeout d;
            lastUpdate := now2 |}, None)
    end.

(** [Get]: [Refresh], then [Get] of the embedded discovery. *)
Definition Get (d : GoRegistryDiscovery) (mode : SelectMode) (intn : Z)
    (now1 : Z) (get : http_result) (now2 : Z)
  : outcome (GoRegistryDiscovery * (string * option string)) :=
  match Refresh d now1 get now2 with
  | (d', Some e) => Return (d', ("", Some e))
  | (d', None) =>
      match Discovery.Get (msd d') mode intn with
      | Return (m, res) =>
          Return ({| msd := m; registry := registry d'; timeout := timeout d';
                     lastUpdate := lastUpdate d' |}, res)
      | Panics msg => Panics msg
      end
  end.

(** [GetAll]: [Refresh], then [GetAll] of the embedded discovery. *)
Definition GetAll (d : GoRegistryDiscovery) (now1 : Z) (get : http_result)
    (now2 : Z) : GoRegistryDiscovery * (list string * option string) :=
  match Refresh d now1 get now2 with
  | (d', Some e) => (d', ([], Some e))
  | (d', None) => (d', Discovery.GetAll (msd d'))
  end.

End WithTrimSpace.

(** A discovery whose list came from the registry at instant 1000. *)
Definition cached : GoRegistryDiscovery :=
  mkGRD (mkMSD ["tcp@a:1"; "tcp@b:2"] 0) "http://r/_gorpc_/registry"
    defaultUpdateTimeout 1000.

End RegistryDiscovery.

(** ** server.go: services and the reading of requests *)

Module Service.
Import Strings.

(** type service struct, as far as the server uses it: the name and the
    method table.  A [*methodType] is the position of the method in the
    receiver's method set. *)
Record service : Type := mkService {
  name : string;
  method : gmap string nat
}.

(** type Server struct *)
Record Server : Type := mkServer { serviceMap : gmap string service }.

Definition NewServer : Server := {| serviceMap := ∅ |}.

Definition err_ill_formed (serviceMethod : string) : string :=
  "rpc server: service/method request ill-formed: " ++ serviceMethod.
Definition err_no_service (serviceName : string) : string :=
  "rpc server: can't find service " ++ serviceName.
Definition err_no_method (methodName : string) : string :=
  "rpc server: can't find method " ++ methodName.
Definition err_defined (serviceName : string) : string :=
  "rpc: service already defined: " ++ serviceName.

(** [findService]: the named results [svc], [mtype] and [err]. *)
Definition findService (server : Server) (serviceMethod : string)
  : option service * option nat * option string :=
  let dot := LastIndex serviceMethod "." in
  if decide (dot < 0) then (None, None, Some (err_ill_formed serviceMethod))
  else
    let serviceName := slice_to serviceMethod dot in
    let methodName := slice_from serviceMethod (dot + 1) in
    match serviceMap server !! serviceName with
    | None => (None, None, Some (err_no_service serviceName))
    | Some svc =>
        match method svc !! methodName with
        | None => (Some svc, None, Some (err_no_method methodName))
        | Some mtype => (Some svc, Some mtype, None)
        end
    end.

(** [Register]; [s] is what [newService(rcvr)] made.  [LoadOrStore]
    keeps the service that is there. *)
Definition Register (server : Server) (s : service) : Server * option string :=
  match serviceMap server !! name s with
  | Some _ => (server, Some (err_defined (name s)))
  | None => ({| serviceMap := <[name s := s]> (serviceMap server) |}, None)
  end.

(** type request struct *)
Record request : Type := mkRequest {
  req_h : Client.Header;
  argv : string;
  mtype : option nat;
  svc : option service
}.

(** What the server does with its codec. *)
Inductive codec_op : Type :=
  | ReadHeader
  | ReadBody
  | Write (h : Client.Header) (b : Server.body).

(** [readRequest].  [header] is what [cc.ReadHeader] brings, a header or
    the text of an error, and [body] what [cc.ReadBody] brings if it is
    called.  The result is what was done with the codec, then the request and
    the error [readRequest] returns. *)
Definition readRequest (server : Server) (header : Client.Header + string)
    (body : Client.body_result)
  : list codec_op * (option request * option string) :=
  match header with
  | inr e => ([ReadHeader], (None, Some e))
  | inl h =>
      match findService server (Client.h_ServiceMethod h) with
      | (s, m, Some e) => ([ReadHeader], (Some (mkRequest h "" m s), Some e))
      | (s, m, None) =>
          match body with
          | Client.BodyErr e =>
              ([ReadHeader; ReadBody], (Some (mkRequest h "" m s), Some e))
          | Client.BodyOk v =>
              ([ReadHeader; ReadBody], (Some (mkRequest h v m s), None))
          end
      end
  end.

(** How one turn of the loop of [serveCodec] ends. *)
Inductive turn : Type :=
  | Break                       (* the loop is left *)
  | Answered                    (* an error response was sent *)
  | Handed (req : option request).   (* [handleRequest] was started *)

(** One turn of the loop of [serveCodec]. *)
Definition serve_turn (server : Server) (header : Client.Header + string)
    (body : Client.body_result) : list codec_op * turn :=
  match readRequest server header body with
  | (ops, (req, Some e)) =>
      match req with
      | None => (ops, Break)
      | Some req =>
          (ops ++ [Write (Server.set_Error e (req_h req)) Server.invalidRequest],
           Answered)
      end
  | (ops, (req, None)) => (ops, Handed req)
  end.

(** How many moves of [handleRequest] and its goroutine are left at
    most. *)
Definition moves_left (s : Server.state) : nat :=
  match Server.w s with
  | Server.Calling => 4
  | Server.SendingCalled => 3
  | Server.Responding => 2
  | Server.SendingSent => 1
  | Server.WorkerDone => 0
  end +
  match Server.sv s with
  | Server.Start => 3
  | Server.Select => 2
  | Server.TimedOut => 1
  | _ => 0
  end.

(** A response that carries the sequence number and the service method
    of the request with the header [hd]. *)
Definition echoes (hd : Client.Header) (r : Client.Header * Server.body) : Prop :=
  Client.h_Seq r.1 = Client.h_Seq hd ∧
  Client.h_ServiceMethod r.1 = Client.h_ServiceMethod hd.

(** A server with the service [Foo] and its method [Sum]. *)
Definition foo_server : Server :=
  (Register NewServer (mkService "Foo" {[ "Sum" := 0%nat ]})).1.

End Service.

(** ** xclient/xclient.go: the cache of clients *)

Module XClientCache.

(** The fields of [XClient] behind [mu].  A [*Client] is a position in
    [heap], the clients made so far. *)
Record XClient : Type := mkXClient {
  clients : gmap string nat;
  heap : list Client.Client
}.

(** [_ = client.Close()] on the client at [p]; [closed] is what its
    [cc.Close()] returns if it is called. *)
Definition close_at (p : nat) (closed : option Client.error)
    (h : list Client.Client) : outcome (list Client.Client) :=
  match h !! p with
  | None => Panics Client.nil_deref
  | Some c =>
      match Client.Close closed c with
      | Client.Ok _ c' => Return (<[p := c']> h)
      | Client.Blocked _ => Return h
      | Client.Panicked msg => Panics msg
      end
  end.

(** [dial].  [dialed] is what [XDial(rpcAddr, xc.opt)] returns if it is
    called: a new client or the text of an error.  The result is the
    [XClient] after the call and Go's pair of a client and an error. *)
Definition dial (xc : XClient) (rpcAddr : string)
    (dialed : Client.Client + string) (closed : option Client.error)
  : outcome (XClient * (option nat * option string)) :=
  let fresh (m : gmap string nat) (h : list Client.Client) :=
    match dialed with
    | inr e => Return (mkXClient m h, (None, Some e))
    | inl c => Return (mkXClient (<[rpcAddr := length h]> m) (h ++ [c]),
                       (Some (length h), None))
    end in
  match clients xc !! rpcAddr with
  | Some p =>
      match heap xc !! p with
      | None => Panics Client.nil_deref
      | Some c =>
          if Client.IsAvailable c then Return (xc, (Some p, None))
          else
            match close_at p closed (heap xc) with
            | Return h => fresh (delete rpcAddr (clients xc)) h
            | Panics msg => Panics msg
            end
      end
  | None => fresh (clients xc) (heap xc)
  end.

(** One iteration of the loop of [Close]. *)
Definition close_step (closed : option Client.error)
    (acc : outcome (gmap string nat * list Client.Client))
    (e : string * nat) : outcome (gmap string nat * list Client.Client) :=
  match acc with
  | Panics msg => Panics msg
  | Return (m, h) =>
      match close_at e.2 closed h with
      | Return h' => Return (delete e.1 m, h')
      | Panics msg => Panics msg
      end
  end.

(** [Close]: the loop visits every entry of the map once, in the order
    the map yields them. *)
Definition Close (xc : XClient) (closed : option Client.error)
  : outcome (XClient * option Client.error) :=
  match foldl (close_step closed) (Return (clients xc, heap xc))
          (map_to_list (clients xc)) with
  | Return (m, h) => Return (mkXClient m h, None)
  | Panics msg => Panics msg
  end.

(** Every cached pointer is a client. *)
Definition valid (xc : XClient) : Prop :=
  map_Forall (λ _ p, is_Some (heap xc !! p)) (clients xc).

(** Two servers dialled; the client of the second has been shut down. *)
Definition two_cached : XClient :=
  mkXClient {[ "tcp@a:1" := 0%nat; "tcp@b:2" := 1%nat ]}
    [Client.NewClientCodec; Client.one_call_terminated].

End XClientCache.

(** ** client.go: making a client *)

Module Dial.
Import Options.

(** What is done with the connection. *)
Inductive conn_op : Type :=
  | Encode (opt : Option)     (* json.NewEncoder(conn).Encode(opt) *)
  | CloseConn.                (* conn.Close() *)

(** The errors of [Dial], by the way they are made. *)
Inductive dial_error : Type :=
  | parse_error (msg : string)      (* returned by parseOptions *)
  | net_error (msg : string)        (* returned by net.DialTimeout *)
  | codec_error (t : string)        (* fmt.Errorf, invalid codec type *)
  | encode_error (msg : string)     (* returned by Encode *)
  | timeout_error (d : Z).          (* fmt.Errorf, connect timeout *)

(** type clientResult struct *)
Record clientResult : Type := mkClientResult {
  client : option Client.Client;
  err : option dial_error
}.

(** A [newClientFunc] applied to the connection: what it does with the
    connection and what it returns. *)
Definition newClientFunc : Type := Option → list conn_op * clientResult.

Section WithCodecs.
(** Whether [codec.NewCodecFuncMap] has a constructor for the type. *)
Variable NewCodecFuncMap : string → bool.

(** [NewClient]; [encoded] is what [Encode] returns if it is called. *)
Definition NewClient (encoded : option string) : newClientFunc :=
  λ opt,
    if NewCodecFuncMap (CodecType opt) then
      match encoded with
      | Some e => ([Encode opt; CloseConn], mkClientResult None (Some (encode_error e)))
      | None => ([Encode opt], mkClientResult (Some Client.NewClientCodec) None)
      end
    else ([], mkClientResult None (Some (codec_error (CodecType opt)))).

(** What a call of [dialTimeout] leaves: the values returned, whether
    [net.DialTimeout] was called, what the goroutine running [f] does with
    the connection, whether the deferred function closed the connection,
    and whether the goroutine is left at its send on [ch] with nobody to
    receive. *)
Record dialled : Type := mkDialled {
  ret : clientResult;
  dial_called : bool;
  by_f : list conn_op;
  closed_on_return : bool;
  left_sending : bool
}.

(** [dialTimeout].  [dial] is what [net.DialTimeout] returns if it is
    called, the error if there is one; [timer_first] says which case the
    select takes if it is reached. *)
Definition dialTimeout (f : newClientFunc) (st : gmap nat Option)
    (opts : list (option nat)) (dial : option string) (timer_first : bool)
  : outcome (gmap nat Option * dialled) :=
  match parseOptions st opts with
  | Panics msg => Panics msg
  | Return (st1, (_, Some e)) =>
      Return (st1, mkDialled (mkClientResult None (Some (parse_error e)))
                     false [] false false)
  | Return (st1, (a, None)) =>
      match a ≫= (st1 !!.) with
      | None => Panics "invalid memory address"
      | Some opt =>
          match dial with
          | Some e =>
              Return (st1, mkDialled (mkClientResult None (Some (net_error e)))
                             true [] false false)
          | None =>
              let '(ops, result) := f opt in
              if bool_decide (ConnectTimeout opt = 0) || negb timer_first then
                Return (st1, mkDialled result true ops
                               (bool_decide (err result ≠ None)) false)
              else
                Return (st1, mkDialled
                               (mkClientResult None
                                  (Some (timeout_error (ConnectTimeout opt))))
                               true ops true true)
          end
      end
  end.

(** [Dial] *)
Definition Dial (encoded : option string) :=
  dialTimeout (NewClient encoded).

End WithCodecs.

(** How often the connection is closed. *)
Definition is_close (op : conn_op) : bool :=
  match op with CloseConn => true | Encode _ => false end.

Definition closes (d : dialled) : nat :=
  length (filter (λ op, is_close op = true) (by_f d)) +
  (if closed_on_return d then 1 else 0).

End Dial.

(** * Properties *)

Lemma wrap_int_small x : - 2 ^ 63 ≤ x ≤ max_int → wrap_int x = x.
Proof.
  unfold wrap_int, max_int, uint64_mod. intros ?.
  rewrite Z.mod_small; lia.
Qed.

Lemma wrap_uint64_small x : 0 ≤ x < uint64_mod → wrap_uint64 x = x.
Proof. unfold wrap_uint64. intros ?. by rewrite Z.mod_small. Qed.


Module DiscoveryFacts.
Import Discovery.

Lemma at_index_lookup (l : list string) (i : Z) s :
  0 ≤ i → l !! Z.to_nat i = Some s → at_index l i = Return s.
Proof. intros Hi Hl. unfold at_index. rewrite decide_True by done. by rewrite Hl. Qed.

(** One round-robin step on a non-empty list. *)
Lemma Get_round_robin_step (d : MultiServersDiscovery) (intn : Z) :
  index_ok d → servers d ≠ [] →
  let n := Z.of_nat (length (servers d)) in
  ∃ s, servers d !! Z.to_nat (index d `mod` n) = Some s ∧
    Get d RoundRobinSelect intn =
      Return ({| servers := servers d; index := (index d + 1) `mod` n |},
              (s, None)).
Proof.
  intros [Hi Hl] Hne n.
  assert (0 < n) as Hn by (subst n; destruct (servers d); simpl in *; [done | lia]).
  destruct (lookup_lt_is_Some_2 (servers d) (Z.to_nat (index d `mod` n))) as [s Hs].
  { pose proof (Z.mod_pos_bound (index d) n Hn). lia. }
  exists s. split; [done |].
  unfold Get. fold n.
  rewrite decide_False by lia.
  rewrite decide_False by done.
  rewrite decide_True by done.
  rewrite Z.rem_mod_nonneg by lia.
  rewrite (at_index_lookup _ _ s); [| apply Z.mod_pos_bound; lia | done].
  rewrite wrap_int_small by (unfold max_int in *; lia).
  rewrite Z.rem_mod_nonneg by lia. done.
Qed.

Lemma index_ok_step (d : MultiServersDiscovery) :
  index_ok d → servers d ≠ [] →
  index_ok {| servers := servers d;
              index := (index d + 1) `mod` Z.of_nat (length (servers d)) |}.
Proof.
  intros [Hi Hl] Hne. split; simpl; [| done].
  assert (0 < Z.of_nat (length (servers d)))
    by (destruct (servers d); simpl in *; [done | lia]).
  pose proof (Z.mod_pos_bound (index d + 1) (Z.of_nat (length (servers d)))).
  lia.
Qed.

(** [k] consecutive calls walk the list cyclically from [index mod n]. *)
Lemma round_robin_lookup (k : nat) (d : MultiServersDiscovery) :
  index_ok d → servers d ≠ [] →
  let n := Z.of_nat (length (servers d)) in
  ∃ l d', round_robin k d = Some (l, d') ∧
    servers d' = servers d ∧
    length l = k ∧
    (k ≠ O → index d' = (index d + Z.of_nat k) `mod` n) ∧
    ∀ j, (j < k)%nat →
      l !! j = servers d !! Z.to_nat ((index d + Z.of_nat j) `mod` n).
Proof.
  revert d. induction k as [| k IH]; intros d Hok Hne n.
  - exists [], d. simpl. repeat split; [done | intros; lia].
  - destruct (Get_round_robin_step d 0 Hok Hne) as (s & Hs & HG).
    fold n in Hs, HG.
    pose proof (index_ok_step d Hok Hne) as Hok'.
    set (d1 := {| servers := servers d; index := (index d + 1) `mod` n |}) in *.
    destruct (IH d1 Hok' Hne) as (l & d' & Hrr & Hsv & Hlen & Hidx & Hlk).
    exists (s :: l), d'. simpl round_robin. rewrite HG.
    fold d1. rewrite Hrr. simpl in *. fold n in Hidx, Hlk.
    assert (0 < n) as Hn by (subst n; destruct (servers d); simpl in *; [done | lia]).
    repeat split; [done | by rewrite Hlen | |].
    + intros _. destruct k as [| k'].
      * destruct l; [| done]. simpl in Hrr.
        injection Hrr as <-. simpl. f_equal.
      * rewrite Hidx by done.
        rewrite Zplus_mod_idemp_l. f_equal. lia.
    + intros [| j] Hj; simpl.
      * by rewrite Z.add_0_r.
      * rewrite Hlk by lia. rewrite Zplus_mod_idemp_l.
        do 3 f_equal. lia.
Qed.

(** A full cycle returns the list rotated by the initial offset. *)
Lemma round_robin_cycle (d : MultiServersDiscovery) :
  index_ok d → servers d ≠ [] →
  ∃ l d', round_robin (length (servers d)) d = Some (l, d') ∧
    l = rotate (Z.to_nat (index d `mod` Z.of_nat (length (servers d))))
          (servers d).
Proof.
  intros Hok Hne.
  destruct (round_robin_lookup (length (servers d)) d Hok Hne)
    as (l & d' & Hrr & _ & Hlen & _ & Hlk).
  exists l, d'. split; [done |].
  assert (0 < Z.of_nat (length (servers d))) as Hn
    by (destruct (servers d); simpl in *; [done | lia]).
  apply list_eq. intros j.
  destruct (decide (j < length (servers d))%nat) as [Hj | Hj].
  - rewrite Hlk by done. rewrite lookup_rotate_r by done.
    f_equal. unfold rotate_nat_add.
    rewrite Z2Nat.id by (apply Z.mod_pos_bound; lia).
    rewrite Zplus_mod_idemp_l. done.
  - rewrite !lookup_ge_None_2; [done | rewrite length_rotate; lia | lia].
Qed.

(** The constructor establishes [index_ok] and the methods keep it. *)
Lemma NewMultiServerDiscovery_index_ok (l : list string) (r0 : Z) :
  0 ≤ r0 < 2 ^ 31 - 2 → Z.of_nat (length l) ≤ max_int →
  index_ok (NewMultiServerDiscovery l r0).
Proof. unfold index_ok, max_int. simpl. lia. Qed.

Lemma Update_index_ok (d : MultiServersDiscovery) (l : list string) :
  index_ok d → Z.of_nat (length l) ≤ max_int → index_ok (Update d l).
Proof. unfold index_ok. simpl. tauto. Qed.

Lemma Get_index_ok (d d' : MultiServersDiscovery) mode intn res :
  index_ok d → Get d mode intn = Return (d', res) → index_ok d'.
Proof.
  intros Hok. unfold Get. repeat case_decide; try (by intros [= <- _]).
  - destruct (at_index (servers d) intn); [by intros [= <- _] | done].
  - destruct (decide (servers d = [])) as [Hd | Hd].
    { rewrite Hd in *. simpl in *. done. }
    destruct (Get_round_robin_step d intn Hok Hd) as (s & _ & HG).
    unfold Get in HG. rewrite !decide_False in HG by done.
    rewrite decide_True in HG by done. rewrite HG.
    intros [= <- _]. by apply index_ok_step.
Qed.

Lemma Get_empty (d : MultiServersDiscovery) mode intn :
  servers d = [] → Get d mode intn = Return (d, ("", Some err_no_servers)).
Proof. intros Hd. unfold Get. by rewrite Hd. Qed.

Lemma Get_unknown_mode (d : MultiServersDiscovery) mode intn :
  servers d ≠ [] → mode ≠ RandomSelect → mode ≠ RoundRobinSelect →
  Get d mode intn = Return (d, ("", Some err_bad_mode)).
Proof.
  intros Hd H0 H1. unfold Get.
  rewrite decide_False by (destruct (servers d); simpl; [done | lia]).
  by rewrite !decide_False by done.
Qed.

(** C6.  On a non-empty list of length [n], [Get(RoundRobinSelect)] returns
    [servers[index mod n]] and leaves [index = (index + 1) mod n]; [n]
    consecutive calls return the list rotated by the initial offset, hence
    every entry exactly once; on an empty list [Get] returns the
    no-servers error whatever the mode, and on a non-empty list a mode
    other than the two known ones gets the unsupported-mode error. *)
Theorem Get_round_robin_spec (d : MultiServersDiscovery) (mode : SelectMode)
    (intn : Z) :
  index_ok d →
  let n := Z.of_nat (length (servers d)) in
  (servers d = [] →
     Get d mode intn = Return (d, ("", Some err_no_servers))) ∧
  (servers d ≠ [] → mode ≠ RandomSelect → mode ≠ RoundRobinSelect →
     Get d mode intn = Return (d, ("", Some err_bad_mode))) ∧
  (servers d ≠ [] →
     (∃ s, servers d !! Z.to_nat (index d `mod` n) = Some s ∧
        Get d RoundRobinSelect intn =
          Return ({| servers := servers d; index := (index d + 1) `mod` n |},
                  (s, None))) ∧
     (∃ l d', round_robin (length (servers d)) d = Some (l, d') ∧
        l = rotate (Z.to_nat (index d `mod` n)) (servers d) ∧
        l ≡ₚ servers d)).
Proof.
  intros Hok n. split; [apply Get_empty |]. split; [apply Get_unknown_mode |].
  intros Hne. split; [by apply Get_round_robin_step |].
  destruct (round_robin_cycle d Hok Hne) as (l & d' & Hrr & Hl).
  exists l, d'. split; [done |]. split; [done |].
  rewrite Hl. unfold rotate.
  rewrite Permutation_app_comm. by rewrite take_drop.
Qed.

Lemma Get_round_robin_spec_witness :
  index_ok three_servers ∧
  ∃ l d', round_robin 3 three_servers = Some (l, d') ∧
    l = ["tcp@b:2"; "tcp@c:3"; "tcp@a:1"] ∧ l ≡ₚ servers three_servers.
Proof.
  assert (index_ok three_servers) as Hok.
  { unfold index_ok, max_int. simpl. lia. }
  split; [exact Hok |].
  destruct (Get_round_robin_spec three_servers RoundRobinSelect 0 Hok)
    as (_ & _ & H).
  destruct (H ltac:(done)) as (_ & l & d' & Hrr & Hl & Hp).
  exists l, d'. done.
Defined.

End DiscoveryFacts.

Module OptionsFacts.
Import Options.

Lemma parseOptions_none st opts :
  opts = [] ∨ (∃ rest, opts = None :: rest) →
  parseOptions st opts = Return (st, (Some DefaultOption, None)).
Proof. intros [H | [rest H]]; subst opts; reflexivity. Qed.

Lemma parseOptions_many st a o rest :
  parseOptions st (Some a :: o :: rest) = Return (st, (None, Some err_too_many)).
Proof. done. Qed.

Lemma parseOptions_one st a opt dflt :
  st !! DefaultOption = Some dflt → st !! a = Some opt →
  parseOptions st [Some a] =
    Return (<[a := {| opt_Number := opt_Number dflt;
                      CodecType := if decide (CodecType opt = "")
                                   then CodecType dflt else CodecType opt;
                      ConnectTimeout := ConnectTimeout opt;
                      HandleTimeout := HandleTimeout opt |}]> st,
            (Some a, None)).
Proof.
  intros Hd Ha. unfold parseOptions. simpl.
  rewrite Ha, Hd. destruct (decide (CodecType opt = "")) as [He | He]; [| done].
  destruct (decide (a = DefaultOption)) as [-> | Hne].
  - rewrite lookup_insert_eq. rewrite insert_insert_eq. simpl.
    assert (opt = dflt) as -> by congruence. by rewrite He.
  - rewrite lookup_insert_ne by done. rewrite Hd.
    by rewrite insert_insert_eq.
Qed.

(** A second option after a nil one is accepted without an error. *)
Lemma parseOptions_nil_first_no_error :
  let opts := [None; Some 1%nat] in
  (1 < length opts)%nat ∧
  ¬ ∃ st' p e,
      parseOptions (initial_options "application/gob") opts
        = Return (st', (p, Some e)).
Proof. split; [simpl; lia |]. intros (st' & p & e & H). simpl in H. congruence. Qed.

(** C9, amended.  With no option, or with a nil first option whatever
    follows it, [parseOptions] returns [DefaultOption] and no error and
    writes nothing; with exactly one non-nil option it overwrites that
    option's magic number with the default's, fills in the default codec
    type only when the option's is empty, and returns the option's own
    address; with a non-nil first option followed by further ones it
    returns nil and the too-many-options error and writes nothing. *)
Theorem parseOptions_spec (st : gmap nat Option) (dflt : Option) :
  st !! DefaultOption = Some dflt →
  (∀ opts, opts = [] ∨ (∃ rest, opts = None :: rest) →
     parseOptions st opts = Return (st, (Some DefaultOption, None))) ∧
  (∀ a opt, st !! a = Some opt →
     parseOptions st [Some a] =
       Return (<[a := {| opt_Number := opt_Number dflt;
                         CodecType := if decide (CodecType opt = "")
                                      then CodecType dflt else CodecType opt;
                         ConnectTimeout := ConnectTimeout opt;
                         HandleTimeout := HandleTimeout opt |}]> st,
               (Some a, None))) ∧
  (∀ a o rest,
     parseOptions st (Some a :: o :: rest)
       = Return (st, (None, Some err_too_many))).
Proof.
  intros Hd. split; [intros; by apply parseOptions_none |].
  split; [intros; by apply parseOptions_one |].
  intros. apply parseOptions_many.
Qed.

Lemma parseOptions_spec_witness :
  two_options !! DefaultOption = Some (DefaultOption_value "application/gob") ∧
  parseOptions two_options [Some 1%nat] =
    Return (<[1%nat := {| opt_Number := Number; CodecType := "application/gob";
                          ConnectTimeout := 1000000000;
                          HandleTimeout := 0 |}]> two_options,
            (Some 1%nat, None)).
Proof.
  assert (two_options !! DefaultOption
          = Some (DefaultOption_value "application/gob")) as Hd by done.
  split; [exact Hd |].
  destruct (parseOptions_spec two_options _ Hd) as (_ & H & _).
  exact (H 1%nat user_option eq_refl).
Defined.

End OptionsFacts.

Module RegistryFacts.
Import Registry.

(** *** The order on strings *)

Lemma ascii_compare_refl c : Ascii.compare c c = Eq.
Proof. unfold Ascii.compare. by apply N.compare_eq_iff. Qed.

Lemma string_compare_refl s : String.compare s s = Eq.
Proof. induction s as [| c s IH]; simpl; [done |]. by rewrite ascii_compare_refl. Qed.

Lemma string_compare_lt_trans s1 s2 s3 :
  String.compare s1 s2 = Lt → String.compare s2 s3 = Lt →
  String.compare s1 s3 = Lt.
Proof.
  revert s2 s3. induction s1 as [| c1 s1 IH]; intros [| c2 s2] [| c3 s3];
    simpl; try done.
  unfold Ascii.compare.
  destruct (N.compare_spec (N_of_ascii c1) (N_of_ascii c2)) as [E12 | L12 | G12];
    destruct (N.compare_spec (N_of_ascii c2) (N_of_ascii c3)) as [E23 | L23 | G23];
    try done; intros H12 H23.
  - rewrite E12, E23. rewrite (proj2 (N.compare_eq_iff _ _) eq_refl). by eapply IH.
  - rewrite E12. by apply N.compare_lt_iff in L23 as ->.
  - rewrite <- E23. by apply N.compare_lt_iff in L12 as ->.
  - assert (N_of_ascii c1 < N_of_ascii c3)%N as L13 by lia.
    by apply N.compare_lt_iff in L13 as ->.
Qed.

#[global] Instance string_le_total : Total string_le.
Proof. intros s1 s2. apply String.leb_total. Qed.

#[global] Instance string_le_antisymm : AntiSymm (=) string_le.
Proof. intros s1 s2. apply String.leb_antisym. Qed.

#[global] Instance string_le_trans : Transitive string_le.
Proof.
  intros s1 s2 s3. unfold string_le, String.leb.
  destruct (String.compare s1 s2) eqn:H12; [| | done];
    destruct (String.compare s2 s3) eqn:H23; try done; intros _ _.
  - apply String.compare_eq_iff in H12, H23. subst.
    by rewrite string_compare_refl.
  - apply String.compare_eq_iff in H12. subst. by rewrite H23.
  - apply String.compare_eq_iff in H23. subst. by rewrite H12.
  - by rewrite (string_compare_lt_trans _ _ _ H12 H23).
Qed.

Lemma sort_Strings_sorted l : StronglySorted string_le (sort_Strings l).
Proof. apply StronglySorted_merge_sort; apply _. Qed.

Lemma sort_Strings_perm l : sort_Strings l ≡ₚ l.
Proof. apply merge_sort_Permutation. Qed.

(** *** The loop of [aliveServers] *)

Lemma alive_fold t now (l : list (string * ServerItem)) acc m :
  let res := foldl (alive_step t now) (acc, m) l in
  res.1 = (acc ++ (filter (λ e, still_alive t e.2 (now e.1)) l).*1)%list ∧
  (∀ a x, res.2 !! a = Some x ↔
     m !! a = Some x ∧ ¬ ∃ s, (a, s) ∈ l ∧ ¬ still_alive t s (now a)).
Proof.
  revert acc m. induction l as [| [a0 s0] l IH]; intros acc m; simpl.
  - split; [by rewrite app_nil_r |]. intros a x. split; [| by intros [? _]].
    intros H. split; [done |]. intros (s & Hs & _). by apply elem_of_nil in Hs.
  - unfold alive_step at 2 4. simpl.
    destruct (decide (still_alive t s0 (now a0))) as [Ha | Hd]; simpl.
    + destruct (IH (acc ++ [a0])%list m) as [IH1 IH2]. split.
      * rewrite IH1. rewrite filter_cons_True by done. simpl.
        by rewrite <- app_assoc.
      * intros a x. rewrite IH2. split; intros [Hm Hn]; (split; [done |]).
        -- intros (s & Hs & Hns). apply elem_of_cons in Hs as [Heq | Hs].
           ++ by simplify_eq.
           ++ apply Hn. eauto.
        -- intros (s & Hs & Hns). apply Hn. exists s. split; [| done].
           apply elem_of_cons; by right.
    + destruct (IH acc (delete a0 m)) as [IH1 IH2]. split.
      * rewrite IH1. by rewrite filter_cons_False by done.
      * intros a x. rewrite IH2. rewrite lookup_delete_Some.
        split.
        -- intros [[Hne Hm] Hn]. split; [done |].
           intros (s & Hs & Hns). apply elem_of_cons in Hs as [Heq | Hs].
           ++ by simplify_eq.
           ++ apply Hn. eauto.
        -- intros [Hm Hn]. split; [split; [| done] |].
           ++ intros <-. apply Hn. exists s0. split; [| done].
              apply elem_of_cons; by left.
           ++ intros (s & Hs & Hns). apply Hn. exists s. split; [| done].
              apply elem_of_cons; by right.
Qed.

Lemma aliveServers_elem r now a :
  a ∈ (aliveServers r now).1 ↔
  ∃ s, servers r !! a = Some s ∧ still_alive (timeout r) s (now a).
Proof.
  unfold aliveServers. simpl. rewrite sort_Strings_perm.
  destruct (alive_fold (timeout r) now (map_to_list (servers r)) [] (servers r))
    as [-> _]. simpl.
  rewrite list_elem_of_fmap. split.
  - intros ([a' s] & -> & Hin). apply list_elem_of_filter in Hin as [Hal Hin].
    apply elem_of_map_to_list in Hin. eauto.
  - intros (s & Hs & Hal). exists (a, s). split; [done |].
    apply list_elem_of_filter. split; [done |]. by apply elem_of_map_to_list.
Qed.

Lemma aliveServers_NoDup r now : NoDup (aliveServers r now).1.
Proof.
  unfold aliveServers. simpl. rewrite sort_Strings_perm.
  destruct (alive_fold (timeout r) now (map_to_list (servers r)) [] (servers r))
    as [-> _]. simpl.
  eapply NoDup_fmap_fst; [| apply NoDup_filter, NoDup_map_to_list].
  intros a x y Hx Hy.
  apply list_elem_of_filter in Hx as [_ Hx]. apply list_elem_of_filter in Hy as [_ Hy].
  apply elem_of_map_to_list in Hx, Hy. congruence.
Qed.

Lemma aliveServers_map r now a :
  servers (aliveServers r now).2 !! a =
    match servers r !! a with
    | Some s => if decide (still_alive (timeout r) s (now a)) then Some s else None
    | None => None
    end.
Proof.
  unfold aliveServers. simpl.
  destruct (alive_fold (timeout r) now (map_to_list (servers r)) [] (servers r))
    as [_ H].
  simpl in H. apply option_eq. intros x. rewrite H.
  destruct (servers r !! a) as [s |] eqn:Hs; [| by split; [intros [? _] |]].
  destruct (decide (still_alive (timeout r) s (now a))) as [Hal | Hd].
  - split; [by intros [? _] |]. intros [= <-]. split; [done |].
    intros (s' & Hs' & Hn). apply elem_of_map_to_list in Hs'.
    assert (s' = s) as -> by congruence. done.
  - split; [| done]. intros [_ Hn]. exfalso. apply Hn. exists s.
    split; [| done]. by apply elem_of_map_to_list.
Qed.

Lemma ServeHTTP_GET r w req now :
  Method req = "GET" →
  ServeHTTP r w req now =
    ((aliveServers r now).2,
     {| status := status w;
        resp_Header := <["X-Gorpc-Servers" := Join (aliveServers r now).1 ","]>
                         (resp_Header w) |}).
Proof.
  intros HM. unfold ServeHTTP. rewrite decide_True by done.
  by destruct (aliveServers r now).
Qed.

(** C5.  A GET query returns exactly the addresses whose entry is still
    alive (heartbeat plus timeout after the clock reading taken at that
    entry, or timeout zero), each once; it leaves in the map exactly
    those entries, so every expired one is deleted during the query; the
    returned list is increasing in the bytewise lexicographic order, and
    it is this sorted list that is joined with commas into the
    X-Gorpc-Servers header. *)
Theorem aliveServers_spec (r : GoRegistry) (now : string → Z)
    (w : Response) (req : Request) :
  let alive := (aliveServers r now).1 in
  let r' := (aliveServers r now).2 in
  (∀ a, a ∈ alive ↔
     ∃ s, servers r !! a = Some s ∧
          (timeout r = 0 ∨ now a < start s + timeout r)) ∧
  NoDup alive ∧
  (∀ a, servers r' !! a =
     match servers r !! a with
     | Some s =>
         if decide (timeout r = 0 ∨ now a < start s + timeout r)
         then Some s else None
     | None => None
     end) ∧
  timeout r' = timeout r ∧
  StronglySorted string_le alive ∧
  (Method req = "GET" →
     ServeHTTP r w req now =
       (r', {| status := status w;
               resp_Header := <["X-Gorpc-Servers" := Join alive ","]>
                                (resp_Header w) |})).
Proof.
  intros alive r'. split; [apply aliveServers_elem |].
  split; [apply aliveServers_NoDup |].
  split; [apply aliveServers_map |].
  split; [done |].
  split; [apply sort_Strings_sorted |].
  apply ServeHTTP_GET.
Qed.

Lemma aliveServers_spec_witness :
  Method (mkRequest "GET" ∅) = "GET" ∧
  ServeHTTP demo_registry (mkResponse None ∅) (mkRequest "GET" ∅) (λ _, 120) =
    ({| timeout := 100;
        servers := {[ "tcp@b:2" := mkItem "tcp@b:2" 50;
                      "tcp@c:3" := mkItem "tcp@c:3" 70 ]} |},
     {| status := None;
        resp_Header := {[ "X-Gorpc-Servers" := "tcp@b:2,tcp@c:3" ]} |}).
Proof.
  split; [reflexivity |].
  destruct (aliveServers_spec demo_registry (λ _, 120) (mkResponse None ∅)
              (mkRequest "GET" ∅)) as (_ & _ & _ & _ & _ & H).
  rewrite (H eq_refl). vm_compute. reflexivity.
Defined.

End RegistryFacts.

Module ClientFacts.
Import Client.

Example Sprintf0_plain : Sprintf0 0 "rpc server: can't find service Foo"
                         = Some "rpc server: can't find service Foo".
Proof. reflexivity. Qed.

Example Sprintf0_verb : Sprintf0 0 "disk 100% full" = Some "disk 100%!f(MISSING)ull".
Proof. reflexivity. Qed.

Lemma Sprintf0_no_percent s : has_percent s = false → Sprintf0 0 s = Some s.
Proof.
  induction s as [| c s IH]; simpl; [done |].
  intros [Hc Hs]%orb_false_elim. rewrite Hc. by rewrite IH.
Qed.


Lemma wp_bind {A B} (m : M A) (k : A → M B) c Q QB QP :
  wp m c (λ a c1, wp (k a) c1 Q QB QP) QB QP → wp (bind m k) c Q QB QP.
Proof. unfold wp, bind. by destruct (m c). Qed.

Lemma wp_ret {A} (a : A) c (Q : A → Client → Prop) QB QP :
  Q a c → wp (ret a) c Q QB QP.
Proof. done. Qed.

Lemma wp_modify f c (Q : unit → Client → Prop) QB QP :
  Q tt (f c) → wp (modify f) c Q QB QP.
Proof. done. Qed.

Lemma wp_log op c (Q : unit → Client → Prop) QB QP :
  Q tt (set_cc (λ l, l ++ [op]) c) → wp (log op) c Q QB QP.
Proof. done. Qed.

Lemma wp_removeCall s c (Q : option nat → Client → Prop) QB QP :
  Q (pending c !! s) (set_pending (delete s) c) → wp (removeCall s) c Q QB QP.
Proof. done. Qed.

Lemma wp_make_chan n c (Q : nat → Client → Prop) QB QP :
  Q (length (chans c)) (set_chans (λ l, l ++ [mkChan n []]) c) →
  wp (make_chan n) c Q QB QP.
Proof. done. Qed.

Lemma wp_new_call x c (Q : nat → Client → Prop) QB QP :
  Q (length (calls c)) (set_calls (λ l, l ++ [x]) c) →
  wp (new_call x) c Q QB QP.
Proof. done. Qed.

Lemma wp_load_call p c (Q : Call → Client → Prop) QB (QP : Prop) :
  (∀ x, calls c !! p = Some x → Q x c) →
  (calls c !! p = None → QP) →
  wp (load_call p) c Q QB QP.
Proof. unfold wp, load_call. destruct (calls c !! p); eauto. Qed.

Lemma wp_update_call p f c (Q : unit → Client → Prop) QB (QP : Prop) :
  (∀ x, calls c !! p = Some x → Q tt (set_calls (<[p := f x]>) c)) →
  (calls c !! p = None → QP) →
  wp (update_call p f) c Q QB QP.
Proof.
  intros HQ HP. unfold update_call. apply wp_bind, wp_load_call; [| done].
  intros x Hx. by apply wp_modify, HQ.
Qed.

Lemma wp_done p c (Q : unit → Client → Prop) (QB : Client → Prop) (QP : Prop) :
  (∀ x ch, calls c !! p = Some x → chans c !! Done x = Some ch →
     (length (buf ch) < cap ch)%nat →
     Q tt (set_completions (λ l, l ++ [p])
             (set_chans (<[Done x := mkChan (cap ch) (buf ch ++ [p])]>) c))) →
  (∀ x, calls c !! p = Some x →
     (∀ ch, chans c !! Done x = Some ch → (cap ch ≤ length (buf ch))%nat) →
     QB c) →
  (calls c !! p = None → QP) →
  wp (done p) c Q QB QP.
Proof.
  intros HQ HB HP. unfold done. apply wp_bind, wp_load_call; [| done].
  intros x Hx. unfold wp.
  destruct (chans c !! Done x) as [ch |] eqn:Hch.
  - case_decide; [by eapply HQ |].
    eapply HB; [done |]. intros ch' ?. simplify_eq. lia.
  - eapply HB; [done |]. intros ch' ?. congruence.
Qed.

Lemma wp_registerCall p c (Q : Z * option error → Client → Prop) QB (QP : Prop) :
  (closing c || shutdown c = true → Q (0, Some ErrShutdown) c) →
  (∀ x, closing c || shutdown c = false → calls c !! p = Some x →
     Q (seq c, None)
       (set_seq (wrap_uint64 (seq c + 1))
          (set_pending (<[seq c := p]>)
             (set_calls (<[p := set_Seq (seq c) x]>) c)))) →
  (calls c !! p = None → QP) →
  wp (registerCall p) c Q QB QP.
Proof.
  intros H1 H2 HP. unfold wp, registerCall.
  destruct (closing c || shutdown c) eqn:E; [by apply H1 |].
  unfold bind, update_call, bind, load_call.
  destruct (calls c !! p) as [x |] eqn:Hx; simpl; [by apply H2 | by apply HP].
Qed.

Lemma wp_mono {A} (m : M A) c (Q Q' : A → Client → Prop)
    (QB QB' : Client → Prop) (QP QP' : Prop) :
  wp m c Q QB QP →
  (∀ a c', Q a c' → Q' a c') → (∀ c', QB c' → QB' c') → (QP → QP') →
  wp m c Q' QB' QP'.
Proof. unfold wp. destruct (m c); eauto. Qed.

Lemma wp_Ok {A} (m : M A) c Q :
  wp m c Q (λ _, False) False ↔ ∃ a c', m c = Ok a c' ∧ Q a c'.
Proof.
  unfold wp. destruct (m c) as [a c' | c' | msg]; split; try done.
  - intros HQ. by exists a, c'.
  - by intros (a' & c'' & [= <- <-] & HQ).
  - by intros (a' & c'' & [=] & _).
  - by intros (a' & c'' & [=] & _).
Qed.

Lemma stable_refl c : stable c c.
Proof. by split. Qed.

Lemma stable_trans c1 c2 c3 : stable c1 c2 → stable c2 c3 → stable c1 c3.
Proof. intros [] []. split; auto. Qed.

Lemma Good_same live n c c' :
  pending c' = pending c → calls c' = calls c →
  completions c' = completions c → seq c' = seq c →
  Good live n c → Good live n c'.
Proof. intros Hp Hc Hl Hs [Hi Hq]. split; rewrite ?Hp, ?Hc, ?Hl, ?Hs; done. Qed.

Lemma Good_delete live n c s :
  Good live n c → Good live n (set_pending (delete s) c).
Proof.
  intros [[H1 H2 H3 H4] Hq]. split; [split |]; simpl; try done.
  - intros s' p [_ Hp]%lookup_delete_Some. eauto.
  - intros s1 s2 p [_ Hp1]%lookup_delete_Some [_ Hp2]%lookup_delete_Some. eauto.
Qed.

Lemma seqs_ok_insert z l p x y :
  seqs_ok z l → l !! p = Some x → Seq y = Seq x → seqs_ok z (<[p := y]> l).
Proof.
  intros [H1 H2] Hx Hy. split.
  - intros q w Hq. destruct (decide (p = q)) as [<- | Hne].
    + rewrite list_lookup_insert_eq in Hq by (by eapply lookup_lt_Some).
      simplify_eq. rewrite Hy. eauto.
    + rewrite list_lookup_insert_ne in Hq by done. eauto.
  - intros q1 q2 w1 w2 Hlt Hq1 Hq2.
    assert (∃ w1', l !! q1 = Some w1' ∧ Seq w1' = Seq w1) as (w1' & Hw1 & <-).
    { destruct (decide (p = q1)) as [<- | Hne].
      - rewrite list_lookup_insert_eq in Hq1 by (by eapply lookup_lt_Some).
        simplify_eq. eauto.
      - rewrite list_lookup_insert_ne in Hq1 by done. eauto. }
    assert (∃ w2', l !! q2 = Some w2' ∧ Seq w2' = Seq w2) as (w2' & Hw2 & <-).
    { destruct (decide (p = q2)) as [<- | Hne].
      - rewrite list_lookup_insert_eq in Hq2 by (by eapply lookup_lt_Some).
        simplify_eq. eauto.
      - rewrite list_lookup_insert_ne in Hq2 by done. eauto. }
    eauto.
Qed.

Lemma Good_update live n c p x y :
  Good live n c → calls c !! p = Some x → Seq y = Seq x →
  Good live n (set_calls (<[p := y]>) c).
Proof.
  intros [Hi Hq] Hx Hy. split; simpl.
  - by rewrite length_insert.
  - intros Hn. destruct (Hq Hn) as [? ?]. split; [done |].
    by eapply seqs_ok_insert.
Qed.

Lemma Good_complete live n c p :
  Good live n c → (p < length (calls c))%nat → p ∉ completions c →
  range_free (pending c) p →
  Good live n (set_completions (λ l, l ++ [p]) c).
Proof.
  intros [[H1 H2 H3 H4] Hq] Hlt Hnew Hfree. split; [split |]; simpl; try done.
  - apply NoDup_app. split; [done |]. split; [| apply NoDup_singleton].
    intros q Hq1 Hq2%list_elem_of_singleton. by subst.
  - intros s q Hs. destruct (H2 s q Hs) as [? Hl]. split; [done |].
    intros Hlive [Hin | Hin%list_elem_of_singleton]%elem_of_app.
    + by apply Hl.
    + subst. by apply (Hfree s).
  - intros q [Hin | Hin%list_elem_of_singleton]%elem_of_app; [eauto | by subst].
Qed.

Lemma seqs_ok_snoc z l x : seqs_ok z l → Seq x = 0 → seqs_ok z (l ++ [x]).
Proof.
  intros [H1 H2] Hx. split.
  - intros p w Hp. apply lookup_app_Some in Hp as [Hp | [_ Hp]]; [eauto |].
    apply list_lookup_singleton_Some in Hp as [_ <-]. eauto.
  - intros p q w1 w2 Hlt Hp Hq Hn1 Hn2.
    apply lookup_app_Some in Hq as [Hq | [_ Hq]].
    + apply lookup_app_Some in Hp as [Hp | [Hge _]]; [eauto |].
      apply lookup_lt_Some in Hq. lia.
    + apply list_lookup_singleton_Some in Hq as [_ <-]. done.
Qed.

Lemma Good_new_call live n c x :
  Good live n c → Seq x = 0 → Good live n (set_calls (λ l, l ++ [x]) c).
Proof.
  intros [[H1 H2 H3 H4] Hq] Hx. split; [split |]; simpl; try done.
  - intros s p Hs. destruct (H2 s p Hs). rewrite length_app. split; [lia | done].
  - intros p Hp. apply H4 in Hp. rewrite length_app. lia.
  - intros Hn. destruct (Hq Hn). split; [done |]. by apply seqs_ok_snoc.
Qed.

Lemma Good_weaken n c : Good true n c → Good false n c.
Proof.
  intros [[H1 H2 H3 H4] Hq]. split; [split |]; try done.
  intros s p Hs. destruct (H2 s p Hs). done.
Qed.

Lemma Good_later live n c : Good live n c → Good live (S n) c.
Proof.
  intros [Hi Hq]. split; [done |]. intros Hn.
  destruct Hq as [? ?]; [lia |]. split; [lia | done].
Qed.

Lemma Good_register live n c p x :
  Good live n c → S p = length (calls c) → calls c !! p = Some x →
  p ∉ completions c → range_free (pending c) p →
  Good live (S n)
    (set_seq (wrap_uint64 (seq c + 1))
       (set_pending (<[seq c := p]>)
          (set_calls (<[p := set_Seq (seq c) x]>) c))).
Proof.
  intros [[H1 H2 H3 H4] Hq] Hp Hx Hnew Hfree. split; [split |]; simpl; try done.
  - intros s q Hs. rewrite length_insert.
    apply lookup_insert_Some in Hs as [[_ <-] | [_ Hs]]; [split; [lia | done] |].
    eauto.
  - intros s1 s2 q Hs1 Hs2.
    apply lookup_insert_Some in Hs1 as [[<- <-] | [Hn1 Hs1]];
      apply lookup_insert_Some in Hs2 as [[<- ?] | [Hn2 Hs2]]; try done.
    + subst. by destruct (Hfree s2).
    + subst. by destruct (Hfree s1).
    + eauto.
  - intros q Hin. rewrite length_insert. eauto.
  - intros Hn. destruct Hq as [Hz [Hs1 Hs2]]; [lia |].
    rewrite wrap_uint64_small by lia. split; [lia |]. split.
    + intros q w Hq. destruct (decide (p = q)) as [<- | Hne].
      * rewrite list_lookup_insert_eq in Hq by lia. simplify_eq. simpl. lia.
      * rewrite list_lookup_insert_ne in Hq by done.
        destruct (Hs1 _ _ Hq); [by left | right; lia].
    + intros q1 q2 w1 w2 Hlt Hq1 Hq2 Hz1 Hz2.
      assert (q2 < length (calls c))%nat.
      { apply lookup_lt_Some in Hq2. by rewrite length_insert in Hq2. }
      assert (q1 ≠ p) by lia.
      rewrite list_lookup_insert_ne in Hq1 by done.
      destruct (decide (p = q2)) as [<- | Hne].
      * rewrite list_lookup_insert_eq in Hq2 by lia. simplify_eq. simpl.
        destruct (Hs1 _ _ Hq1); [done | lia].
      * rewrite list_lookup_insert_ne in Hq2 by done. eauto.
Qed.

(** *** The methods keep the invariant *)

Lemma Good_complete_dead n c p :
  Good false n c → (p < length (calls c))%nat → p ∉ completions c →
  Good false n (set_completions (λ l, l ++ [p]) c).
Proof.
  intros [[H1 H2 H3 H4] Hq] Hlt Hnew. split; [split |]; simpl; try done.
  - apply NoDup_app. split; [done |]. split; [| apply NoDup_singleton].
    intros q Hq1 Hq2%list_elem_of_singleton. by subst.
  - intros s q Hs. destruct (H2 s q Hs) as [? Hl]. done.
  - intros q [Hin | Hin%list_elem_of_singleton]%elem_of_app; [eauto | by subst].
Qed.

Lemma done_good live n c p :
  Good live n c → (p < length (calls c))%nat → p ∉ completions c →
  (live = true → range_free (pending c) p) →
  wp (done p) c (λ _ c', Good live n c' ∧ stable c c' ∧
                         calls c' = calls c ∧ pending c' = pending c ∧
                         completions c' = completions c ++ [p])
    (λ _, True) True.
Proof.
  intros HG Hlt Hnew Hfree. apply wp_done; [| done | done].
  intros x ch Hx Hch Hroom. split; [| by repeat split].
  destruct live.
  - apply Good_complete; [| done | done | by apply Hfree].
    by eapply Good_same; [.. | exact HG].
  - apply Good_complete_dead; [| done | done].
    by eapply Good_same; [.. | exact HG].
Qed.

Lemma range_free_removed c live n s p :
  Good live n c → pending c !! s = Some p →
  range_free (delete s (pending c)) p.
Proof.
  intros [[_ _ H3 _] _] Hp s' [Hne Hs']%lookup_delete_Some.
  by apply Hne, (H3 _ _ p).
Qed.

(** Completing a call that has been taken out of [pending]. *)
Lemma done_removed_good n c c1 s p :
  Good true n c → pending c !! s = Some p →
  Good true n c1 → pending c1 = delete s (pending c) →
  length (calls c1) = length (calls c) → completions c1 = completions c →
  wp (done p) c1 (λ _ c', Good true n c' ∧ stable c1 c') (λ _, True) True.
Proof.
  intros HG Hp HG1 Hp1 Hc1 Hl1.
  destruct (inv_pending _ _ _ _ (good_inv _ _ _ HG) _ _ Hp) as [Hlt Hnew].
  eapply wp_mono; [apply (done_good true n) | | done | done]; try done.
  - by rewrite Hc1.
  - rewrite Hl1. by apply Hnew.
  - intros _. rewrite Hp1. by eapply range_free_removed.
  - intros [] c' (HG' & Hst & _). done.
Qed.

Lemma send_failed_good n c s e :
  Good true n c →
  wp (send_failed s e) c (λ _ c', Good true n c' ∧ stable c c')
    (λ _, True) True.
Proof.
  intros HG. unfold send_failed. apply wp_bind, wp_removeCall.
  destruct (pending c !! s) as [p |] eqn:Hp.
  - apply wp_bind, wp_update_call; [| done]. intros x Hx.
    eapply wp_mono; [| | done | done].
    + eapply (done_removed_good n c _ s p); try done.
      * eapply Good_update; [by apply Good_delete | done | done].
      * simpl. by rewrite length_insert.
    + intros [] c' [HG' Hst]. split; [done |].
      eapply stable_trans; [| done]. by split.
  - apply wp_ret. split; [by apply Good_delete | by split].
Qed.

Lemma receive_frame_good n c h b :
  Good true n c →
  wp (receive_frame h b) c (λ _ c', Good true n c' ∧ stable c c')
    (λ _, True) True.
Proof.
  intros HG. unfold receive_frame. apply wp_bind, wp_removeCall.
  destruct (pending c !! h_Seq h) as [p |] eqn:Hp.
  - case_decide.
    + apply wp_bind, wp_update_call; [| done]. intros x Hx.
      apply wp_bind, wp_log. apply wp_bind.
      eapply wp_mono; [| | done | done].
      * eapply (done_removed_good n c _ (h_Seq h) p); try done.
        -- eapply Good_same; [.. | eapply Good_update; [by apply Good_delete | done |]];
             done.
        -- simpl. by rewrite length_insert.
      * intros [] c' [HG' Hst]. apply wp_ret. split; [done |].
        eapply stable_trans; [| done]. by split.
    + apply wp_bind, wp_log. apply wp_bind.
      assert (∀ f, (∀ x, Seq (f x) = Seq x) →
        wp (update_call p f) (set_cc (λ l, l ++ [ReadBody (Some p)])
                                (set_pending (delete (h_Seq h)) c))
          (λ _ c1, wp (done p;;; ret (body_error b)) c1
                     (λ _ c', Good true n c' ∧ stable c c') (λ _, True) True)
          (λ _, True) True) as Hupd.
      { intros f Hf. apply wp_update_call; [| done]. intros x Hx.
        apply wp_bind. eapply wp_mono; [| | done | done].
        * eapply (done_removed_good n c _ (h_Seq h) p); try done.
          -- eapply Good_update; [| done | done].
             eapply Good_same; [.. | by apply Good_delete]; done.
          -- simpl. by rewrite length_insert.
        * intros [] c' [HG' Hst]. apply wp_ret. split; [done |].
          eapply stable_trans; [| done]. by split. }
      destruct b; by apply Hupd.
  - apply wp_bind, wp_log, wp_ret. split; [| by split].
    eapply Good_same; [.. | by apply Good_delete]; done.
Qed.

Lemma send_begin_good live n c p :
  Good live n c → S p = length (calls c) → p ∉ completions c →
  range_free (pending c) p →
  wp (send_begin p) c
    (λ r c', Good live (S n) c' ∧ stable c c' ∧
             (shutdown c = true → r = None))
    (λ _, True) True.
Proof.
  intros HG Hp Hnew Hfree. unfold send_begin.
  apply wp_bind, wp_registerCall; [| | done].
  - intros Hcl. apply wp_bind, wp_update_call; [| done]. intros x Hx.
    apply wp_bind. eapply wp_mono; [apply (done_good live n) | | done | done].
    + by eapply Good_update.
    + simpl. rewrite length_insert. lia.
    + done.
    + done.
    + intros [] c' (HG' & Hst & _). apply wp_ret.
      split; [by apply Good_later |]. split; [| done].
      eapply stable_trans; [| done]. by split.
  - intros x Hcl Hx. apply orb_false_elim in Hcl as [Hc Hs].
    apply wp_bind, wp_load_call; [| done]. intros y Hy.
    apply wp_bind, wp_modify, wp_bind, wp_log, wp_ret.
    split; [| split; [by split | congruence]].
    eapply Good_same; [.. | by apply (Good_register live n c p x)]; done.
Qed.

Lemma Go_chan_good live n c d :
  Good live n c →
  wp (Go_chan d) c (λ _ c', Good live n c' ∧ stable c c' ∧
                            shutdown c' = shutdown c)
    (λ _, True) True.
Proof.
  intros HG. destruct d as [ch |]; simpl.
  - unfold wp. destruct (chans c !! ch) as [k |]; [| done].
    case_decide; [done |]. split; [done | split; [apply stable_refl | done]].
  - apply wp_make_chan. split; [| split; [by split | done]].
    by eapply Good_same; [.. | exact HG].
Qed.

Lemma Go_begin_good live n c sm args reply d :
  Good live n c →
  wp (Go_begin sm args reply d) c
    (λ r c', Good live (S n) c' ∧ stable c c' ∧
             (shutdown c = true → r.2 = None))
    (λ _, True) True.
Proof.
  intros HG. unfold Go_begin. apply wp_bind.
  eapply wp_mono; [by apply Go_chan_good | | done | done].
  intros ch c1 (HG1 & Hst1 & Hsh1). apply wp_bind, wp_new_call, wp_bind.
  eapply wp_mono; [apply (send_begin_good live n) | | done | done].
  - by apply Good_new_call.
  - simpl. rewrite length_app. simpl. lia.
  - simpl. intros Hin. apply (inv_done _ _ _ _ (good_inv _ _ _ HG1)) in Hin. lia.
  - simpl. intros s Hs.
    apply (inv_pending _ _ _ _ (good_inv _ _ _ HG1)) in Hs as [Hs _]. lia.
  - intros r c2 (HG2 & Hst2 & Hr). apply wp_ret. split; [done |].
    split.
    + eapply stable_trans; [done |]. eapply stable_trans; [| done]. by split.
    + simpl. intros Hsh. apply Hr. simpl. congruence.
Qed.

Lemma Go_good live n c sm args reply d :
  Good live n c →
  wp (Go sm args reply d None) c (λ _ c', Good live (S n) c' ∧ stable c c')
    (λ _, True) True.
Proof.
  intros HG. unfold Go. apply wp_bind.
  eapply wp_mono; [by apply Go_chan_good | | done | done].
  intros ch c1 (HG1 & Hst1 & Hsh1). apply wp_bind, wp_new_call, wp_bind.
  unfold send. apply wp_bind.
  eapply wp_mono; [apply (send_begin_good live n) | | done | done].
  - by apply Good_new_call.
  - simpl. rewrite length_app. simpl. lia.
  - simpl. intros Hin. apply (inv_done _ _ _ _ (good_inv _ _ _ HG1)) in Hin. lia.
  - simpl. intros s Hs.
    apply (inv_pending _ _ _ _ (good_inv _ _ _ HG1)) in Hs as [Hs _]. lia.
  - intros r c2 (HG2 & Hst2 & Hr).
    assert (stable c c2).
    { eapply stable_trans; [done |]. eapply stable_trans; [| done]. by split. }
    destruct r; apply wp_ret, wp_ret; done.
Qed.

Lemma NoDup_snd_inj {A B} (l : list (A * B)) :
  (∀ x1 x2 y, (x1, y) ∈ l → (x2, y) ∈ l → x1 = x2) → NoDup l → NoDup (snd <$> l).
Proof.
  intros Hinj. induction 1 as [| [x1 y1] l Hin Hnd IH]; simpl; constructor.
  - intros ([x2 y2] & Heq & Hin2)%list_elem_of_fmap. simpl in Heq. subst y2.
    apply Hin. rewrite (Hinj x1 x2 y1); [done | |].
    + apply elem_of_cons. by left.
    + apply elem_of_cons. by right.
  - apply IH. intros x x' y Hx Hx'.
    apply (Hinj x x' y); apply elem_of_cons; by right.
Qed.

Lemma terminate_each_good n e l c :
  Good false n c → NoDup (snd <$> l) →
  (∀ p, p ∈ (snd <$> l) →
     (p ∉ completions c) ∧ (p < length (calls c))%nat) →
  wp (terminate_each e l) c (λ _ c', Good false n c' ∧ stable c c')
    (λ _, True) True.
Proof.
  revert c. induction l as [| [s p] l IH]; intros c HG Hnd Hl; simpl.
  - apply wp_ret. split; [done | by split].
  - apply NoDup_cons in Hnd as [Hp Hnd].
    destruct (Hl p) as [Hnew Hlt]; [apply elem_of_cons; by left |].
    apply wp_bind, wp_update_call; [| done]. intros x Hx. apply wp_bind.
    eapply wp_mono; [apply (done_good false n) | | done | done].
    + by eapply Good_update.
    + simpl. by rewrite length_insert.
    + done.
    + done.
    + intros [] c' (HG' & Hst & Hc & _ & Hcomp).
      eapply wp_mono; [apply IH | | done | done]; try done.
      * intros q Hq. rewrite Hcomp, Hc. simpl. rewrite length_insert.
        destruct (Hl q) as [? ?]; [apply elem_of_cons; by right |].
        split; [| done].
        intros [Hin | Hin%list_elem_of_singleton]%elem_of_app; [done |].
        by subst.
      * intros [] c'' [HG'' Hst'']. split; [done |].
        eapply stable_trans; [| done]. eapply stable_trans; [| done]. by split.
Qed.

Lemma terminateCalls_good n e c :
  Good true n c →
  wp (terminateCalls e) c
    (λ _ c', Good false n c' ∧ stable c c' ∧ shutdown c' = true)
    (λ _, True) True.
Proof.
  intros HG. unfold terminateCalls. apply wp_bind, wp_modify.
  set (c1 := set_shutdown true c).
  assert (wp (terminate_each e (map_to_list (pending c1))) c1
            (λ _ c', Good false n c' ∧ stable c1 c') (λ _, True) True) as H.
  { apply terminate_each_good.
    - apply Good_weaken. by eapply Good_same; [.. | exact HG].
    - apply NoDup_snd_inj; [| apply NoDup_map_to_list].
      intros s1 s2 p H1%elem_of_map_to_list H2%elem_of_map_to_list.
      by eapply (inv_inj _ _ _ _ (good_inv _ _ _ HG)).
    - intros p ([s p'] & -> & Hin%elem_of_map_to_list)%list_elem_of_fmap.
      simpl in *.
      destruct (inv_pending _ _ _ _ (good_inv _ _ _ HG) _ _ Hin) as [? Hn].
      split; [by apply Hn | done]. }
  unfold wp in *. destruct (terminate_each e (map_to_list (pending c1)) c1)
    as [[] c' | c' |]; try done.
  destruct H as [HG' [Hs Hc]]. split; [done |]. split; [| by apply Hs].
  split; [intros _; by apply Hs | done].
Qed.

(** *** The invariant holds in every reachable state *)

(** From a run of a method and its [wp], what holds of the result. *)
Lemma wp_run {A} (m : M A) c a c' Q QB QP :
  wp m c Q QB QP → m c = Ok a c' → Q a c'.
Proof. unfold wp. intros H Heq. by rewrite Heq in H. Qed.

Lemma step_good n s s' :
  SysInv n s → step s s' →
  SysInv (S n) s' ∧ stable (client s) (client s').
Proof.
  intros [HG HS] Hstep. destruct Hstep; unfold SysInv; simpl in *.
  - (* make_chan *)
    unfold make_chan in *. simplify_eq. split; [| by split].
    split; [| done]. apply Good_later. by eapply Good_same; [.. | exact HG].
  - (* Go *)
    destruct (wp_run _ _ _ _ _ _ _ (Go_good _ n _ sm args reply d HG) H0)
      as [HG' Hst].
    split; [| done]. split; [done |]. intros Hr. split; [done |].
    apply Hst. by apply HS.
  - (* Go, Write fails *)
    destruct (wp_run _ _ _ _ _ _ _ (Go_begin_good _ n _ sm args reply d HG) H0)
      as (HG' & Hst & Hr).
    split; [| done]. split; [done |]. intros Hrx.
    destruct (HS Hrx) as [_ Hsh]. by specialize (Hr Hsh).
  - (* the rest of a failed send *)
    assert (Good true n (client s) ∧ live (rx s) = true) as [HG1 Hl].
    { destruct (rx s); try done. destruct HS as [? _]; [done | congruence]. }
    destruct (wp_run _ _ _ _ _ _ _ (send_failed_good n _ sq e HG1) H0)
      as [HG' Hst].
    split; [| done]. split.
    + rewrite Hl. by apply Good_later.
    + intros Hrx. rewrite Hrx in Hl. done.
  - (* receive *)
    rewrite H in HG. simpl in HG.
    assert (wp (log ReadHeader;;; receive_frame h b) (client s)
              (λ _ c', Good true n c' ∧ stable (client s) c')
              (λ _, True) True) as Hwp.
    { apply wp_bind, wp_log.
      eapply wp_mono; [apply (receive_frame_good n) | | done | done].
      - by eapply Good_same; [.. | exact HG].
      - intros a c1 [? ?]. split; [done |].
        eapply stable_trans; [| done]. by split. }
    destruct (wp_run _ _ _ _ _ _ _ Hwp H0) as [HG' Hst].
    split; [| done]. split.
    + apply Good_later. by destruct err.
    + by destruct err.
  - (* ReadHeader fails *)
    unfold log, modify in *. simplify_eq. split; [| by split].
    split; [| done]. rewrite H in HG. apply Good_later.
    by eapply Good_same; [.. | exact HG].
  - (* terminateCalls *)
    rewrite H in HG. simpl in HG.
    destruct (wp_run _ _ _ _ _ _ _ (terminateCalls_good n e _ HG) H1)
      as (HG' & Hst & Hsh).
    split; [| done]. split; [by apply Good_later | done].
  - (* removeCall *)
    unfold removeCall in *. simplify_eq. split; [| by split].
    split; [by apply Good_later, Good_delete | done].
  - (* Close *)
    unfold Close, bind, log, modify, ret in *.
    destruct (closing (client s)) eqn:Hc; simplify_eq.
    + split; [| by split]. split; [by apply Good_later | done].
    + split; [| split; simpl; done]. split; [| done].
      apply Good_later. by eapply Good_same; [.. | exact HG].
  - (* a receive from a channel *)
    unfold chan_recv in *.
    destruct (chans (client s) !! ch) as [[k [| q rest]] |]; simplify_eq.
    split; [| by split]. split; [| done].
    apply Good_later. by eapply Good_same; [.. | exact HG].
Qed.

Lemma initial_good : SysInv 0 initial.
Proof.
  split; [| done]. split; [split |]; simpl; try done.
  - apply NoDup_nil_2.
  - intros p Hp. by apply elem_of_nil in Hp.
Qed.

Lemma reach_good n s : reach n s → SysInv n s.
Proof.
  induction 1 as [| n s s' _ IH Hstep]; [apply initial_good |].
  by destruct (step_good n s s' IH Hstep).
Qed.

(** The states reached from [s] in any number of moves. *)
Lemma reach_rtc n s s' : reach n s → rtc step s s' → ∃ m, reach m s'.
Proof.
  intros Hr Hs. revert n Hr. induction Hs as [| s1 s2 s3 H12 _ IH]; intros n Hr.
  - eauto.
  - eapply IH. by eapply reach_step.
Qed.

Lemma closing_forever n s s' :
  reach n s → rtc step s s' → stable (client s) (client s').
Proof.
  intros Hr Hs. revert n Hr. induction Hs as [| s1 s2 s3 H12 _ IH]; intros n Hr.
  - by split.
  - destruct (step_good n s1 s2 (reach_good _ _ Hr) H12) as [_ Hst].
    eapply stable_trans; [done |]. eapply IH. by eapply reach_step.
Qed.

(** *** [Close] and [IsAvailable] *)

(** C8.  On a client that is not closing, [Close] sets [closing], closes
    the codec and returns what the codec returned; from then on, whatever
    the goroutines do in between, every [Close] returns [ErrShutdown],
    changes nothing and does not panic; on a closing client [Close]
    returns [ErrShutdown]; and [IsAvailable] is true exactly when neither
    [closing] nor [shutdown] is set. *)
Theorem Close_idempotent_safe (n : nat) (s : System) (closed : option error) :
  reach n s →
  let c := client s in
  (closing c = false →
     ∃ c1, Close closed c = Ok closed c1 ∧ closing c1 = true ∧
       cc c1 = cc c ++ [CloseCodec] ∧
       ∀ s2, rtc step (mkSystem c1 (sending s) (rx s)) s2 →
         ∀ closed', Close closed' (client s2)
                    = Ok (Some ErrShutdown) (client s2)) ∧
  (closing c = true → Close closed c = Ok (Some ErrShutdown) c) ∧
  (IsAvailable c = true ↔ closing c = false ∧ shutdown c = false).
Proof.
  intros Hr c. split; [| split].
  - intros Hc. eexists. unfold Close. rewrite Hc.
    split; [reflexivity |]. split; [done |]. split; [done |].
    intros s2 Hs2 closed'.
    assert (reach (S n) (mkSystem (set_cc (λ l, l ++ [CloseCodec])
                                    (set_closing true c)) (sending s) (rx s))) as Hr1.
    { eapply reach_step; [exact Hr |]. eapply (step_Close _ closed).
      unfold Close. fold c. by rewrite Hc. }
    destruct (closing_forever _ _ _ Hr1 Hs2) as [_ Hcl]. simpl in Hcl.
    by rewrite Hcl.
  - intros Hc. unfold Close. by rewrite Hc.
  - unfold IsAvailable. rewrite andb_true_iff, !negb_true_iff. tauto.
Qed.

Lemma Close_idempotent_safe_witness :
  reach 0 initial ∧
  ∃ c1, Close None NewClientCodec = Ok None c1 ∧
        Close None c1 = Ok (Some ErrShutdown) c1 ∧
        IsAvailable NewClientCodec = true ∧ IsAvailable c1 = false.
Proof.
  split; [apply reach_initial |].
  destruct (Close_idempotent_safe 0 initial None reach_initial) as (H & _ & _).
  destruct (H eq_refl) as (c1 & H1 & Hc1 & _ & H2).
  exists c1. split; [exact H1 |]. split; [exact (H2 _ (rtc_refl _ _) None) |].
  split; [reflexivity |]. unfold IsAvailable. rewrite Hc1.
  apply andb_false_r.
Defined.

(** *** [Go] *)

Lemma lookup_snoc {A} (l : list A) (x : A) : (l ++ [x]) !! length l = Some x.
Proof. by rewrite lookup_app_r, Nat.sub_diag by lia. Qed.

Lemma bind_Ok {A B} (m : M A) (k : A → M B) c a c1 :
  m c = Ok a c1 → bind m k c = k a c1.
Proof. unfold bind. by intros ->. Qed.

Lemma bind_assoc {A B C} (m : M A) (k1 : A → M B) (k2 : B → M C) c :
  bind (bind m k1) k2 c = bind m (λ a, bind (k1 a) k2) c.
Proof. unfold bind. by destruct (m c). Qed.

Lemma bind_ret {A B} (a : A) (k : A → M B) c : bind (ret a) k c = k a c.
Proof. done. Qed.

Lemma bind_modify {B} f (k : unit → M B) c : bind (modify f) k c = k tt (f c).
Proof. done. Qed.

Lemma bind_log {B} op (k : unit → M B) c :
  bind (log op) k c = k tt (set_cc (λ l, l ++ [op]) c).
Proof. done. Qed.

Lemma bind_removeCall {B} s (k : option nat → M B) c :
  bind (removeCall s) k c = k (pending c !! s) (set_pending (delete s) c).
Proof. done. Qed.

Lemma bind_make_chan {B} n (k : nat → M B) c :
  bind (make_chan n) k c
  = k (length (chans c)) (set_chans (λ l, l ++ [mkChan n []]) c).
Proof. done. Qed.

Lemma bind_new_call {B} x (k : nat → M B) c :
  bind (new_call x) k c = k (length (calls c)) (set_calls (λ l, l ++ [x]) c).
Proof. done. Qed.

(** Run the actions at the head of the computation in the goal that
    always return. *)
Ltac msimpl :=
  repeat (first [ rewrite bind_assoc | rewrite bind_ret | rewrite bind_modify
                | rewrite bind_log | rewrite bind_removeCall
                | rewrite bind_make_chan | rewrite bind_new_call ];
          cbv beta iota).

Lemma load_call_Ok p x c : calls c !! p = Some x → load_call p c = Ok x c.
Proof. unfold load_call. by intros ->. Qed.

Lemma update_call_Ok p f x c :
  calls c !! p = Some x →
  update_call p f c = Ok tt (set_calls (<[p := f x]>) c).
Proof.
  intros H. unfold update_call.
  by rewrite (bind_Ok _ _ _ _ _ (load_call_Ok _ _ _ H)).
Qed.

Lemma done_Ok p x ch c :
  calls c !! p = Some x → chans c !! Done x = Some ch →
  (length (buf ch) < cap ch)%nat →
  done p c = Ok tt (set_completions (λ l, l ++ [p])
                      (set_chans (<[Done x := mkChan (cap ch) (buf ch ++ [p])]>) c)).
Proof.
  intros H Hch Hroom. unfold done.
  rewrite (bind_Ok _ _ _ _ _ (load_call_Ok _ _ _ H)).
  rewrite Hch. by rewrite decide_True.
Qed.

Lemma registerCall_Ok p x c :
  closing c = false → shutdown c = false → calls c !! p = Some x →
  registerCall p c =
    Ok (seq c, None)
       (set_seq (wrap_uint64 (seq c + 1))
          (set_pending (<[seq c := p]>)
             (set_calls (<[p := set_Seq (seq c) x]>) c))).
Proof.
  intros Hc Hs H. unfold registerCall. rewrite Hc, Hs. simpl.
  by rewrite (bind_Ok _ _ _ _ _ (update_call_Ok _ _ _ _ H)).
Qed.

(** [send] on a call whose channel is empty and buffered returns. *)
Lemma send_returns p x k written c :
  calls c !! p = Some x → chans c !! Done x = Some k →
  buf k = [] → (0 < cap k)%nat →
  wp (send p written) c
    (λ _ c', (∃ x', calls c' !! p = Some x' ∧ Done x' = Done x) ∧
             (∃ k', chans c' !! Done x = Some k' ∧ cap k' = cap k) ∧
             length (chans c') = length (chans c))
    (λ _, False) False.
Proof.
  intros Hx Hk Hbuf Hcap.
  assert (p < length (calls c))%nat as Hlt by (by eapply lookup_lt_Some).
  assert (Done x < length (chans c))%nat as Hltk by (by eapply lookup_lt_Some).
  assert (∀ c1 y, calls c1 !! p = Some y → Done y = Done x →
            chans c1 = chans c →
            wp (done p) c1
              (λ _ c', (∃ x', calls c' !! p = Some x' ∧ Done x' = Done x) ∧
                       (∃ k', chans c' !! Done x = Some k' ∧ cap k' = cap k) ∧
                       length (chans c') = length (chans c))
              (λ _, False) False) as Hfin.
  { intros c1 y Hy HD Hch. apply wp_done; simpl.
    - intros z ch Hz Hch' Hroom. simplify_eq.
      rewrite HD, Hch in *. simplify_eq.
      split; [| split].
      + eauto.
      + eexists. split; [apply list_lookup_insert_eq; lia | done].
      + by rewrite length_insert.
    - intros z Hz Hfull. simplify_eq.
      rewrite HD, Hch in Hfull. specialize (Hfull _ Hk). rewrite Hbuf in Hfull.
      simpl in Hfull. lia.
    - congruence. }
  unfold send, send_begin. apply wp_bind, wp_bind, wp_registerCall.
  - intros Hcl. apply wp_bind, wp_update_call; [| congruence].
    intros y Hy. simplify_eq. apply wp_bind.
    eapply wp_mono; [eapply Hfin | | done | done]; simpl.
    + apply list_lookup_insert_eq. lia.
    + done.
    + done.
    + intros [] c' H. by apply wp_ret, wp_ret.
  - intros y Hcl Hy. simplify_eq.
    apply wp_bind, wp_load_call; simpl.
    + intros z Hz. rewrite list_lookup_insert_eq in Hz by lia. simplify_eq.
      apply wp_bind, wp_modify, wp_bind, wp_log, wp_ret.
      destruct written as [e |].
      * unfold send_failed. apply wp_bind, wp_removeCall. simpl.
        rewrite lookup_insert_eq.
        apply wp_bind, wp_update_call; simpl.
        -- intros w Hw. rewrite list_lookup_insert_eq in Hw by lia. simplify_eq.
           eapply wp_mono; [eapply Hfin | | done | done]; simpl.
           ++ apply list_lookup_insert_eq. rewrite length_insert. lia.
           ++ done.
           ++ done.
           ++ intros [] c' H. exact H.
        -- rewrite list_lookup_insert_eq by lia. done.
      * apply wp_ret. simpl. split; [| split; [| done]].
        -- eexists. split; [apply list_lookup_insert_eq; lia | done].
        -- eauto.
    + rewrite list_lookup_insert_eq by lia. done.
  - congruence.
Qed.

(** [send] does not panic on a call that exists. *)
Lemma send_no_panic p x written c :
  calls c !! p = Some x →
  wp (send p written) c (λ _ _, True) (λ _, True) False.
Proof.
  intros Hx.
  assert (p < length (calls c))%nat as Hlt by (by eapply lookup_lt_Some).
  unfold send, send_begin. apply wp_bind, wp_bind, wp_registerCall.
  - intros _. apply wp_bind, wp_update_call; [| congruence]. intros y Hy.
    apply wp_bind, wp_done; simpl; [| done |].
    + intros. by apply wp_ret, wp_ret.
    + rewrite list_lookup_insert_eq by lia. done.
  - intros y _ Hy. apply wp_bind, wp_load_call; simpl.
    + intros z Hz. apply wp_bind, wp_modify, wp_bind, wp_log, wp_ret.
      destruct written as [e |]; [| by apply wp_ret].
      unfold send_failed. apply wp_bind, wp_removeCall. simpl.
      rewrite lookup_insert_eq.
      apply wp_bind, wp_update_call; simpl.
      * intros w Hw. apply wp_done; simpl; [done | done |].
        rewrite list_lookup_insert_eq; [done |]. rewrite length_insert. lia.
      * rewrite list_lookup_insert_eq by lia. done.
    + rewrite list_lookup_insert_eq by lia. done.
  - congruence.
Qed.

(** [registerCall] on a client that is closing or shut down. *)
Lemma registerCall_refused p c :
  closing c || shutdown c = true →
  registerCall p c = Ok (0, Some ErrShutdown) c.
Proof. intros H. unfold registerCall. by rewrite H. Qed.

(** [Go] with a nil [done] on a client that is closing or shut down: the
    state it leaves. *)
Lemma Go_refused (serviceMethod args reply : string) (written : option error)
    (c : Client) :
  closing c || shutdown c = true →
  ∃ c', Go serviceMethod args reply None written c = Ok (length (calls c)) c' ∧
    cc c' = cc c ∧ pending c' = pending c ∧ seq c' = seq c ∧
    completions c' = completions c ++ [length (calls c)] ∧
    calls c' = calls c ++ [mkCall 0 serviceMethod args reply
                             (Some ErrShutdown) (length (chans c))] ∧
    chans c' = chans c ++ [mkChan 10 [length (calls c)]].
Proof.
  intros Hcl. unfold Go, Go_chan. msimpl.
  set (p := length (calls c)).
  set (x := mkCall 0 serviceMethod args reply None (length (chans c))).
  set (c2 := set_calls (λ l, l ++ [x]) (set_chans (λ l, l ++ [mkChan 10 []]) c)).
  assert (calls c2 !! p = Some x) as Hx by apply lookup_snoc.
  unfold send, send_begin. msimpl.
  erewrite bind_Ok; [| by apply registerCall_refused].
  cbv beta iota. msimpl.
  erewrite bind_Ok; [| by apply (update_call_Ok p _ x)].
  msimpl. erewrite bind_Ok; cycle 1.
  { eapply (done_Ok p (set_Error ErrShutdown x) (mkChan 10 [])); simpl.
    - apply list_lookup_insert_eq. by eapply lookup_lt_Some.
    - apply lookup_snoc.
    - lia. }
  msimpl. eexists. split; [reflexivity |]. simpl.
  do 4 (split; [done |]). split.
  - subst p x. rewrite insert_app_r_alt by done. by rewrite Nat.sub_diag.
  - rewrite insert_app_r_alt by done. by rewrite Nat.sub_diag.
Qed.

(** [Go] with a nil [done] on an open client whose [cc.Write] succeeds:
    the state it leaves. *)
Lemma Go_registers (c : Client) (serviceMethod args reply : string) :
  closing c = false → shutdown c = false →
  ∃ c', Go serviceMethod args reply None None c = Ok (length (calls c)) c' ∧
    pending c' = <[seq c := length (calls c)]> (pending c) ∧
    seq c' = wrap_uint64 (seq c + 1) ∧
    cc c' = cc c ++ [Write (mkHeader serviceMethod (seq c) "") args] ∧
    header c' = mkHeader serviceMethod (seq c) "" ∧
    completions c' = completions c ∧
    calls c' = calls c ++ [mkCall (seq c) serviceMethod args reply None
                             (length (chans c))] ∧
    chans c' = chans c ++ [mkChan 10 []].
Proof.
  intros Hc Hs. unfold Go, Go_chan. msimpl.
  set (p := length (calls c)).
  set (x := mkCall 0 serviceMethod args reply None (length (chans c))).
  set (c2 := set_calls (λ l, l ++ [x]) (set_chans (λ l, l ++ [mkChan 10 []]) c)).
  assert (calls c2 !! p = Some x) as Hx by apply lookup_snoc.
  unfold send, send_begin. msimpl.
  erewrite bind_Ok; [| by apply (registerCall_Ok p x c2)].
  cbv beta iota. msimpl. erewrite bind_Ok; cycle 1.
  { apply load_call_Ok. simpl. apply list_lookup_insert_eq.
    by eapply lookup_lt_Some. }
  msimpl. eexists. split; [reflexivity |]. simpl.
  do 5 (split; [done |]). split; [| done].
  subst p x. rewrite insert_app_r_alt by done. by rewrite Nat.sub_diag.
Qed.

(** [Go] with a nil [done] on an open client whose [cc.Write] fails with
    [e]: the state it leaves. *)
Lemma Go_write_failed (serviceMethod args reply : string) (e : error)
    (c : Client) :
  closing c = false → shutdown c = false →
  ∃ c', Go serviceMethod args reply None (Some e) c = Ok (length (calls c)) c' ∧
    pending c' = delete (seq c) (pending c) ∧
    seq c' = wrap_uint64 (seq c + 1) ∧
    cc c' = cc c ++ [Write (mkHeader serviceMethod (seq c) "") args] ∧
    completions c' = completions c ++ [length (calls c)] ∧
    calls c' = calls c ++ [mkCall (seq c) serviceMethod args reply (Some e)
                             (length (chans c))] ∧
    chans c' = chans c ++ [mkChan 10 [length (calls c)]].
Proof.
  intros Hc Hs. unfold Go, Go_chan. msimpl.
  set (p := length (calls c)).
  set (x := mkCall 0 serviceMethod args reply None (length (chans c))).
  set (c2 := set_calls (λ l, l ++ [x]) (set_chans (λ l, l ++ [mkChan 10 []]) c)).
  assert (calls c2 !! p = Some x) as Hx by apply lookup_snoc.
  assert (p < length (calls c2))%nat as Hlt by (by eapply lookup_lt_Some).
  unfold send, send_begin. msimpl.
  erewrite bind_Ok; [| by apply (registerCall_Ok p x c2)].
  cbv beta iota. msimpl. erewrite bind_Ok; cycle 1.
  { apply load_call_Ok. simpl. by apply list_lookup_insert_eq. }
  msimpl. unfold send_failed. msimpl. simpl pending at 1.
  rewrite lookup_insert_eq. cbv beta iota. msimpl.
  erewrite bind_Ok; cycle 1.
  { apply update_call_Ok. simpl. by apply list_lookup_insert_eq. }
  msimpl. erewrite bind_Ok; cycle 1.
  { eapply (done_Ok p _ (mkChan 10 [])); simpl.
    - apply list_lookup_insert_eq. by rewrite length_insert.
    - apply lookup_snoc.
    - lia. }
  msimpl. eexists. split; [reflexivity |]. simpl.
  split; [by rewrite delete_insert_eq |]. do 3 (split; [done |]). split.
  - rewrite list_insert_insert_eq.
    subst p x. rewrite insert_app_r_alt by done. by rewrite Nat.sub_diag.
  - rewrite insert_app_r_alt by done. by rewrite Nat.sub_diag.
Qed.

(** C10.  [Go] with a nil [done] makes a new channel of capacity 10, makes
    the call with that channel as its [Done], runs [send] on it and
    returns it, without panicking or waiting.  What [send] has done by
    then: on a client that is closing or shut down the call is completed
    with [ErrShutdown], unregistered and unwritten; on an open client the
    call has the counter's value as its sequence number, the counter has
    advanced and the request has been handed to the codec, and the call is
    pending and not completed when [cc.Write] succeeded, and completed
    with the error of the write and no longer pending when it failed.
    With a channel of the caller's [Go] panics, with the
    unbuffered-channel message, exactly when the capacity of that channel
    is 0. *)
Theorem Go_nil_done (serviceMethod args reply : string)
    (written : option error) (c : Client) :
  let ch := length (chans c) in
  let p := length (calls c) in
  let c2 := set_calls (λ l, l ++ [mkCall 0 serviceMethod args reply None ch])
              (set_chans (λ l, l ++ [mkChan 10 []]) c) in
  (Go serviceMethod args reply None written c = (send p written ;;; ret p) c2 ∧
   ∃ c', Go serviceMethod args reply None written c = Ok p c' ∧
     chans c !! ch = None ∧
     (∃ k, chans c' !! ch = Some k ∧ cap k = 10%nat) ∧
     (∃ x, calls c' !! p = Some x ∧ Done x = ch)) ∧
  (closing c || shutdown c = true →
     ∃ c', Go serviceMethod args reply None written c = Ok p c' ∧
       cc c' = cc c ∧ pending c' = pending c ∧ seq c' = seq c ∧
       completions c' = completions c ++ [p] ∧
       calls c' = calls c ++
                  [mkCall 0 serviceMethod args reply (Some ErrShutdown) ch] ∧
       chans c' = chans c ++ [mkChan 10 [p]]) ∧
  (closing c = false → shutdown c = false →
     ∃ c', Go serviceMethod args reply None written c = Ok p c' ∧
       seq c' = wrap_uint64 (seq c + 1) ∧
       cc c' = cc c ++ [Write (mkHeader serviceMethod (seq c) "") args] ∧
       match written with
       | None =>
           pending c' = <[seq c := p]> (pending c) ∧
           completions c' = completions c ∧
           calls c' = calls c ++ [mkCall (seq c) serviceMethod args reply None ch] ∧
           chans c' = chans c ++ [mkChan 10 []]
       | Some e =>
           pending c' = delete (seq c) (pending c) ∧
           completions c' = completions c ++ [p] ∧
           calls c' = calls c ++
                      [mkCall (seq c) serviceMethod args reply (Some e) ch] ∧
           chans c' = chans c ++ [mkChan 10 [p]]
       end) ∧
  (∀ d k, chans c !! d = Some k →
     (cap k = 0%nat →
        Go serviceMethod args reply (Some d) written c = Panicked unbuffered) ∧
     (cap k ≠ 0%nat →
        ∀ msg, Go serviceMethod args reply (Some d) written c ≠ Panicked msg)).
Proof.
  intros ch p c2. split; [split; [done |] | split; [| split]].
  - assert (wp (send p written) c2
              (λ _ c', (∃ x', calls c' !! p = Some x' ∧ Done x' = ch) ∧
                       (∃ k', chans c' !! ch = Some k' ∧ cap k' = 10%nat) ∧
                       length (chans c') = length (chans c2))
              (λ _, False) False) as Hs.
    { eapply (send_returns p (mkCall 0 serviceMethod args reply None ch)
                (mkChan 10 [])); simpl; [apply lookup_snoc .. | done | lia]. }
    apply wp_Ok in Hs as ([] & c' & Hs & Hx & Hk & _).
    exists c'. split; [| split; [| done]].
    + change (Go serviceMethod args reply None written c)
        with ((send p written ;;; ret p) c2).
      by rewrite (bind_Ok _ _ _ _ _ Hs).
    + apply lookup_ge_None_2. lia.
  - intros Hcl. by apply Go_refused.
  - intros Hc Hs. destruct written as [e |].
    + destruct (Go_write_failed serviceMethod args reply e c Hc Hs)
        as (c' & HGo & Hp & Hsq & Hcc & Hco & Hcalls & Hch).
      by exists c'.
    + destruct (Go_registers c serviceMethod args reply Hc Hs)
        as (c' & HGo & Hp & Hsq & Hcc & _ & Hco & Hcalls & Hch).
      by exists c'.
  - intros d k Hk. split.
    + intros Hcap. unfold Go, Go_chan, bind. by rewrite Hk, decide_True.
    + intros Hcap msg.
      assert (wp (Go serviceMethod args reply (Some d) written) c
                (λ _ _, True) (λ _, True) False) as Hwp.
      { unfold Go. apply wp_bind. unfold wp at 1, Go_chan.
        rewrite Hk, decide_False by done.
        apply wp_bind, wp_new_call, wp_bind.
        eapply wp_mono; [eapply send_no_panic | | done | done].
        - simpl. apply lookup_snoc.
        - intros. by apply wp_ret. }
      unfold wp in Hwp. intros Heq. by rewrite Heq in Hwp.
Qed.

Lemma Go_nil_done_witness :
  (∃ c', Go "Foo.Sum" "3,4" "" None None NewClientCodec = Ok 0%nat c' ∧
         (∃ k, chans c' !! 0%nat = Some k ∧ cap k = 10%nat) ∧
         pending c' = {[ 1 := 0%nat ]} ∧ seq c' = 2 ∧
         cc c' = [Write (mkHeader "Foo.Sum" 1 "") "3,4"] ∧
         calls c' = [mkCall 1 "Foo.Sum" "3,4" "" None 0]) ∧
  (∃ c', Go "Foo.Sum" "3,4" "" None None one_call_terminated = Ok 1%nat c' ∧
         cc c' = cc one_call_terminated ∧
         calls c' !! 1%nat
           = Some (mkCall 0 "Foo.Sum" "3,4" "" (Some ErrShutdown) 1)) ∧
  Go "Foo.Sum" "3,4" "" (Some 0%nat) None unbuffered_channel
    = Panicked unbuffered.
Proof.
  split; [| split].
  - destruct (Go_nil_done "Foo.Sum" "3,4" "" None NewClientCodec)
      as ((_ & c1 & HGo1 & _ & Hk & _) & _ & Hopen & _).
    destruct (Hopen eq_refl eq_refl)
      as (c' & HGo & Hsq & Hcc & Hp & _ & Hcalls & _).
    exists c'. split; [exact HGo |]. split.
    + rewrite HGo in HGo1. injection HGo1 as ->. exact Hk.
    + split; [rewrite Hp; reflexivity |]. split; [rewrite Hsq; reflexivity |].
      split; [exact Hcc | exact Hcalls].
  - destruct (Go_nil_done "Foo.Sum" "3,4" "" None one_call_terminated)
      as (_ & Hshut & _).
    destruct (Hshut eq_refl) as (c' & HGo & Hcc & _ & _ & _ & Hcalls & _).
    exists c'. split; [exact HGo |]. split; [exact Hcc |].
    rewrite Hcalls. reflexivity.
  - destruct (Go_nil_done "Foo.Sum" "3,4" "" None unbuffered_channel)
      as (_ & _ & _ & H).
    destruct (H 0%nat (mkChan 0 []) eq_refl) as [Hp _]. exact (Hp eq_refl).
Defined.

(** *** [receive] *)

Lemma receive_frame_unknown c h b :
  pending c !! h_Seq h = None →
  receive_frame h b c =
    Ok (body_error b)
       (set_cc (λ l, l ++ [ReadBody None]) (set_pending (delete (h_Seq h)) c)) ∧
  delete (h_Seq h) (pending c) = pending c.
Proof.
  intros Hp. split; [| by apply delete_id].
  unfold receive_frame, bind, removeCall. by rewrite Hp.
Qed.

Lemma receive_frame_error c h b p x k :
  pending c !! h_Seq h = Some p → calls c !! p = Some x →
  chans c !! Done x = Some k → (length (buf k) < cap k)%nat →
  h_Error h ≠ "" →
  receive_frame h b c =
    Ok (body_error b)
       (set_completions (λ l, l ++ [p])
          (set_chans (<[Done x := mkChan (cap k) (buf k ++ [p])]>)
             (set_cc (λ l, l ++ [ReadBody None])
                (set_calls (<[p := set_Error (fmt_Errorf (h_Error h)) x]>)
                   (set_pending (delete (h_Seq h)) c))))).
Proof.
  intros Hp Hx Hk Hroom He.
  assert (p < length (calls c))%nat as Hlt by (by eapply lookup_lt_Some).
  unfold receive_frame. msimpl.
  rewrite Hp. rewrite decide_True by done.
  erewrite bind_Ok; [| by apply update_call_Ok].
  msimpl. erewrite bind_Ok; cycle 1.
  { eapply done_Ok; simpl; [apply list_lookup_insert_eq; lia | exact Hk | done]. }
  done.
Qed.

(** A failed drain ends the loop: the second frame is never read. *)
Lemma receive_stops_after_failed_drain :
  let h := mkHeader "Foo.Sum" 7 "" in
  pending NewClientCodec !! h_Seq h = None ∧
  ∃ c', receive [Frame h (BodyErr "unexpected EOF"); Frame h (BodyOk "7")]
          NewClientCodec = Ok tt c' ∧
        cc c' = [ReadHeader; ReadBody None] ∧ shutdown c' = true.
Proof. split; [done |]. eexists. split; [reflexivity |]. done. Qed.

(** C7, amended.  When the header's sequence number is not in [pending],
    the turn reads the body into the nil sink and touches nothing else,
    and the loop goes on to the next header if that read succeeded and
    leaves through [terminateCalls] with the read's error if it failed.
    When the entry exists and the header's error string is not empty, the
    turn takes the call out of [pending], sets its error to
    [fmt.Errorf] of the string, reads the body into the nil sink and
    completes the call; the text of that error is the string itself when
    the string has no percent sign. *)
Theorem receive_frame_spec (c : Client) (h : Header) (b : body_result) :
  (pending c !! h_Seq h = None →
     let c0 := set_cc (λ l, l ++ [ReadHeader]) c in
     let c1 := set_cc (λ l, l ++ [ReadBody None])
                 (set_pending (delete (h_Seq h)) c0) in
     receive_frame h b c0 = Ok (body_error b) c1 ∧
     pending c1 = pending c ∧ calls c1 = calls c ∧
     chans c1 = chans c ∧ completions c1 = completions c ∧
     ∀ rest, receive (Frame h b :: rest) c =
               match body_error b with
               | None => receive rest c1
               | Some e => terminateCalls e c1
               end) ∧
  (∀ p x k,
     pending c !! h_Seq h = Some p → calls c !! p = Some x →
     chans c !! Done x = Some k → (length (buf k) < cap k)%nat →
     h_Error h ≠ "" →
     receive_frame h b c =
       Ok (body_error b)
          (set_completions (λ l, l ++ [p])
             (set_chans (<[Done x := mkChan (cap k) (buf k ++ [p])]>)
                (set_cc (λ l, l ++ [ReadBody None])
                   (set_calls (<[p := set_Error (fmt_Errorf (h_Error h)) x]>)
                      (set_pending (delete (h_Seq h)) c))))) ∧
     (has_percent (h_Error h) = false →
        Error_text (fmt_Errorf (h_Error h)) = Some (h_Error h))).
Proof.
  split.
  - intros Hp c0 c1.
    destruct (receive_frame_unknown c0 h b Hp) as [Hrf Hdel].
    split; [done |]. split; [exact Hdel |]. do 3 (split; [done |]).
    intros rest. simpl. msimpl.
    fold c0. rewrite (bind_Ok _ _ _ _ _ Hrf). by destruct b.
  - intros p x k Hp Hx Hk Hroom He.
    split; [by apply receive_frame_error |]. apply Sprintf0_no_percent.
Qed.

(** The text a caller sees when the error string has a percent sign. *)
Lemma receive_error_with_percent :
  Error_text (fmt_Errorf "disk 100% full") = Some "disk 100%!f(MISSING)ull".
Proof. reflexivity. Qed.

(** *** [Call] *)

(** Until the call has completed, [Call] can make no move, whatever the
    state of the context. *)
Lemma Call_waits ctx c p x k :
  calls c !! p = Some x → chans c !! Done x = Some k → buf k = [] →
  Call_step ctx (AfterGo p) c = [].
Proof.
  intros Hx Hk Hb. unfold Call_step, chan_recv. rewrite Hx, Hk.
  destruct k as [n l]. simpl in Hb. by subst.
Qed.

(** Once at the [select], with the channel drained by the first receive,
    only the context can let [Call] return. *)
Lemma Call_select_needs_context c p x k :
  calls c !! p = Some x → chans c !! Done x = Some k → buf k = [] →
  Call_step None (AtSelect p) c = [].
Proof.
  intros Hx Hk Hb. unfold Call_step, chan_recv. rewrite Hx, Hk.
  destruct k as [n l]. simpl in Hb. by subst.
Qed.

(** C2, as the code has it.  On an open client [Call] registers the call
    and then stands in the receive from [Done] that follows [Go]: while the
    call has not completed it makes no move, even with the context
    cancelled, and the call stays in [pending]. *)
Theorem Call_cancelled_before_completion_waits (ctx : context)
    (serviceMethod args reply : string) (c : Client) :
  closing c = false → shutdown c = false →
  ∃ c1, Call_begin serviceMethod args reply None c
          = Ok (AfterGo (length (calls c))) c1 ∧
        pending c1 !! seq c = Some (length (calls c)) ∧
        Call_step ctx (AfterGo (length (calls c))) c1 = [].
Proof.
  intros Hc Hs. unfold Call_begin. msimpl.
  set (c0 := set_chans (λ l, l ++ [mkChan 1 []]) c).
  set (p := length (calls c)).
  set (x := mkCall 0 serviceMethod args reply None (length (chans c))).
  set (c2 := set_calls (λ l, l ++ [x]) c0).
  assert (calls c2 !! p = Some x) as Hx by apply lookup_snoc.
  assert (Go serviceMethod args reply (Some (length (chans c))) None c0 =
          Ok p (set_cc (λ l, l ++ [Write (mkHeader serviceMethod (seq c) "") args])
                  (set_header (mkHeader serviceMethod (seq c) "")
                     (set_seq (wrap_uint64 (seq c + 1))
                        (set_pending (<[seq c := p]>)
                           (set_calls (<[p := set_Seq (seq c) x]>) c2)))))) as HGo.
  { unfold Go. erewrite bind_Ok; cycle 1.
    { unfold Go_chan. simpl. rewrite lookup_snoc. simpl. reflexivity. }
    msimpl. fold p x c2.
    unfold send, send_begin. msimpl.
    erewrite bind_Ok; [| by apply (registerCall_Ok p x c2)].
    cbv beta iota. msimpl. erewrite bind_Ok; cycle 1.
    { apply load_call_Ok. simpl. apply list_lookup_insert_eq.
      by eapply lookup_lt_Some. }
    reflexivity. }
  rewrite (bind_Ok _ _ _ _ _ HGo). eexists. split; [reflexivity |].
  split; [simpl; apply lookup_insert_eq |].
  eapply (Call_waits _ _ _ (set_Seq (seq c) x) (mkChan 1 [])); simpl.
  - apply list_lookup_insert_eq. by eapply lookup_lt_Some.
  - apply lookup_snoc.
  - done.
Qed.

Lemma Call_cancelled_before_completion_waits_witness :
  closing NewClientCodec = false ∧ shutdown NewClientCodec = false ∧
  ∃ c1, Call_begin "Foo.Sleep" "5" "" None NewClientCodec = Ok (AfterGo 0%nat) c1 ∧
        pending c1 !! 1 = Some 0%nat ∧
        Call_step (Some "context deadline exceeded") (AfterGo 0%nat) c1 = [].
Proof.
  split; [reflexivity |]. split; [reflexivity |].
  exact (Call_cancelled_before_completion_waits
           (Some "context deadline exceeded") "Foo.Sleep" "5" ""
           NewClientCodec eq_refl eq_refl).
Defined.

(** *** The methods as runs of the system *)

(** [Go] is [Go_begin] followed, when [cc.Write] failed, by the rest of
    [send]. *)
Lemma Go_split sm args reply d written c :
  Go sm args reply d written c =
    match Go_begin sm args reply d c with
    | Ok (p, Some sq) c1 =>
        match written with
        | Some e => (send_failed sq e ;;; ret p) c1
        | None => Ok p c1
        end
    | Ok (p, None) c1 => Ok p c1
    | Blocked c1 => Blocked c1
    | Panicked msg => Panicked msg
    end.
Proof.
  unfold Go, Go_begin, send, bind.
  destruct (Go_chan d c) as [ch c0 | |]; [| done | done].
  destruct (new_call _ c0) as [p c1 | |]; [| done | done].
  destruct (send_begin p c1) as [[sq |] c2 | |]; try done.
  by destruct written.
Qed.

(** A call of [Go] is one move of the system, or two when [cc.Write]
    fails. *)
Lemma Go_is_a_run sm args reply d written (s : System) p c' :
  sending s = None →
  Go sm args reply d written (client s) = Ok p c' →
  rtc step s (mkSystem c' None (rx s)).
Proof.
  intros Hs HGo. rewrite Go_split in HGo.
  destruct (Go_begin sm args reply d (client s)) as [[q [sq |]] c1 | |] eqn:Hb;
    [| | done | done].
  - destruct written as [e |].
    + unfold bind in HGo.
      destruct (send_failed sq e c1) as [[] c2 | |] eqn:Hf; [| done | done].
      unfold ret in HGo. simplify_eq.
      eapply rtc_l; [by eapply (step_Go_write_error s sm args reply d p sq e) |].
      eapply rtc_once.
      by eapply (step_send_failed (mkSystem c1 (Some (sq, e)) (rx s)) sq e).
    + simplify_eq. apply rtc_once.
      eapply (step_Go s sm args reply d p); [done |].
      rewrite Go_split, Hb. done.
  - simplify_eq. apply rtc_once.
    eapply (step_Go s sm args reply d p); [done |].
    rewrite Go_split, Hb. done.
Qed.

(** [receive] on a stream that ends in an error is a run of the system
    that ends with the receiver stopped. *)
Lemma receive_is_a_run ins (s : System) c' :
  rx s = Receiving → sending s = None →
  receive ins (client s) = Ok tt c' →
  rtc step s (mkSystem c' None Stopped).
Proof.
  revert s. induction ins as [| [h b | m] rest IH]; intros s Hrx Hs Hrec;
    simpl in Hrec.
  - done.
  - rewrite bind_log in Hrec. unfold bind in Hrec.
    destruct (receive_frame h b _) as [err c1 | |] eqn:Hf; [| done | done].
    assert (step s (mkSystem c1 (sending s)
                      (match err with None => Receiving | Some e => Failed e end)))
      as Hstep.
    { eapply (step_receive s h b err); [done |]. rewrite bind_log. exact Hf. }
    eapply rtc_l; [exact Hstep |]. destruct err as [e |].
    + apply rtc_once.
      by eapply (step_terminate (mkSystem c1 (sending s) (Failed e)) e).
    + by apply (IH (mkSystem c1 (sending s) Receiving)).
  - rewrite bind_log in Hrec.
    eapply rtc_l; [by eapply (step_header_error s m tt) |].
    apply rtc_once.
    by eapply (step_terminate (mkSystem _ (sending s) (Failed (io_error m)))
                 (io_error m)).
Qed.

(** After the response has arrived, [Call] moves to the select with the
    channel drained: with a context that is never cancelled it makes no
    further move, and with a cancelled one it returns the cancellation error
    although the call succeeded. *)
Lemma Call_after_the_response :
  Call_step None (AfterGo 0%nat) sum_call_answered
    = [(AtSelect 0%nat, sum_call_at_select)] ∧
  Call_step None (AtSelect 0%nat) sum_call_at_select = [] ∧
  ∃ c', Call_step (Some "context canceled") (AtSelect 0%nat) sum_call_at_select
        = [(Returned (Some (errors_New "rpc client: call failed: context canceled")),
            c')].
Proof.
  split; [vm_compute; reflexivity |]. split; [vm_compute; reflexivity |].
  eexists. vm_compute. reflexivity.
Qed.

(** *** What the methods keep *)

(** The loop gives every call it visits the error and completes it, and
    changes neither the pending map nor the codec. *)
Lemma terminate_each_effect e l c :
  wp (terminate_each e l) c
    (λ _ c', pending c' = pending c ∧ cc c' = cc c ∧
             shutdown c' = shutdown c ∧ closing c' = closing c ∧
             seq c' = seq c ∧
             (∀ p, p ∈ completions c → p ∈ completions c') ∧
             (∀ p x, calls c !! p = Some x → Error x = Some e →
                ∃ x', calls c' !! p = Some x' ∧ Error x' = Some e) ∧
             (∀ p, p ∈ (snd <$> l) →
                p ∈ completions c' ∧
                ∃ x, calls c' !! p = Some x ∧ Error x = Some e))
    (λ _, True) True.
Proof.
  revert c. induction l as [| [s p] l IH]; intros c; simpl.
  - apply wp_ret. do 6 (split; [done |]). split; [by eauto |].
    intros p Hp. by apply elem_of_nil in Hp.
  - apply wp_bind, wp_update_call; [| done]. intros x Hx.
    assert (p < length (calls c))%nat as Hlt by (by eapply lookup_lt_Some).
    apply wp_bind, wp_done; [| done | done]. intros y ch Hy Hch Hroom.
    simpl in Hy. rewrite list_lookup_insert_eq in Hy by done. simplify_eq.
    eapply wp_mono; [apply IH | | done | done].
    intros [] c' (Hp & Hcc & Hsh & Hcl & Hsq & Hco & Her & Hl). simpl in *.
    assert (∀ q z, calls c !! q = Some z → Error z = Some e →
              ∃ z', calls c' !! q = Some z' ∧ Error z' = Some e) as Hkeep.
    { intros q z Hz Hez. destruct (decide (q = p)) as [-> | Hne].
      - apply (Her p (set_Error e x)); [| done].
        by apply list_lookup_insert_eq.
      - apply (Her q z); [| done]. by rewrite list_lookup_insert_ne. }
    do 5 (split; [done |]). split; [| split; [done |]].
    + intros q Hq. apply Hco, elem_of_app. by left.
    + intros q [-> | Hq]%elem_of_cons; [| by apply Hl]. split.
      * apply Hco, elem_of_app. right. by apply list_elem_of_singleton.
      * apply (Her p (set_Error e x)); [| done].
        by apply list_lookup_insert_eq.
Qed.

Lemma terminateCalls_effect e c :
  wp (terminateCalls e) c
    (λ _ c', shutdown c' = true ∧ pending c' = pending c ∧ cc c' = cc c ∧
             ∀ s p, pending c !! s = Some p →
               p ∈ completions c' ∧
               ∃ x, calls c' !! p = Some x ∧ Error x = Some e)
    (λ _, True) True.
Proof.
  unfold terminateCalls. apply wp_bind, wp_modify.
  eapply wp_mono; [apply (terminate_each_effect e) | | done | done].
  intros [] c1 (Hp & Hcc & Hsh & _ & _ & _ & _ & Hl). simpl in *.
  do 3 (split; [done |]). intros s p Hs. apply Hl.
  apply list_elem_of_fmap. exists (s, p).
  split; [done |]. by apply elem_of_map_to_list.
Qed.

Lemma keeps_refl c : keeps c c.
Proof.
  split; [done |]. split; [done |]. split; [done |]. split; [done |].
  intros p x Hx. by exists x.
Qed.

Lemma keeps_trans c1 c2 c3 : keeps c1 c2 → keeps c2 c3 → keeps c1 c3.
Proof.
  intros (Hw1 & Hs1 & Hp1 & Hd1 & Hc1) (Hw2 & Hs2 & Hp2 & Hd2 & Hc2).
  split; [congruence |]. split; [congruence |].
  split; [by etrans |]. split; [by auto |]. intros p x Hx.
  destruct (Hc1 p x Hx) as (x' & Hx' & E1 & E2 & E3).
  destruct (Hc2 p x' Hx') as (x'' & Hx'' & F1 & F2 & F3).
  exists x''. split; [done |]. repeat split; congruence.
Qed.

Lemma keeps_Wire c c' : keeps c c' → Wire c → Wire c'.
Proof.
  intros (Hw & Hs & _ & _ & Hc) [W1 W2 W3 W4]. split; rewrite Hw.
  - intros w Hin. destruct (W1 w Hin) as (p & x & Hx & C1 & C2 & C3 & C4).
    destruct (Hc p x Hx) as (x' & Hx' & E1 & E2 & E3).
    exists p, x'. split; [done |]. unfold carries. repeat split; congruence.
  - intros w Hin. rewrite Hs. by apply W2.
  - done.
  - by rewrite Hs.
Qed.

Lemma writes_snoc l op :
  writes (l ++ [op]) =
  writes l ++ match op with Write h a => [(h, a)] | _ => [] end.
Proof. unfold writes. rewrite omap_app. simpl. by destruct op. Qed.

Lemma keeps_Paired c c' : keeps c c' → Paired c → Paired c'.
Proof.
  intros (_ & _ & Hp & _ & Hc) HP s p Hs.
  assert (pending c !! s = Some p) as Hs' by (by eapply lookup_weaken).
  destruct (HP s p Hs') as [Hlo (x & Hx & Hsx)].
  destruct (Hc p x Hx) as (x' & Hx' & E & _).
  split; [done |]. exists x'. split; [done | congruence].
Qed.


Ltac sub := first [reflexivity | apply delete_subseteq].

(** A state whose completions, requests and counter are those of [c], up
    to one call changed in its error or reply. *)
Lemma keeps_fields c c' :
  completions c' = completions c →
  writes (cc c') = writes (cc c) → seq c' = seq c →
  pending c' ⊆ pending c →
  (calls c' = calls c ∨
   ∃ p x y, calls c !! p = Some x ∧ calls c' = <[p := y]> (calls c) ∧
            Seq y = Seq x ∧ ServiceMethod y = ServiceMethod x ∧
            Args y = Args x) →
  keeps c c'.
Proof.
  intros Hd Hw Hs Hp Hc. split; [done |]. split; [done |]. split; [done |].
  split; [by rewrite Hd |]. intros q z Hz.
  destruct Hc as [-> | (p & x & y & Hx & -> & E1 & E2 & E3)]; [by exists z |].
  destruct (decide (q = p)) as [-> | Hne].
  - exists y. rewrite list_lookup_insert_eq by (by eapply lookup_lt_Some).
    assert (z = x) as -> by congruence. done.
  - exists z. by rewrite list_lookup_insert_ne.
Qed.

Ltac same_fields := intros ?; split; [done | split; done].

Lemma update_call_keeps p f c :
  (∀ x, Seq (f x) = Seq x ∧ ServiceMethod (f x) = ServiceMethod x ∧
        Args (f x) = Args x) →
  wp (update_call p f) c (λ _ c', keeps c c') (λ _, True) True.
Proof.
  intros Hf. apply wp_update_call; [| done]. intros x Hx.
  apply keeps_fields; [done | done | done | sub |]. right. exists p, x, (f x).
  destruct (Hf x) as (? & ? & ?). done.
Qed.

Lemma done_keeps p c :
  wp (done p) c (λ _ c', keeps c c') (λ _, True) True.
Proof.
  apply wp_done; [| done | done]. intros x ch Hx Hch Hroom.
  split; [done |]. split; [done |]. split; [done |]. split.
  - intros q Hq. simpl. apply elem_of_app. by left.
  - intros q z Hz. by exists z.
Qed.

Lemma complete_keeps p f c :
  (∀ x, Seq (f x) = Seq x ∧ ServiceMethod (f x) = ServiceMethod x ∧
        Args (f x) = Args x) →
  wp (update_call p f ;;; done p) c (λ _ c', keeps c c') (λ _, True) True.
Proof.
  intros Hf. apply wp_bind.
  eapply wp_mono; [by apply update_call_keeps | | done | done].
  intros [] c1 H1. eapply wp_mono; [apply done_keeps | | done | done].
  intros [] c2 H2. by eapply keeps_trans.
Qed.

Lemma send_failed_keeps s e c :
  wp (send_failed s e) c (λ _ c', keeps c c') (λ _, True) True.
Proof.
  unfold send_failed. apply wp_bind, wp_removeCall.
  assert (keeps c (set_pending (delete s) c)) as H0
    by (apply keeps_fields; [done | done | done | sub | by left]).
  destruct (pending c !! s) as [p |].
  - eapply wp_mono; [apply complete_keeps; same_fields | | done | done].
    intros [] c' H'. exact (keeps_trans _ _ _ H0 H').
  - by apply wp_ret.
Qed.

Lemma receive_frame_keeps h b c :
  wp (receive_frame h b) c (λ _ c', keeps c c') (λ _, True) True.
Proof.
  unfold receive_frame. apply wp_bind, wp_removeCall.
  assert (keeps c (set_pending (delete (h_Seq h)) c)) as H0
    by (apply keeps_fields; [done | done | done | sub | by left]).
  destruct (pending c !! h_Seq h) as [p |].
  - case_decide.
    + apply wp_bind.
      eapply wp_mono; [apply update_call_keeps; same_fields | | done | done].
      intros [] c1 H1. apply wp_bind, wp_log, wp_bind.
      eapply wp_mono; [apply done_keeps | | done | done].
      intros [] c2 H2. apply wp_ret.
      eapply keeps_trans; [exact H0 |]. eapply keeps_trans; [exact H1 |].
      eapply keeps_trans; [| exact H2].
      apply keeps_fields; [done | | done | sub | by left].
      simpl. rewrite writes_snoc. by rewrite app_nil_r.
    + apply wp_bind, wp_log.
      assert (keeps c (set_cc (λ l, l ++ [ReadBody (Some p)])
                         (set_pending (delete (h_Seq h)) c))) as H1.
      { apply keeps_fields; [done | | done | sub | by left].
        simpl. rewrite writes_snoc. by rewrite app_nil_r. }
      assert (∀ f,
                (∀ x, Seq (f x) = Seq x ∧ ServiceMethod (f x) = ServiceMethod x ∧
                      Args (f x) = Args x) →
                wp (update_call p f ;;; done p ;;; ret (body_error b))
                  (set_cc (λ l, l ++ [ReadBody (Some p)])
                     (set_pending (delete (h_Seq h)) c))
                  (λ _ c', keeps c c') (λ _, True) True) as Hupd.
      { intros f Hf. apply wp_bind.
        eapply wp_mono; [by apply update_call_keeps | | done | done].
        intros [] c2 H2. apply wp_bind.
        eapply wp_mono; [apply done_keeps | | done | done].
        intros [] c3 H3. apply wp_ret.
        eapply keeps_trans; [exact H1 |]. by eapply keeps_trans. }
      destruct b; apply Hupd; same_fields.
  - apply wp_bind, wp_log, wp_ret.
    apply keeps_fields; [done | | done | sub | by left].
    simpl. rewrite writes_snoc. by rewrite app_nil_r.
Qed.

Lemma terminate_each_keeps e l c :
  wp (terminate_each e l) c (λ _ c', keeps c c') (λ _, True) True.
Proof.
  revert c. induction l as [| [s p] l IH]; intros c; simpl.
  - apply wp_ret, keeps_refl.
  - apply wp_bind.
    eapply wp_mono; [apply update_call_keeps; same_fields | | done | done].
    intros [] c1 H1. apply wp_bind.
    eapply wp_mono; [apply done_keeps | | done | done].
    intros [] c2 H2. eapply wp_mono; [apply IH | | done | done].
    intros [] c3 H3. eapply keeps_trans; [exact H1 |]. by eapply keeps_trans.
Qed.

Lemma terminateCalls_keeps e c :
  wp (terminateCalls e) c (λ _ c', keeps c c') (λ _, True) True.
Proof.
  unfold terminateCalls. apply wp_bind, wp_modify.
  eapply wp_mono; [apply terminate_each_keeps | | done | done].
  intros [] c' H'. eapply keeps_trans; [| exact H'].
  apply keeps_fields; [done | done | done | sub | by left].
Qed.

Lemma StronglySorted_snoc_lt (l : list Z) (z : Z) :
  StronglySorted Z.lt l → Forall (λ y, y < z) l → StronglySorted Z.lt (l ++ [z]).
Proof.
  induction 1 as [| y l Hl IH Hy]; intros Hall; simpl.
  - by repeat constructor.
  - apply Forall_cons in Hall as [Hyz Hall]. constructor; [by apply IH |].
    apply Forall_app. split; [done |]. by constructor.
Qed.

(** [send] up to [cc.Write]: either nothing is registered and nothing
    written, or the call goes out under the counter's value. *)
Lemma send_begin_Wire p c :
  Wire c → Paired c → S p = length (calls c) →
  (∀ x, calls c !! p = Some x → Seq x = 0) →
  (∀ s, pending c !! s ≠ Some p) →
  1 ≤ seq c → seq c + 1 < uint64_mod →
  wp (send_begin p) c (λ _ c', Wire c' ∧ Paired c') (λ _, True) True.
Proof.
  intros HW HP Hp Hnew Hfresh Hlo Hhi. unfold send_begin.
  apply wp_bind, wp_registerCall; [| | done].
  - intros Hcl. apply wp_bind.
    eapply wp_mono; [apply update_call_keeps; same_fields | | done | done].
    intros [] c1 H1. apply wp_bind.
    eapply wp_mono; [apply done_keeps | | done | done].
    intros [] c2 H2. apply wp_ret.
    pose proof (keeps_trans _ _ _ H1 H2) as H12.
    split; [by eapply keeps_Wire | by eapply keeps_Paired].
  - intros x Hcl Hx.
    assert (p < length (calls c))%nat as Hlt by lia.
    apply wp_bind, wp_load_call; [| done]. simpl. intros y Hy.
    rewrite list_lookup_insert_eq in Hy by done. simplify_eq.
    apply wp_bind, wp_modify, wp_bind, wp_log, wp_ret.
    destruct HW as [W1 W2 W3 W4]. split; [split |]; simpl; try rewrite writes_snoc.
    + intros w [Hin | Hin%list_elem_of_singleton]%elem_of_app.
      * destruct (W1 w Hin) as (q & z & Hz & Hc).
        assert (q ≠ p).
        { intros ->. destruct Hc as (Hs & _). destruct (W2 w Hin) as [? ?].
          assert (z = x) as -> by congruence.
          rewrite (Hnew x Hx) in Hs. lia. }
        exists q, z. by rewrite list_lookup_insert_ne.
      * subst w. exists p, (set_Seq (seq c) x).
        split; [by apply list_lookup_insert_eq | done].
    + rewrite wrap_uint64_small by lia.
      intros w [Hin | Hin%list_elem_of_singleton]%elem_of_app.
      * specialize (W2 w Hin). lia.
      * subst w. simpl. lia.
    + rewrite fmap_app. simpl. apply StronglySorted_snoc_lt; [done |].
      apply Forall_fmap, Forall_forall. intros w Hin. simpl.
      specialize (W2 w Hin). lia.
    + rewrite fmap_app, W4. simpl. rewrite wrap_uint64_small by lia.
      replace (seq c + 1 - 1) with (seq c - 1 + 1) by lia.
      rewrite seqZ_app by lia. f_equal.
      rewrite seqZ_cons, seqZ_nil by lia. f_equal. lia.
    + intros s q Hs. simpl in Hs.
      apply lookup_insert_Some in Hs as [[<- <-] | [Hne Hs]].
      * split; [done |]. exists (set_Seq (seq c) x). simpl.
        split; [by apply list_lookup_insert_eq | done].
      * destruct (HP s q Hs) as [Hlo' (z & Hz & Hsz)].
        split; [done |]. exists z. simpl. split; [| done].
        rewrite list_lookup_insert_ne; [done |]. intros <-. by apply (Hfresh s).
Qed.

Lemma Go_chan_keeps d c :
  wp (Go_chan d) c (λ _ c', keeps c c') (λ _, True) True.
Proof.
  unfold Go_chan. destruct d as [ch |].
  - unfold wp. destruct (chans c !! ch) as [k |]; [| done].
    case_decide; [done | apply keeps_refl].
  - apply wp_make_chan. apply keeps_fields; [done | done | done | sub | by left].
Qed.

Lemma Go_begin_Wire sm args reply d c :
  Wire c → Paired c → 1 ≤ seq c → seq c + 1 < uint64_mod →
  wp (Go_begin sm args reply d) c (λ _ c', Wire c' ∧ Paired c')
    (λ _, True) True.
Proof.
  intros HW HP Hlo Hhi. unfold Go_begin. apply wp_bind.
  eapply wp_mono; [apply Go_chan_keeps | | done | done].
  intros ch c1 H1. apply wp_bind, wp_new_call, wp_bind.
  set (x := mkCall 0 sm args reply None ch).
  assert (keeps c1 (set_calls (λ l, l ++ [x]) c1)) as H2.
  { split; [done |]. split; [done |]. split; [done |]. split; [done |].
    intros p z Hz. exists z. split; [| done]. simpl. by apply lookup_app_l_Some. }
  pose proof (keeps_trans _ _ _ H1 H2) as H12.
  pose proof (keeps_Paired _ _ H1 HP) as HP1.
  eapply wp_mono; [apply send_begin_Wire | | done | done].
  - by eapply keeps_Wire.
  - by eapply keeps_Paired.
  - simpl. rewrite length_app. simpl. lia.
  - simpl. intros z Hz. rewrite lookup_snoc in Hz. by simplify_eq.
  - simpl. intros s Hs. destruct (HP1 s _ Hs) as [_ (z & Hz & _)].
    apply lookup_lt_Some in Hz. lia.
  - simpl. destruct H1 as (_ & -> & _). lia.
  - simpl. destruct H1 as (_ & -> & _). lia.
  - intros r c2 HW2. by apply wp_ret.
Qed.

Lemma Go_Wire sm args reply d written c :
  Wire c → Paired c → 1 ≤ seq c → seq c + 1 < uint64_mod →
  wp (Go sm args reply d written) c (λ _ c', Wire c' ∧ Paired c')
    (λ _, True) True.
Proof.
  intros HW HP Hlo Hhi.
  pose proof (Go_begin_Wire sm args reply d c HW HP Hlo Hhi) as HB.
  unfold wp in *. rewrite Go_split.
  destruct (Go_begin sm args reply d c) as [[p [sq |]] c1 | |]; [| done | done | done].
  destruct written as [e |]; [| done].
  pose proof (send_failed_keeps sq e c1) as HF. unfold wp in HF.
  unfold bind. destruct (send_failed sq e c1) as [[] c2 | |]; [| done | done].
  simpl. destruct HB. split; [by eapply keeps_Wire | by eapply keeps_Paired].
Qed.

Lemma step_Wire s s' :
  Wire (client s) → Paired (client s) →
  1 ≤ seq (client s) → seq (client s) + 1 < uint64_mod →
  step s s' → Wire (client s') ∧ Paired (client s').
Proof.
  intros HW HP Hlo Hhi Hstep.
  assert (∀ c', keeps (client s) c' → Wire c' ∧ Paired c') as Hk.
  { intros c' H'. split; [by eapply keeps_Wire | by eapply keeps_Paired]. }
  destruct Hstep; simpl.
  - unfold make_chan in *. simplify_eq.
    apply Hk. apply keeps_fields; [done | done | done | sub | by left].
  - exact (wp_run _ _ _ _ _ _ _ (Go_Wire _ _ _ _ _ _ HW HP Hlo Hhi) H0).
  - exact (wp_run _ _ _ _ _ _ _ (Go_begin_Wire _ _ _ _ _ HW HP Hlo Hhi) H0).
  - apply Hk. exact (wp_run _ _ _ _ _ _ _ (send_failed_keeps _ _ _) H0).
  - apply Hk.
    assert (wp (log ReadHeader ;;; receive_frame h b) (client s)
              (λ _ c', keeps (client s) c') (λ _, True) True) as Hwp.
    { apply wp_bind, wp_log.
      eapply wp_mono; [apply receive_frame_keeps | | done | done].
      intros a c1 H1. eapply keeps_trans; [| exact H1].
      apply keeps_fields; [done | | done | sub | by left].
      simpl. rewrite writes_snoc. by rewrite app_nil_r. }
    exact (wp_run _ _ _ _ _ _ _ Hwp H0).
  - unfold log, modify in *. simplify_eq.
    apply Hk. apply keeps_fields; [done | | done | sub | by left].
    simpl. rewrite writes_snoc. by rewrite app_nil_r.
  - apply Hk. exact (wp_run _ _ _ _ _ _ _ (terminateCalls_keeps _ _) H1).
  - unfold removeCall in *. simplify_eq.
    apply Hk. apply keeps_fields; [done | done | done | sub | by left].
  - unfold Close, bind, log, modify, ret in *.
    destruct (closing (client s)); simplify_eq; [done |].
    apply Hk. apply keeps_fields; [done | | done | sub | by left].
    simpl. rewrite writes_snoc. by rewrite app_nil_r.
  - unfold chan_recv in *.
    destruct (chans (client s) !! ch) as [[k [| q rest]] |]; simplify_eq.
    apply Hk. apply keeps_fields; [done | done | done | sub | by left].
Qed.

Lemma reach_Wire n s :
  reach n s → Z.of_nat n < uint64_mod - 1 →
  Wire (client s) ∧ Paired (client s).
Proof.
  induction 1 as [| n s s' Hr IH Hstep]; intros Hn.
  - split; [split |]; simpl;
      [by intros w ?%elem_of_nil | by intros w ?%elem_of_nil | constructor
      | done |].
    intros sq p Hs. simpl in Hs. by rewrite lookup_empty in Hs.
  - assert (Z.of_nat n < uint64_mod - 1) as Hn' by lia.
    destruct (reach_good _ _ Hr) as [HG _].
    destruct (good_seq _ _ _ HG Hn') as [Hseq _].
    destruct (IH Hn') as [HW HP].
    apply (step_Wire s s'); [done | done | lia | lia | done].
Qed.






(** *** Sequence numbers, completions and the pending map *)


(** *** Two runs of one client *)

Lemma reach_one_call : reach 1 (mkSystem one_call None Receiving).
Proof.
  eapply (reach_step 0 initial); [apply reach_initial |].
  eapply (step_Go initial "Foo.Sum" "3,4" "" None 0%nat); [done |].
  vm_compute. reflexivity.
Defined.





Lemma receive_frame_spec_witness :
  pending one_call !! 1 = Some 0%nat ∧
  ∃ c', receive_frame (mkHeader "Foo.Sum" 1 "rpc server: can't find method Sum")
          (BodyOk "") one_call = Ok None c' ∧
        pending c' = ∅ ∧ completions c' = [0%nat] ∧
        (∃ x, calls c' !! 0%nat = Some x ∧
           Error x = Some (fmt_Errorf "rpc server: can't find method Sum")) ∧
        Error_text (fmt_Errorf "rpc server: can't find method Sum")
          = Some "rpc server: can't find method Sum".
Proof.
  split; [reflexivity |].
  destruct (receive_frame_spec one_call
              (mkHeader "Foo.Sum" 1 "rpc server: can't find method Sum")
              (BodyOk "")) as [_ H].
  destruct (H 0%nat (mkCall 1 "Foo.Sum" "3,4" "" None 0) (mkChan 10 []))
    as [Hrf Htxt]; [reflexivity | reflexivity | reflexivity | simpl; lia | done |].
  eexists. split; [exact Hrf |].
  split; [reflexivity |]. split; [reflexivity |].
  split; [eexists; split; reflexivity |]. exact (Htxt eq_refl).
Defined.

End ClientFacts.

Module XClientFacts.
Import XClient.

Lemma Broadcast_start_inv servers reply_is_nil reply0 :
  BInv servers reply_is_nil reply0
    (Broadcast_start (servers, None) reply_is_nil reply0).
Proof.
  split; simpl; try done.
  - by destruct reply_is_nil.
  - split; [by intros -> | by intros [-> _]].
  - by rewrite app_nil_r.
Qed.

Lemma errors_of_snoc l a r :
  errors_of (l ++ [(a, r)]) = errors_of l ++ option_list (err r).
Proof. unfold errors_of. rewrite omap_app. simpl. by destruct (err r). Qed.

Lemma successes_of_snoc l a r :
  successes_of (l ++ [(a, r)]) =
  successes_of l ++ match err r with None => [clonedReply r] | Some _ => [] end.
Proof. unfold successes_of. rewrite omap_app. simpl. by destruct (err r). Qed.

(** The fields after [task_end]. *)
Lemma task_end_fields r v :
  e (task_end r v) = (match e v with Some m => Some m | None => err r end) ∧
  cancels (task_end r v) =
    (match e v, err r with None, Some _ => S (cancels v) | _, _ => cancels v end) ∧
  replyDone (task_end r v) =
    (match err r with None => true | Some _ => replyDone v end) ∧
  sets (task_end r v) =
    (match err r, replyDone v with
     | None, false => sets v ++ [clonedReply r]
     | _, _ => sets v
     end) ∧
  reply (task_end r v) =
    (match err r, replyDone v with
     | None, false => clonedReply r
     | _, _ => reply v
     end) ∧
  wg (task_end r v) = pred (wg v).
Proof.
  destruct v as [e0 rd rp w0 c0 s0], r as [er cr].
  destruct e0, er, rd; repeat split; reflexivity.
Qed.

Lemma bstep_inv servers reply_is_nil reply0 b b' :
  BInv servers reply_is_nil reply0 b → bstep b b' →
  BInv servers reply_is_nil reply0 b'.
Proof.
  intros [Hwg He Hc Hs Hd Hr Hp Hret] Hstep. destruct Hstep as [i addr r Hi | Hz Hn].
  - assert (i < length (running b))%nat as Hlt by (by eapply lookup_lt_Some).
    destruct (task_end_fields r (shared b)) as (Fe & Fc & Fd & Fs & Fr & Fw).
    split; cbn [shared running ended returned].
    + rewrite Fw, Hwg. rewrite length_delete by eauto. lia.
    + rewrite Fe, errors_of_snoc, He.
      destruct (errors_of (ended b)); [| done]. simpl. by destruct (err r).
    + rewrite Fc, errors_of_snoc, Hc, He.
      destruct (errors_of (ended b)); [| done]. simpl. by destruct (err r).
    + rewrite Fs, successes_of_snoc, Hs.
      destruct (err r) as [m |]; [by rewrite app_nil_r |].
      destruct (replyDone (shared b)) eqn:Hrd.
      * destruct reply_is_nil; [done |].
        destruct (successes_of (ended b)) as [| x l] eqn:Hx; [| done].
        assert (true = false) by (by apply Hd). done.
      * destruct Hd as [Hd _]. destruct (Hd eq_refl) as [-> ->]. done.
    + rewrite Fd, successes_of_snoc.
      destruct (err r) as [m |].
      * by rewrite app_nil_r.
      * split; [done |]. intros [_ Habs]. by destruct (successes_of (ended b)).
    + rewrite Fr, Fs. destruct (err r) as [m |]; [done |].
      destruct (replyDone (shared b)) eqn:Hrd; [done |].
      destruct Hd as [Hd _]. destruct (Hd eq_refl) as [Hn Hx].
      rewrite Hs, Hn, Hx. done.
    + rewrite fmap_app. simpl. rewrite <- Hp.
      rewrite (delete_Permutation (running b) i addr Hi) at 2.
      rewrite (Permutation_app_comm (_.*1) [addr]). simpl.
      by rewrite Permutation_middle.
    + intros r0 Hr0. destruct (Hret r0 Hr0) as [Hrun _].
      rewrite Hrun in Hi. done.
  - split; simpl; try done.
    intros r [= <-]. split; [| done].
    rewrite Hwg in Hz. by destruct (running b).
Qed.

(** The section under [mu] and [wg.Wait], whatever the goroutines bring.
    In every state of a [Broadcast] over the addresses [servers]: the
    caller's slot has been written at most once, with the reply of the
    first goroutine that ended without error (never, if the caller passed
    nil), and holds that reply; the recorded error is that of the first
    goroutine that ended with one, and [cancel] has been called once if
    there is such an error and not at all otherwise; and once [Broadcast]
    has returned, no goroutine is running, those that have ended are the
    ones started for [servers], and the value returned is the recorded
    error. *)
Theorem Broadcast_spec (servers : list string) (reply_is_nil : bool)
    (reply0 : string) (b : broadcast) :
  rtc bstep (Broadcast_start (servers, None) reply_is_nil reply0) b →
  ((length (sets (shared b)) ≤ 1)%nat ∧
   sets (shared b) =
     (if reply_is_nil then [] else take 1 (successes_of (ended b))) ∧
   reply (shared b) = default reply0 (head (sets (shared b)))) ∧
  (e (shared b) = head (errors_of (ended b)) ∧
   cancels (shared b) = match e (shared b) with Some _ => 1 | None => 0 end%nat) ∧
  (∀ r, returned b = Some r →
     running b = [] ∧ (ended b).*1 ≡ₚ servers ∧
     r = head (errors_of (ended b))).
Proof.
  intros Hrun.
  assert (BInv servers reply_is_nil reply0 b) as [Hwg He Hc Hs Hd Hr Hp Hret].
  { revert b Hrun. apply rtc_ind_r; [apply Broadcast_start_inv |].
    intros b1 b2 _ H12 IH. by eapply bstep_inv. }
  split; [split; [| done] | split; [split; [done |] |]].
  - rewrite Hs. destruct reply_is_nil; [simpl; lia |].
    rewrite length_take. lia.
  - rewrite Hc, He. by destruct (errors_of (ended b)).
  - intros r Hr0. destruct (Hret r Hr0) as [Hrun0 ->].
    split; [done |]. split; [| done]. by rewrite Hrun0 in Hp.
Qed.

Lemma Broadcast_spec_witness :
  rtc bstep (Broadcast_start (["tcp@a:1"; "tcp@b:2"], None) false "0")
    two_successes ∧
  sets (shared two_successes) = ["5"] ∧ reply (shared two_successes) = "5" ∧
  returned two_successes = Some None.
Proof.
  assert (rtc bstep (Broadcast_start (["tcp@a:1"; "tcp@b:2"], None) false "0")
            two_successes) as Hrun.
  { eapply rtc_l; [eapply (bstep_end _ 1 "tcp@b:2" (mkResult None "5")); done |].
    eapply rtc_l; [eapply (bstep_end _ 0 "tcp@a:1" (mkResult None "6")); done |].
    eapply rtc_l; [by eapply bstep_return |]. apply rtc_refl. }
  split; [exact Hrun |].
  destruct (Broadcast_spec _ _ _ _ Hrun) as ((_ & Hs & Hr) & _ & H3).
  split; [exact Hs |]. split; [| reflexivity].
  rewrite Hr, Hs. reflexivity.
Defined.

(** *** [Broadcast] with its goroutines *)

(** A move of the goroutines is a move of the section under [mu], or
    leaves the shared variables alone. *)
Lemma gstep_bstep parent sm args g g' :
  gstep parent sm args g g' → bc g' = bc g ∨ bstep (bc g) (bc g').
Proof.
  destruct 1; simpl; try (by left); right.
  - by eapply bstep_end.
  - by apply bstep_return.
Qed.

Lemma gstep_tasks parent sm args g g' :
  length (tasks g) = length (running (bc g)) →
  gstep parent sm args g g' →
  length (tasks g') = length (running (bc g')).
Proof.
  intros Hlen. destruct 1; simpl; rewrite ?length_insert; try done.
  rewrite !length_delete by eauto. by rewrite Hlen.
Qed.

Lemma rtc_gstep parent sm args servers reply_is_nil reply0 g :
  rtc (gstep parent sm args) (Broadcast_begin servers reply_is_nil reply0) g →
  rtc bstep (Broadcast_start (servers, None) reply_is_nil reply0) (bc g) ∧
  length (tasks g) = length (running (bc g)).
Proof.
  revert g. apply rtc_ind_r.
  - split; [apply rtc_refl |]. simpl. by rewrite length_replicate.
  - intros g1 g2 _ H12 [IH1 IH2]. split; [| by eapply gstep_tasks].
    destruct (gstep_bstep _ _ _ _ _ H12) as [-> | Hb]; [done |].
    by eapply rtc_r.
Qed.

(** C4, as the code has it.  In every state of a [Broadcast] over
    [servers], with its goroutines inside [xc.call]: the caller's slot has
    been written at most once, with the reply of the first goroutine that
    ended without error (never, if the caller passed nil); the recorded
    error is that of the first goroutine that ended with one, [cancel] has
    been called once if there is such an error and not at all otherwise,
    and after it the context is cancelled; but a goroutine whose call has
    not completed stands in the receive from [Done] that follows [Go],
    where the context is not looked at: whether or not [cancel] has been
    called, no move of [Broadcast] takes it from there or ends it, only the
    goroutines around its client move, and [Broadcast] has not returned
    and does not return in that move; and once [Broadcast] has returned
    no goroutine is left, those that have ended are the ones started for
    [servers], and the value returned is the recorded error. *)
Theorem Broadcast_cancel_leaves_siblings_waiting (parent : Client.context)
    (serviceMethod args : string) (servers : list string)
    (reply_is_nil : bool) (reply0 : string) (g : goroutines) :
  rtc (gstep parent serviceMethod args)
    (Broadcast_begin servers reply_is_nil reply0) g →
  let b := bc g in
  ((length (sets (shared b)) ≤ 1)%nat ∧
   sets (shared b) =
     (if reply_is_nil then [] else take 1 (successes_of (ended b))) ∧
   reply (shared b) = default reply0 (head (sets (shared b)))) ∧
  (e (shared b) = head (errors_of (ended b)) ∧
   cancels (shared b) = match e (shared b) with Some _ => 1 | None => 0 end%nat ∧
   (is_Some (e (shared b)) → is_Some (ctx_of parent (shared b)))) ∧
  (∀ i s p x k,
     tasks g !! i = Some (InCall s p (Client.AfterGo p)) →
     Client.calls (Client.client s) !! p = Some x →
     Client.chans (Client.client s) !! Client.Done x = Some k →
     Client.buf k = [] →
     Client.Call_step (ctx_of parent (shared b)) (Client.AfterGo p)
       (Client.client s) = [] ∧
     returned b = None ∧
     ∀ g', gstep parent serviceMethod args g g' →
       returned (bc g') = None ∧
       ∃ j s', tasks g' !! j = Some (InCall s' p (Client.AfterGo p)) ∧
               (s' = s ∨ Client.step s s')) ∧
  (∀ r, returned b = Some r →
     tasks g = [] ∧ running b = [] ∧ (ended b).*1 ≡ₚ servers ∧
     r = head (errors_of (ended b))).
Proof.
  intros Hrun b. destruct (rtc_gstep _ _ _ _ _ _ _ Hrun) as [Hb Hlen].
  fold b in Hb, Hlen.
  destruct (Broadcast_spec servers reply_is_nil reply0 b Hb)
    as (Hslot & [He Hc] & Hret).
  assert (BInv servers reply_is_nil reply0 b) as HI.
  { revert Hb. generalize b. apply rtc_ind_r; [apply Broadcast_start_inv |].
    intros b1 b2 _ H12 IH. by eapply bstep_inv. }
  split; [done |]. split; [| split].
  - split; [done |]. split; [done |]. intros [m Hm]. unfold ctx_of.
    destruct parent as [msg |]; [by eexists |].
    rewrite Hc, Hm. rewrite decide_False by done. by eexists.
  - intros i s p x k Hi Hx Hk Hbuf.
    assert (i < length (tasks g))%nat as Hlt by (by eapply lookup_lt_Some).
    assert (∀ ctx, Client.Call_step ctx (Client.AfterGo p) (Client.client s) = [])
      as Hwait by (intros ctx; by eapply ClientFacts.Call_waits).
    assert (returned b = None) as Hnone.
    { destruct (returned b) as [r |] eqn:Hr; [| done].
      destruct (Hret r eq_refl) as [Hrun0 _]. rewrite Hrun0 in Hlen.
      simpl in Hlen. lia. }
    split; [apply Hwait |]. split; [done |].
    intros g' Hstep. destruct Hstep as
      [i0 msg H0 | i0 s0 written p0 c1 H0 Hs0 Hc0 | i0 s0 p0 pc pc' c' H0 Hin
      | i0 s0 s' p0 pc H0 Hst | i0 addr t r Ha H0 Hres | Hwg Hr]; simpl.
    + split; [done |]. exists i, s. split; [| by left].
      rewrite list_lookup_insert_ne; [done |]. intros ->. congruence.
    + split; [done |]. exists i, s. split; [| by left].
      rewrite list_lookup_insert_ne; [done |]. intros ->. congruence.
    + split; [done |]. destruct (decide (i0 = i)) as [-> | Hne].
      * rewrite Hi in H0. injection H0 as <- <- <-.
        fold b in Hin. rewrite Hwait in Hin. by apply elem_of_nil in Hin.
      * exists i, s. split; [| by left]. by rewrite list_lookup_insert_ne.
    + split; [done |]. destruct (decide (i0 = i)) as [-> | Hne].
      * rewrite Hi in H0. injection H0 as <- <- <-.
        exists i, s'. split; [| by right]. by apply list_lookup_insert_eq.
      * exists i, s. split; [| by left]. by rewrite list_lookup_insert_ne.
    + split; [done |]. destruct (decide (i0 = i)) as [-> | Hne].
      * rewrite Hi in H0. injection H0 as <-. done.
      * destruct (decide (i < i0)%nat) as [Hlo | Hhi].
        -- exists i, s. split; [| by left]. by rewrite list_lookup_delete_lt.
        -- exists (pred i), s. split; [| by left].
           rewrite list_lookup_delete_ge by lia.
           replace (S (pred i)) with i by lia. done.
    + fold b in Hwg. destruct HI as [Hw _]. rewrite Hw, <- Hlen in Hwg. lia.
  - intros r Hr. destruct (Hret r Hr) as (Hrun0 & Hperm & ->).
    split; [| done]. rewrite Hrun0 in Hlen. by destruct (tasks g).
Qed.

(** A run to [one_failed_one_waiting]. *)
Lemma run_one_failed_one_waiting :
  rtc (gstep None "Foo.Sleep" "3,0")
    (Broadcast_begin ["tcp@a:1"; "tcp@b:2"] false "0") one_failed_one_waiting.
Proof.
  eapply rtc_l.
  { eapply (gstep_dial_failed _ _ _ _ 0 dial_refused). reflexivity. }
  eapply rtc_l.
  { eapply (gstep_Call_begin _ _ _ _ 1 Client.initial None 0); reflexivity. }
  eapply rtc_l.
  { eapply (gstep_end _ _ _ _ 0 "tcp@a:1"); reflexivity. }
  apply rtc_refl.
Defined.

Lemma Broadcast_cancel_leaves_siblings_waiting_witness :
  rtc (gstep None "Foo.Sleep" "3,0")
    (Broadcast_begin ["tcp@a:1"; "tcp@b:2"] false "0") one_failed_one_waiting ∧
  e (shared (bc one_failed_one_waiting)) = Some dial_refused ∧
  cancels (shared (bc one_failed_one_waiting)) = 1%nat ∧
  Client.Call_step (Some "context canceled") (Client.AfterGo 0)
    sleep_call_begun = [] ∧
  returned (bc one_failed_one_waiting) = None ∧
  ∀ g', gstep None "Foo.Sleep" "3,0" one_failed_one_waiting g' →
    returned (bc g') = None ∧
    ∃ j s', tasks g' !! j = Some (InCall s' 0 (Client.AfterGo 0)) ∧
            (s' = Client.mkSystem sleep_call_begun None Client.Receiving ∨
             Client.step (Client.mkSystem sleep_call_begun None Client.Receiving)
               s').
Proof.
  split; [exact run_one_failed_one_waiting |].
  destruct (Broadcast_cancel_leaves_siblings_waiting None "Foo.Sleep" "3,0"
              ["tcp@a:1"; "tcp@b:2"] false "0" one_failed_one_waiting
              run_one_failed_one_waiting) as (_ & (He & Hc & _) & Hwait & _).
  split; [reflexivity |]. split; [exact Hc |].
  destruct (Hwait 0%nat
              (Client.mkSystem sleep_call_begun None Client.Receiving) 0%nat
              (Client.mkCall 1 "Foo.Sleep" "3,0" "" None 0)
              (Client.mkChan 1 []) eq_refl eq_refl eq_refl eq_refl)
    as (Hstep & Hnone & Hnext).
  split; [exact Hstep |]. split; [exact Hnone | exact Hnext].
Defined.

(** What happens then, at the same input: when the response of the second
    server has arrived, [Call] takes the call from [Done] and comes to the
    [select] with the channel empty and the context cancelled; it returns
    the cancellation error, the reply is dropped, and [Broadcast] returns
    the first error with the caller's slot as it was. *)
Lemma Broadcast_sibling_ends_after_its_response :
  let waiting := Client.mkSystem sleep_call_begun None Client.Receiving in
  let answered := Client.mkSystem sleep_call_answered None Client.Receiving in
  Client.step waiting answered ∧
  (∃ x, Client.calls sleep_call_answered !! 0%nat = Some x ∧
        Client.Reply x = "3" ∧ Client.Error x = None) ∧
  ∃ c1 c2 g',
    Client.Call_step (Some "context canceled") (Client.AfterGo 0)
      sleep_call_answered = [(Client.AtSelect 0, c1)] ∧
    Client.Call_step (Some "context canceled") (Client.AtSelect 0) c1
      = [(Client.Returned
            (Some (Client.errors_New "rpc client: call failed: context canceled")),
          c2)] ∧
    rtc (gstep None "Foo.Sleep" "3,0") one_failed_one_waiting g' ∧
    tasks g' = [] ∧
    returned (bc g') = Some (Some dial_refused) ∧
    reply (shared (bc g')) = "0" ∧
    ended (bc g') =
      [("tcp@a:1", mkResult (Some dial_refused) "");
       ("tcp@b:2",
        mkResult (Some "rpc client: call failed: context canceled") "3")].
Proof.
  intros waiting answered.
  assert (Client.step waiting answered) as Hstep.
  { eapply (Client.step_receive waiting (Client.mkHeader "Foo.Sleep" 1 "")
              (Client.BodyOk "3") None); [done |].
    vm_compute. reflexivity. }
  split; [exact Hstep |]. split.
  { eexists. split; [vm_compute; reflexivity |]. split; reflexivity. }
  destruct (Client.Call_step (Some "context canceled") (Client.AfterGo 0)
              sleep_call_answered) as [| [pc1 c1] l1] eqn:H1;
    [vm_compute in H1; discriminate |].
  assert (pc1 = Client.AtSelect 0 ∧ l1 = []) as [-> ->]
    by (vm_compute in H1; split; congruence).
  destruct (Client.Call_step (Some "context canceled") (Client.AtSelect 0) c1)
    as [| [pc2 c2] l2] eqn:H2.
  { vm_compute in H1. injection H1 as <-. vm_compute in H2. discriminate. }
  assert (pc2 = Client.Returned
            (Some (Client.errors_New "rpc client: call failed: context canceled"))
          ∧ l2 = []) as [-> ->].
  { vm_compute in H1. injection H1 as <-. vm_compute in H2.
    split; congruence. }
  exists c1, c2. eexists. split; [done |]. split; [done |]. split.
  - eapply rtc_l.
    { eapply (gstep_client _ _ _ _ 0 waiting answered 0); [reflexivity | exact Hstep]. }
    eapply rtc_l.
    { eapply (gstep_Call _ _ _ _ 0 answered 0 _ (Client.AtSelect 0) c1);
        [reflexivity |].
      change (?y ∈ _) with
        (y ∈ Client.Call_step (Some "context canceled") (Client.AfterGo 0)
               sleep_call_answered).
      rewrite H1. apply elem_of_cons. by left. }
    eapply rtc_l.
    { eapply (gstep_Call _ _ _ _ 0 _ 0 _ _ c2); [reflexivity |].
      change (?y ∈ _) with
        (y ∈ Client.Call_step (Some "context canceled") (Client.AtSelect 0) c1).
      rewrite H2. apply elem_of_cons. by left. }
    eapply rtc_l.
    { eapply (gstep_end _ _ _ _ 0 "tcp@b:2"); [reflexivity | reflexivity |].
      simpl. reflexivity. }
    eapply rtc_l; [by eapply gstep_return |]. apply rtc_refl.
  - simpl. split; [done |]. split; [done |]. split; [done |].
    do 3 f_equal. vm_compute in H1. injection H1 as <-.
    vm_compute in H2. injection H2 as <-. reflexivity.
Qed.

End XClientFacts.

Module ServerFacts.
Import Server.

Section Request.
Variable timeout : Z.
Variable result : option string * string.
Variable timeout_message : string.
Variable hd : Client.Header.

Abbreviation step := (step timeout result timeout_message).
Abbreviation run := (run timeout result timeout_message).
Abbreviation expected := (expected timeout result timeout_message hd).
Abbreviation response := (response result hd).
Abbreviation timeout_response := (timeout_response timeout_message hd).
Abbreviation late_response := (late_response result timeout_message hd).

Lemma step_expected fired m s s' :
  expected fired s → step m s = Some s' →
  expected (fired || is_timer m) s'.
Proof.
  destruct s as [w0 sv0 h0 wire0]. unfold Server.expected, Server.step. simpl.
  unfold Server.response, Server.timeout_response, Server.late_response.
  destruct m, w0, sv0; simpl; intros Hex Hst; try done;
    repeat case_match; simplify_eq; simpl in *;
    destruct_and?; simplify_eq; simpl; try done.
  all: try (rewrite orb_false_r).
  all: try done.
Qed.

Lemma run_expected fired ms s s' :
  expected fired s → run ms s = Some s' →
  expected (fired || existsb is_timer ms) s'.
Proof.
  revert fired s. induction ms as [| m ms IH]; intros fired s Hex Hrun;
    simpl in *.
  - simplify_eq. by rewrite orb_false_r.
  - destruct (step m s) as [s1 |] eqn:Hs; [| done].
    rewrite orb_assoc. eapply IH; [| done]. by eapply step_expected.
Qed.

Lemma is_timer_elem ms : existsb is_timer ms = true ↔ TimerFires ∈ ms.
Proof.
  rewrite existsb_exists. split.
  - intros (m & Hin & Hm). destruct m; try done. by apply list_elem_of_In.
  - intros Hin. exists TimerFires. split; [by apply list_elem_of_In | done].
Qed.

(** C1, as the code has it.  When both goroutines of [handleRequest]
    have finished and the select took the timer case, which happens only
    for a non-zero timeout, two responses have been written for the
    request: the timeout error with the placeholder body, and after it
    the worker's own response, under the same header.  When the timer
    case was not taken, one response has been written. *)
Theorem handleRequest_timeout_writes_twice (ms : list move) (s : state) :
  run ms (enter hd) = Some s → finished s →
  (TimerFires ∈ ms →
     timeout ≠ 0 ∧
     wire s = [timeout_response; late_response]) ∧
  (TimerFires ∉ ms → wire s = [response]).
Proof.
  intros Hrun [Hw Hsv].
  assert (expected false (enter hd)) as H0 by done.
  pose proof (run_expected _ _ _ _ H0 Hrun) as Hex. simpl in Hex.
  unfold Server.expected in Hex. rewrite Hw, Hsv in Hex. split.
  - intros Hin. apply is_timer_elem in Hin. by rewrite Hin in Hex.
  - intros Hin. destruct (existsb is_timer ms) eqn:Het; [| done].
    by apply is_timer_elem in Het.
Qed.

(** The schedule in which the method returns after the timer. *)
Lemma slow_request_runs :
  timeout ≠ 0 →
  ∃ s, run slow_request (enter hd) = Some s ∧ finished s.
Proof.
  intros Ht. unfold slow_request, enter. simpl.
  rewrite decide_False by done. simpl.
  destruct result.1; simpl; eexists; (split; [reflexivity | done]).
Qed.
End Request.

Lemma handleRequest_timeout_writes_twice_witness :
  let hd := Client.mkHeader "Foo.Sleep" 1 "" in
  let tm := "rpc server: request handle timeout: expect within 1s" in
  ∃ s, run 1000000000 (None, "5") tm slow_request (enter hd) = Some s ∧
       finished s ∧ TimerFires ∈ slow_request ∧
       wire s = [(Client.mkHeader "Foo.Sleep" 1 tm, invalidRequest);
                 (Client.mkHeader "Foo.Sleep" 1 tm, replyv "5")].
Proof.
  intros hd tm.
  destruct (slow_request_runs 1000000000 (None, "5") tm hd) as (s & Hrun & Hfin);
    [done |].
  exists s. split; [exact Hrun |]. split; [exact Hfin |].
  assert (TimerFires ∈ slow_request) as Hin.
  { apply elem_of_cons. right. apply elem_of_cons. by left. }
  split; [exact Hin |].
  destruct (handleRequest_timeout_writes_twice 1000000000 (None, "5") tm hd
              slow_request s Hrun Hfin) as [H _].
  exact (proj2 (H Hin)).
Defined.

End ServerFacts.

(** ** client.go: the methods, case by case *)

Module ClientMore.
Import Client ClientFacts.

(** *** [terminateCalls] *)

Lemma has_room_mono n m c p :
  (m ≤ n)%nat → has_room n c p = true → has_room m c p = true.
Proof.
  intros Hle. unfold has_room.
  destruct (calls c !! p) as [x |]; [| done].
  destruct (chans c !! Done x) as [k |]; [| done].
  intros H%bool_decide_eq_true. apply bool_decide_eq_true. lia.
Qed.

(** A send on the channel of the call at [p] takes one place from every
    call. *)
Lemma has_room_push n c c2 p x y k q :
  calls c !! p = Some x → chans c !! Done x = Some k → Done y = Done x →
  calls c2 = <[p := y]> (calls c) →
  chans c2 = <[Done x := mkChan (cap k) (buf k ++ [p])]> (chans c) →
  has_room (S n) c q = true → has_room n c2 q = true.
Proof.
  intros Hx Hk Hy Hcalls Hchans. unfold has_room. rewrite Hcalls, Hchans.
  assert (p < length (calls c))%nat as Hlt by (by eapply lookup_lt_Some).
  assert (Done x < length (chans c))%nat as Hlk by (by eapply lookup_lt_Some).
  destruct (decide (q = p)) as [-> | Hne].
  - rewrite Hx. rewrite list_lookup_insert_eq by done. rewrite Hy, Hk.
    rewrite list_lookup_insert_eq by done. simpl.
    intros H%bool_decide_eq_true. apply bool_decide_eq_true.
    rewrite length_app. simpl. lia.
  - rewrite list_lookup_insert_ne by done.
    destruct (calls c !! q) as [z |]; [| done].
    destruct (decide (Done z = Done x)) as [-> | Hnk].
    + rewrite Hk. rewrite list_lookup_insert_eq by done. simpl.
      intros H%bool_decide_eq_true. apply bool_decide_eq_true.
      rewrite length_app. simpl. lia.
    + rewrite list_lookup_insert_ne by done.
      destruct (chans c !! Done z) as [k' |]; [| done].
      intros H%bool_decide_eq_true. apply bool_decide_eq_true. lia.
Qed.

Lemma has_room_Some n c p :
  has_room (S n) c p = true →
  ∃ x k, calls c !! p = Some x ∧ chans c !! Done x = Some k ∧
         (length (buf k) < cap k)%nat.
Proof.
  unfold has_room. destruct (calls c !! p) as [x |] eqn:Hx; [| done].
  destruct (chans c !! Done x) as [k |] eqn:Hk; [| done].
  intros H%bool_decide_eq_true. exists x, k.
  split; [done |]. split; [done |]. lia.
Qed.

Lemma terminate_each_returns e l c :
  (∀ p, p ∈ (snd <$> l) → has_room (length l) c p = true) →
  ∃ c', terminate_each e l c = Ok tt c'.
Proof.
  revert c. induction l as [| [s p] l IH]; intros c Hroom; simpl.
  - by eexists.
  - assert (has_room (S (length l)) c p = true) as Hp.
    { apply Hroom. simpl. apply elem_of_cons. by left. }
    destruct (has_room_Some _ _ _ Hp) as (x & k & Hx & Hk & Hlt).
    assert (p < length (calls c))%nat by (by eapply lookup_lt_Some).
    erewrite bind_Ok; [| by apply update_call_Ok].
    erewrite bind_Ok; cycle 1.
    { eapply done_Ok; simpl; [by apply list_lookup_insert_eq | exact Hk | lia]. }
    apply IH. intros q Hq.
    eapply (has_room_push _ c _ p x (set_Error e x) k q); try done.
    apply Hroom. simpl. apply elem_of_cons. by right.
Qed.

Lemma terminateCalls_returns e c :
  map_Forall (λ _ p, has_room (size (pending c)) c p = true) (pending c) →
  ∃ c', terminateCalls e c = Ok tt c'.
Proof.
  intros Hroom. unfold terminateCalls. rewrite bind_modify.
  apply terminate_each_returns. simpl. intros p Hp.
  apply list_elem_of_fmap in Hp as ([s p'] & -> & Hin).
  apply elem_of_map_to_list in Hin. simpl.
  rewrite length_map_to_list.
  apply (Hroom s p') in Hin. exact Hin.
Qed.

(** X1.  When the [Done] channel of every pending call has room for as
    many sends as there are pending calls, [terminateCalls] returns; the
    client is then shut down and no longer available, the pending map is
    what it was, and every call in it carries the error and has been
    completed; nothing was written to or read from the codec. *)
Theorem terminateCalls_fails_every_pending_call (e : error) (c : Client) :
  map_Forall (λ _ p, has_room (size (pending c)) c p = true) (pending c) →
  ∃ c', terminateCalls e c = Ok tt c' ∧
    shutdown c' = true ∧ IsAvailable c' = false ∧
    pending c' = pending c ∧ cc c' = cc c ∧
    ∀ s p, pending c !! s = Some p →
      completed c' p ∧ ∃ x, calls c' !! p = Some x ∧ Error x = Some e.
Proof.
  intros Hroom.
  destruct (terminateCalls_returns e c Hroom) as [c' Hrun].
  exists c'. split; [done |].
  destruct (wp_run _ _ _ _ _ _ _ (terminateCalls_effect e c) Hrun)
    as (Hsh & Hp & Hcc & Hl).
  split; [done |]. split; [unfold IsAvailable; by rewrite Hsh |].
  split; [done |]. split; [done |].
  intros s p Hs. by apply (Hl s).
Qed.

Lemma terminateCalls_fails_every_pending_call_witness :
  terminateCalls (io_error "EOF") one_call_cut = Ok tt one_call_terminated ∧
  shutdown one_call_terminated = true ∧
  ∃ x, calls one_call_terminated !! 0%nat = Some x ∧
       Error x = Some (io_error "EOF").
Proof.
  destruct (terminateCalls_fails_every_pending_call (io_error "EOF") one_call_cut)
    as (c' & Hrun & Hsh & _ & _ & _ & Hall).
  { apply (bool_decide_unpack _). vm_compute. exact I. }
  assert (c' = one_call_terminated) as ->.
  { assert (terminateCalls (io_error "EOF") one_call_cut
            = Ok tt one_call_terminated) as H by (vm_compute; reflexivity).
    congruence. }
  split; [exact Hrun |]. split; [exact Hsh |].
  destruct (Hall 1 0%nat eq_refl) as [_ Hx]. exact Hx.
Defined.

(** *** [Go] and [send], case by case *)

(** X2.  On a client that is closing or shut down, [Go] with a nil [done]
    returns a call that is already completed with [ErrShutdown]: the call
    has no sequence number, is not in the pending map, the counter has not
    moved and nothing was written to the codec. *)
Theorem Go_refused_after_Close_or_shutdown (serviceMethod args reply : string)
    (written : option error) (c : Client) :
  closing c || shutdown c = true →
  ∃ c', Go serviceMethod args reply None written c = Ok (length (calls c)) c' ∧
    cc c' = cc c ∧ pending c' = pending c ∧ seq c' = seq c ∧
    completions c' = completions c ++ [length (calls c)] ∧
    calls c' = calls c ++ [mkCall 0 serviceMethod args reply
                             (Some ErrShutdown) (length (chans c))].
Proof.
  intros Hcl.
  destruct (Go_refused serviceMethod args reply written c Hcl)
    as (c' & HGo & Hcc & Hp & Hsq & Hco & Hcalls & _).
  by exists c'.
Qed.

Lemma Go_refused_after_Close_or_shutdown_witness :
  closing one_call_terminated || shutdown one_call_terminated = true ∧
  ∃ c', Go "Foo.Sum" "1,2" "" None None one_call_terminated = Ok 1%nat c' ∧
        cc c' = cc one_call_terminated ∧
        calls c' !! 1%nat = Some (mkCall 0 "Foo.Sum" "1,2" "" (Some ErrShutdown) 1).
Proof.
  split; [reflexivity |].
  destruct (Go_refused_after_Close_or_shutdown "Foo.Sum" "1,2" "" None
              one_call_terminated eq_refl) as (c' & HGo & Hcc & _ & _ & _ & Hcalls).
  exists c'. split; [exact HGo |]. split; [exact Hcc |].
  rewrite Hcalls. reflexivity.
Defined.

(** X3.  On an open client, [Go] with a nil [done] whose [cc.Write]
    succeeds leaves the call pending under the old value of the counter and
    not completed, advances the counter, and has written one frame: the
    call's arguments under a header with its service method, that sequence
    number and an empty error. *)
Theorem Go_registers_and_writes (serviceMethod args reply : string) (c : Client) :
  closing c = false → shutdown c = false →
  ∃ c', Go serviceMethod args reply None None c = Ok (length (calls c)) c' ∧
    pending c' = <[seq c := length (calls c)]> (pending c) ∧
    seq c' = wrap_uint64 (seq c + 1) ∧
    cc c' = cc c ++ [Write (mkHeader serviceMethod (seq c) "") args] ∧
    header c' = mkHeader serviceMethod (seq c) "" ∧
    completions c' = completions c ∧
    calls c' = calls c ++ [mkCall (seq c) serviceMethod args reply None
                             (length (chans c))].
Proof.
  intros Hc Hs.
  destruct (Go_registers c serviceMethod args reply Hc Hs)
    as (c' & HGo & Hp & Hsq & Hcc & Hh & Hco & Hcalls & _).
  by exists c'.
Qed.

Lemma Go_registers_and_writes_witness :
  closing NewClientCodec = false ∧ shutdown NewClientCodec = false ∧
  ∃ c', Go "Foo.Sum" "3,4" "" None None NewClientCodec = Ok 0%nat c' ∧
        pending c' !! 1 = Some 0%nat ∧ seq c' = 2 ∧
        cc c' = [Write (mkHeader "Foo.Sum" 1 "") "3,4"].
Proof.
  split; [reflexivity |]. split; [reflexivity |].
  destruct (Go_registers_and_writes "Foo.Sum" "3,4" "" NewClientCodec
              eq_refl eq_refl) as (c' & HGo & Hp & Hs & Hcc & _).
  exists c'. split; [exact HGo |].
  split; [rewrite Hp; apply lookup_insert_eq |].
  split; [rewrite Hs; reflexivity | exact Hcc].
Defined.

(** X4.  On an open client, [Go] with a nil [done] whose [cc.Write] fails
    completes the call with the error of the write and takes it out of the
    pending map again; the frame has been handed to the codec and the
    counter has advanced. *)
Theorem Go_write_failure_completes_the_call (serviceMethod args reply : string)
    (e : error) (c : Client) :
  closing c = false → shutdown c = false →
  ∃ c', Go serviceMethod args reply None (Some e) c = Ok (length (calls c)) c' ∧
    pending c' = delete (seq c) (pending c) ∧
    seq c' = wrap_uint64 (seq c + 1) ∧
    cc c' = cc c ++ [Write (mkHeader serviceMethod (seq c) "") args] ∧
    completions c' = completions c ++ [length (calls c)] ∧
    calls c' = calls c ++ [mkCall (seq c) serviceMethod args reply (Some e)
                             (length (chans c))].
Proof.
  intros Hc Hs.
  destruct (Go_write_failed serviceMethod args reply e c Hc Hs)
    as (c' & HGo & Hp & Hsq & Hcc & Hco & Hcalls & _).
  by exists c'.
Qed.

Lemma Go_write_failure_completes_the_call_witness :
  closing NewClientCodec = false ∧ shutdown NewClientCodec = false ∧
  ∃ c', Go "Foo.Sum" "3,4" "" None (Some (io_error "broken pipe")) NewClientCodec
          = Ok 0%nat c' ∧
        pending c' = ∅ ∧ completions c' = [0%nat] ∧
        calls c' !! 0%nat
          = Some (mkCall 1 "Foo.Sum" "3,4" "" (Some (io_error "broken pipe")) 0).
Proof.
  split; [reflexivity |]. split; [reflexivity |].
  destruct (Go_write_failure_completes_the_call "Foo.Sum" "3,4" ""
              (io_error "broken pipe") NewClientCodec eq_refl eq_refl)
    as (c' & HGo & Hp & _ & _ & Hco & Hcalls).
  exists c'. split; [exact HGo |]. split; [rewrite Hp; reflexivity |].
  split; [exact Hco |]. rewrite Hcalls. reflexivity.
Defined.

(** *** [receive], the remaining cases *)

(** X5.  A response whose header has an empty error and whose sequence
    number is pending: when the body decodes, the call gets the body as its
    reply, keeps its error field, is completed and leaves the pending map,
    and the loop goes on; when the body does not decode, the call is
    completed with "reading body " followed by the text of the read's
    error, and that read's error ends the loop. *)
Theorem receive_frame_delivers_reply (c : Client) (h : Header) (p : nat)
    (x : Call) (k : Chan) :
  pending c !! h_Seq h = Some p → calls c !! p = Some x →
  chans c !! Done x = Some k → (length (buf k) < cap k)%nat →
  h_Error h = "" →
  (∀ v, ∃ c',
     receive_frame h (BodyOk v) c = Ok None c' ∧
     pending c' = delete (h_Seq h) (pending c) ∧
     calls c' = <[p := set_Reply v x]> (calls c) ∧
     completions c' = completions c ++ [p] ∧
     cc c' = cc c ++ [ReadBody (Some p)]) ∧
  (∀ m, ∃ c',
     receive_frame h (BodyErr m) c = Ok (Some (io_error m)) c' ∧
     pending c' = delete (h_Seq h) (pending c) ∧
     calls c' = <[p := set_Error (errors_New ("reading body " ++ m)%string) x]>
                  (calls c) ∧
     completions c' = completions c ++ [p] ∧
     cc c' = cc c ++ [ReadBody (Some p)]).
Proof.
  intros Hp Hx Hk Hroom He.
  assert (p < length (calls c))%nat as Hlt by (by eapply lookup_lt_Some).
  split; intros v; unfold receive_frame; msimpl; rewrite Hp;
    rewrite decide_False by (intros H; apply H, He); msimpl.
  - erewrite bind_Ok; [| by apply update_call_Ok].
    msimpl. erewrite bind_Ok; cycle 1.
    { eapply done_Ok; simpl; [by apply list_lookup_insert_eq | exact Hk | done]. }
    msimpl. eexists. split; [reflexivity |]. done.
  - erewrite bind_Ok; [| by apply update_call_Ok].
    msimpl. erewrite bind_Ok; cycle 1.
    { eapply done_Ok; simpl; [by apply list_lookup_insert_eq | exact Hk | done]. }
    msimpl. eexists. split; [reflexivity |]. done.
Qed.

Lemma receive_frame_delivers_reply_witness :
  pending one_call !! 1 = Some 0%nat ∧
  ∃ c', receive_frame (mkHeader "Foo.Sum" 1 "") (BodyOk "7") one_call = Ok None c' ∧
        pending c' = ∅ ∧
        calls c' = [mkCall 1 "Foo.Sum" "3,4" "7" None 0] ∧
        completions c' = [0%nat].
Proof.
  split; [reflexivity |].
  destruct (receive_frame_delivers_reply one_call (mkHeader "Foo.Sum" 1 "") 0
              (mkCall 1 "Foo.Sum" "3,4" "" None 0) (mkChan 10 []))
    as [H _]; [reflexivity | reflexivity | reflexivity | simpl; lia | reflexivity |].
  destruct (H "7") as (c' & Hrf & Hp & Hcalls & Hco & _).
  exists c'. split; [exact Hrf |]. split; [rewrite Hp; reflexivity |].
  split; [rewrite Hcalls; reflexivity | rewrite Hco; reflexivity].
Defined.

(** *** [registerCall] and [removeCall] *)

(** X6.  On an open client whose counter is not a pending key,
    [registerCall] stores the call under the counter and [removeCall] of
    that number gives the call back and restores the pending map; a second
    [removeCall] of the number finds nothing and changes nothing. *)
Theorem registerCall_removeCall_round_trip (c : Client) (p : nat) (x : Call) :
  closing c = false → shutdown c = false → calls c !! p = Some x →
  pending c !! seq c = None →
  ∃ c1 c2,
    registerCall p c = Ok (seq c, None) c1 ∧
    calls c1 !! p = Some (set_Seq (seq c) x) ∧
    removeCall (seq c) c1 = Ok (Some p) c2 ∧
    pending c2 = pending c ∧
    removeCall (seq c) c2 = Ok None c2.
Proof.
  intros Hc Hs Hx Hfree.
  rewrite (registerCall_Ok p x c Hc Hs Hx). do 2 eexists.
  split; [reflexivity |]. split.
  { simpl. apply list_lookup_insert_eq. by eapply lookup_lt_Some. }
  unfold removeCall. simpl. rewrite lookup_insert_eq.
  split; [reflexivity |]. simpl. rewrite delete_insert_eq.
  split; [by apply delete_id |].
  rewrite lookup_delete_eq. unfold set_pending. simpl.
  by rewrite delete_delete_eq.
Qed.

Lemma registerCall_removeCall_round_trip_witness :
  ∃ c1 c2,
    registerCall 0 two_calls_new = Ok (1, None) c1 ∧
    removeCall 1 c1 = Ok (Some 0%nat) c2 ∧ pending c2 = ∅.
Proof.
  destruct (registerCall_removeCall_round_trip two_calls_new 0
              (mkCall 0 "Foo.Sum" "1,2" "" None 0))
    as (c1 & c2 & H1 & _ & H2 & H3 & _); try reflexivity.
  exists c1, c2. split; [exact H1 |]. split; [exact H2 | exact H3].
Defined.

(** *** The end of [receive] *)

Lemma receive_frame_reads c h b :
  wp (receive_frame h b) c
    (λ r c', r = body_error b ∧ ∃ into, cc c' = cc c ++ [ReadBody into])
    (λ _, True) True.
Proof.
  unfold receive_frame. apply wp_bind, wp_removeCall.
  destruct (pending c !! h_Seq h) as [p |].
  - case_decide.
    + apply wp_bind, wp_update_call; [| done]. intros x Hx.
      apply wp_bind, wp_log, wp_bind, wp_done; [| done | done].
      intros. apply wp_ret. simpl. eauto.
    + apply wp_bind, wp_log, wp_bind.
      assert (∀ f, wp (update_call p f)
                (set_cc (λ l, l ++ [ReadBody (Some p)])
                   (set_pending (delete (h_Seq h)) c))
                (λ _ c1, wp (done p;;; ret (body_error b)) c1
                   (λ r c', r = body_error b ∧ ∃ into, cc c' = cc c ++ [ReadBody into])
                   (λ _, True) True) (λ _, True) True) as Hupd.
      { intros f. apply wp_update_call; [| done]. intros x Hx.
        apply wp_bind, wp_done; [| done | done].
        intros. apply wp_ret. simpl. eauto. }
      destruct b; apply Hupd.
  - apply wp_bind, wp_log, wp_ret. simpl. eauto.
Qed.

Lemma receive_end_state (ins : list incoming) (c c' : Client) :
  receive ins c = Ok tt c' →
  shutdown c' = true ∧
  (∃ l, cc c' = cc c ++ l ∧ Forall is_read l) ∧
  ∃ e, stopping_error ins = Some e ∧
    ∀ s p, pending c' !! s = Some p →
      completed c' p ∧ ∃ x, calls c' !! p = Some x ∧ Error x = Some e.
Proof.
  revert c. induction ins as [| [h b | m] rest IH]; intros c Hrun;
    simpl in Hrun.
  - done.
  - rewrite bind_log in Hrun. unfold bind in Hrun.
    set (c0 := set_cc (λ l, l ++ [ReadHeader]) c) in *.
    pose proof (receive_frame_reads c0 h b) as Hrd. unfold wp in Hrd.
    destruct (receive_frame h b c0) as [err c1 | |] eqn:Hf; [| done | done].
    destruct Hrd as [-> [into Hcc1]].
    destruct b as [v | m]; simpl in Hrun.
    + destruct (IH c1 Hrun) as (Hsh & (l & Hcc & Hl) & Hall).
      split; [done |]. split; [| done].
      exists ([ReadHeader; ReadBody into] ++ l). split.
      * rewrite Hcc, Hcc1. simpl. by rewrite <- !app_assoc.
      * apply Forall_app. split; [| done]. by repeat constructor.
    + destruct (wp_run _ _ _ _ _ _ _ (terminateCalls_effect _ _) Hrun)
        as (Hsh & Hp & Hcc & Hall).
      split; [done |]. split.
      * exists [ReadHeader; ReadBody into]. split; [| by repeat constructor].
        rewrite Hcc, Hcc1. simpl. by rewrite <- app_assoc.
      * exists (io_error m). split; [done |].
        intros s p Hs. apply (Hall s p). by rewrite <- Hp.
  - rewrite bind_log in Hrun.
    destruct (wp_run _ _ _ _ _ _ _ (terminateCalls_effect _ _) Hrun)
      as (Hsh & Hp & Hcc & Hall).
    split; [done |]. split.
    + exists [ReadHeader]. split; [by rewrite Hcc | by repeat constructor].
    + exists (io_error m). split; [done |].
      intros s p Hs. apply (Hall s p). by rewrite <- Hp.
Qed.

Lemma receive_frame_returns n h b c :
  (∀ s p, pending c !! s = Some p → has_room (S n) c p = true) →
  ∃ c1, receive_frame h b c = Ok (body_error b) c1 ∧
    pending c1 = delete (h_Seq h) (pending c) ∧
    ∀ q, has_room (S n) c q = true → has_room n c1 q = true.
Proof.
  intros Hroom. unfold receive_frame. msimpl.
  destruct (pending c !! h_Seq h) as [p |] eqn:Hp.
  - destruct (has_room_Some _ _ _ (Hroom _ _ Hp)) as (x & k & Hx & Hk & Hlt).
    assert (p < length (calls c))%nat by (by eapply lookup_lt_Some).
    assert (∀ f, Done (f x) = Done x →
              ∃ c1, (update_call p f ;;; done p ;;; ret (body_error b))
                      (set_cc (λ l, l ++ [ReadBody (Some p)])
                         (set_pending (delete (h_Seq h)) c))
                    = Ok (body_error b) c1 ∧
                pending c1 = delete (h_Seq h) (pending c) ∧
                ∀ q, has_room (S n) c q = true → has_room n c1 q = true) as Hdef.
    { intros f Hf. erewrite bind_Ok; [| by apply update_call_Ok].
      erewrite bind_Ok; cycle 1.
      { eapply done_Ok; simpl; [by apply list_lookup_insert_eq | | done].
        rewrite Hf. exact Hk. }
      eexists. split; [reflexivity |]. split; [done |]. intros q Hq.
      eapply (has_room_push _ c _ p x (f x) k q); try done.
      simpl. by rewrite Hf. }
    case_decide.
    + erewrite bind_Ok; [| by apply update_call_Ok].
      msimpl. erewrite bind_Ok; cycle 1.
      { eapply done_Ok; simpl; [by apply list_lookup_insert_eq | exact Hk | done]. }
      eexists. split; [reflexivity |]. split; [done |]. intros q Hq.
      by eapply (has_room_push _ c _ p x (set_Error (fmt_Errorf (h_Error h)) x) k q).
    + msimpl. destruct b; by apply Hdef.
  - msimpl. eexists. split; [reflexivity |]. split; [done |].
    intros q Hq. unfold has_room in *. simpl.
    destruct (calls c !! q) as [x |]; [| done].
    destruct (chans c !! Done x) as [k |]; [| done].
    apply bool_decide_eq_true in Hq. apply bool_decide_eq_true. lia.
Qed.

Lemma receive_returns ins c :
  existsb stops ins = true →
  (∀ s p, pending c !! s = Some p →
     has_room (length ins + size (pending c)) c p = true) →
  ∃ c', receive ins c = Ok tt c'.
Proof.
  revert c. induction ins as [| [h b | m] rest IH]; intros c Hstop Hroom;
    [done | |].
  - cbn [receive]. rewrite bind_log.
    set (c0 := set_cc (λ l, l ++ [ReadHeader]) c).
    destruct (receive_frame_returns (length rest + size (pending c)) h b c0)
      as (c1 & Hf & Hp & Hkeep).
    { intros s p Hs. by apply (Hroom s p). }
    rewrite (bind_Ok _ _ _ _ _ Hf).
    assert (size (pending c1) ≤ size (pending c))%nat as Hsize.
    { rewrite Hp. apply map_subseteq_size, delete_subseteq. }
    assert (∀ s p, pending c1 !! s = Some p →
              has_room (length rest + size (pending c)) c1 p = true) as Hroom1.
    { intros s p Hs. apply Hkeep. apply (Hroom s p).
      rewrite Hp in Hs. by apply lookup_delete_Some in Hs as [_ Hs]. }
    destruct b as [v | m]; simpl.
    + apply IH; [done |]. intros s p Hs.
      eapply has_room_mono; [| by eapply Hroom1]. lia.
    + apply terminateCalls_returns. intros s p Hs.
      eapply has_room_mono; [| by eapply Hroom1]. lia.
  - cbn [receive]. rewrite bind_log. apply terminateCalls_returns.
    intros s p Hs. simpl in *.
    eapply has_room_mono; [| by apply (Hroom s p)]. lia.
Qed.

(** X7.  [receive] returns when a read fails, provided the [Done] channel
    of every pending call has room for as many sends as there are frames
    and pending calls.  The client is then shut down, every call still in
    the pending map has been completed with one and the same error, the
    error of the first read of the stream that failed (the read that ended
    the loop), and all [receive] has done to the codec is reading. *)
Theorem receive_ends_in_shutdown (ins : list incoming) (c : Client) :
  existsb stops ins = true →
  map_Forall (λ _ p, has_room (length ins + size (pending c)) c p = true)
    (pending c) →
  ∃ c' e, receive ins c = Ok tt c' ∧
    stopping_error ins = Some e ∧
    shutdown c' = true ∧
    (∃ l, cc c' = cc c ++ l ∧ Forall is_read l) ∧
    ∀ s p, pending c' !! s = Some p →
      completed c' p ∧ ∃ x, calls c' !! p = Some x ∧ Error x = Some e.
Proof.
  intros Hstop Hroom.
  destruct (receive_returns ins c Hstop Hroom) as [c' Hrun].
  destruct (receive_end_state ins c c' Hrun) as (Hsh & Hcc & e & He & Hall).
  by exists c', e.
Qed.

Lemma receive_ends_in_shutdown_witness :
  ∃ c', receive [Frame (mkHeader "Foo.Sum" 7 "") (BodyOk "0"); HeaderErr "EOF"]
          one_call = Ok tt c' ∧
        shutdown c' = true ∧
        ∃ x, calls c' !! 0%nat = Some x ∧ Error x = Some (io_error "EOF").
Proof.
  destruct (receive_ends_in_shutdown
              [Frame (mkHeader "Foo.Sum" 7 "") (BodyOk "0"); HeaderErr "EOF"]
              one_call)
    as (c' & e & Hrun & He & Hsh & _ & Hall); [reflexivity | |].
  { apply (bool_decide_unpack _). vm_compute. exact I. }
  exists c'. split; [exact Hrun |]. split; [exact Hsh |].
  assert (pending c' !! 1 = Some 0%nat) as Hp.
  { vm_compute in Hrun. injection Hrun as <-. reflexivity. }
  destruct (Hall 1 0%nat Hp) as [_ (x & Hx & Hx')].
  exists x. split; [exact Hx |]. rewrite Hx'. symmetry. exact He.
Defined.

End ClientMore.

(** ** client.go: what goes out on the wire *)

Module ClientWire.
Import Client ClientFacts.

(** X8.  The requests on the wire are the calls, in order.  In every
    state reached from a new client in fewer than 2^64 - 1 moves, whatever
    the goroutines did, each request handed to [cc.Write] has an empty
    error in its header and is the request of a call of the client, with
    that call's sequence number, service method and arguments; the
    sequence numbers of the requests are at least 1 and below the counter,
    and they increase strictly along the log, so that no number goes out
    twice. *)
Theorem requests_go_out_in_order (n : nat) (s : System) :
  reach n s → Z.of_nat n < uint64_mod - 1 →
  let sent := writes (cc (client s)) in
  (∀ h args, (h, args) ∈ sent →
     h_Error h = "" ∧ 1 ≤ h_Seq h < seq (client s) ∧
     ∃ p x, calls (client s) !! p = Some x ∧ Seq x = h_Seq h ∧
            ServiceMethod x = h_ServiceMethod h ∧ Args x = args) ∧
  StronglySorted Z.lt ((λ w, h_Seq w.1) <$> sent) ∧
  NoDup ((λ w, h_Seq w.1) <$> sent).
Proof.
  intros Hr Hn sent. destruct (reach_Wire n s Hr Hn) as [[W1 W2 W3 _] _].
  split; [| split; [done |]].
  - intros h args Hin. destruct (W1 _ Hin) as (p & x & Hx & C1 & C2 & C3 & C4).
    simpl in *. split; [done |]. split; [by apply (W2 _ Hin) |].
    by exists p, x.
  - fold sent in W3. clear -W3.
    induction W3 as [| z l Hl IH Hz]; constructor; [| done].
    intros Hin. rewrite Forall_forall in Hz. specialize (Hz z Hin). lia.
Qed.

Lemma requests_go_out_in_order_witness :
  writes (cc one_call) = [(mkHeader "Foo.Sum" 1 "", "3,4")] ∧
  NoDup ((λ w : Header * string, h_Seq w.1) <$> writes (cc one_call)).
Proof.
  split; [reflexivity |].
  destruct (requests_go_out_in_order 1 (mkSystem one_call None Receiving)
              reach_one_call) as (_ & _ & H); [done |].
  exact H.
Defined.

(** X9.  A response finds the call whose request carried its number.
    In every state reached from a new client in fewer than 2^64 - 1 moves:
    when a request with some sequence number is on the wire and that
    number is pending, the pending call is the one the request was written
    for, with the request's service method and arguments, and, as long as
    [terminateCalls] has not run, it has not been completed. *)
Theorem response_finds_its_call (n : nat) (s : System) (h : Header)
    (args : string) (p : nat) :
  reach n s → Z.of_nat n < uint64_mod - 1 →
  (h, args) ∈ writes (cc (client s)) →
  pending (client s) !! h_Seq h = Some p →
  ∃ x, calls (client s) !! p = Some x ∧ Seq x = h_Seq h ∧
       ServiceMethod x = h_ServiceMethod h ∧ Args x = args ∧
       (rx s ≠ Stopped → ¬ completed (client s) p).
Proof.
  intros Hr Hn Hin Hp.
  destruct (reach_Wire n s Hr Hn) as [[W1 W2 _ _] HP].
  destruct (reach_good _ _ Hr) as [HG _].
  destruct (good_seq _ _ _ HG Hn) as [_ [_ Hinc]].
  destruct (W1 _ Hin) as (q & z & Hz & C1 & C2 & C3 & _).
  destruct (W2 _ Hin) as [Hlo _]. simpl in *.
  destruct (HP _ _ Hp) as [_ (x & Hx & Hsx)].
  assert (q = p) as ->.
  { destruct (Nat.lt_trichotomy q p) as [Hlt | [Heq | Hgt]]; [| done |].
    - pose proof (Hinc q p z x Hlt Hz Hx). lia.
    - pose proof (Hinc p q x z Hgt Hx Hz). lia. }
  assert (z = x) as -> by congruence.
  exists x. split; [done |]. split; [done |]. split; [done |]. split; [done |].
  intros Hrx.
  destruct (inv_pending _ _ _ _ (good_inv _ _ _ HG) _ _ Hp) as [_ Hnc].
  apply Hnc. by destruct (rx s).
Qed.

Lemma response_finds_its_call_witness :
  ∃ x, calls one_call !! 0%nat = Some x ∧ ServiceMethod x = "Foo.Sum" ∧
       Args x = "3,4".
Proof.
  destruct (response_finds_its_call 1 (mkSystem one_call None Receiving)
              (mkHeader "Foo.Sum" 1 "") "3,4" 0 reach_one_call)
    as (x & Hx & _ & Hm & Ha & _).
  - done.
  - apply elem_of_cons. by left.
  - reflexivity.
  - by exists x.
Defined.

End ClientWire.

(** ** registry/registry.go: heartbeats and queries *)

Module RegistryMore.
Import Registry RegistryFacts.

Lemma putServer_lookup r addr t a :
  servers (putServer r addr t) !! a =
    if decide (a = addr) then
      Some {| Addr := default addr (Addr <$> servers r !! addr); start := t |}
    else servers r !! a.
Proof.
  unfold putServer.
  destruct (servers r !! addr) as [s |] eqn:Hs; simpl;
    (destruct (decide (a = addr)) as [-> | Hne];
     [by rewrite lookup_insert_eq | by rewrite lookup_insert_ne]).
Qed.

Lemma putServer_timeout r addr t : timeout (putServer r addr t) = timeout r.
Proof. unfold putServer. by destruct (servers r !! addr). Qed.

Lemma serve_snoc r reqs q :
  RegistryLog.serve r (reqs ++ [q]) =
  (ServeHTTP (RegistryLog.serve r reqs) (mkResponse None ∅) q.1 q.2).1.
Proof. unfold RegistryLog.serve. by rewrite foldl_app. Qed.

Lemma last_heartbeat_snoc addr reqs q :
  RegistryLog.last_heartbeat addr (reqs ++ [q]) =
  if RegistryLog.is_heartbeat addr q then Some (q.2 addr)
  else RegistryLog.last_heartbeat addr reqs.
Proof. unfold RegistryLog.last_heartbeat. by rewrite foldl_app. Qed.

(** What a request does to the entry of [addr]. *)
Lemma ServeHTTP_entry r w req now addr :
  addr ≠ "" →
  let r' := (ServeHTTP r w req now).1 in
  timeout r' = timeout r ∧
  (RegistryLog.is_heartbeat addr (req, now) = true →
     ∃ s, servers r' !! addr = Some s ∧ start s = now addr) ∧
  (RegistryLog.is_heartbeat addr (req, now) = false →
     servers r' !! addr =
       if decide (Method req = "GET") then
         match servers r !! addr with
         | Some s =>
             if decide (still_alive (timeout r) s (now addr)) then Some s
             else None
         | None => None
         end
       else servers r !! addr).
Proof.
  intros Hne. unfold RegistryLog.is_heartbeat. simpl.
  destruct (decide (Method req = "GET")) as [HG | HG].
  { rewrite (ServeHTTP_GET r w req now HG). simpl. split; [done |]. split.
    - intros [HP _]%bool_decide_eq_true. congruence.
    - intros _. apply aliveServers_map. }
  unfold ServeHTTP. rewrite decide_False by done.
  destruct (decide (Method req = "POST")) as [HP | HP]; simpl.
  - destruct (decide (Header_Get (req_Header req) "X-Gorpc-Server" = ""))
      as [He | He]; simpl.
    + split; [done |]. split; [| done].
      intros [_ Ha]%bool_decide_eq_true. congruence.
    + split; [apply putServer_timeout |]. rewrite putServer_lookup. split.
      * intros [_ Ha]%bool_decide_eq_true. rewrite decide_True by done.
        rewrite Ha. by eexists.
      * intros Hb%bool_decide_eq_false. rewrite decide_False; [done |].
        intros Ha. apply Hb. by split.
  - split; [done |]. split; [| done].
    intros [? _]%bool_decide_eq_true. done.
Qed.

(** X10.  Whether a registry lists a server depends on the server's last
    heartbeat alone.  After any sequence of requests handled by a new
    registry, none of them with a clock reading later than the one of the
    query that follows, the query lists the address exactly when some POST
    named it and the timeout is zero or the query's reading is before the
    reading of the last such POST plus the timeout; the queries and the
    other requests in between, with what they deleted, make no
    difference. *)
Theorem last_heartbeat_decides (t : Z) (reqs : list RegistryLog.arrival)
    (addr : string) (now : string → Z) :
  addr ≠ "" →
  Forall (λ q : RegistryLog.arrival, q.2 addr ≤ now addr) reqs →
  addr ∈ (aliveServers (RegistryLog.serve (New t) reqs) now).1 ↔
  ∃ beat, RegistryLog.last_heartbeat addr reqs = Some beat ∧
          (t = 0 ∨ now addr < beat + t).
Proof.
  intros Hne Hclock.
  assert (timeout (RegistryLog.serve (New t) reqs) = t ∧
          match RegistryLog.last_heartbeat addr reqs with
          | None => servers (RegistryLog.serve (New t) reqs) !! addr = None
          | Some beat =>
              (∃ s, servers (RegistryLog.serve (New t) reqs) !! addr = Some s ∧
                    start s = beat) ∨
              (servers (RegistryLog.serve (New t) reqs) !! addr = None ∧
               t ≠ 0 ∧ beat + t ≤ now addr)
          end) as [Ht Hinv].
  { revert Hclock. induction reqs as [| [req nw] reqs IH] using rev_ind;
      intros Hclock.
    - split; [done |]. simpl. apply lookup_empty.
    - apply Forall_app in Hclock as [Hclock Hq].
      apply Forall_cons in Hq as [Hq _]. simpl in Hq.
      destruct (IH Hclock) as [IHt IHinv]. clear IH.
      rewrite serve_snoc, last_heartbeat_snoc. simpl.
      destruct (ServeHTTP_entry (RegistryLog.serve (New t) reqs)
                  (mkResponse None ∅) req nw addr Hne) as (Ht' & Hbeat & Hother).
      split; [by rewrite Ht' |].
      destruct (RegistryLog.is_heartbeat addr (req, nw)) eqn:Hb; simpl.
      + left. by apply Hbeat.
      + rewrite (Hother eq_refl). rewrite IHt.
        destruct (decide (Method req = "GET")) as [HG | HG]; [| done].
        destruct (RegistryLog.last_heartbeat addr reqs) as [beat |].
        * destruct IHinv as [(s & -> & Hs) | (-> & Hexp)]; [| by right].
          destruct (decide (still_alive t s (nw addr))) as [Hal | Hd].
          -- left. by exists s.
          -- right. split; [done |]. unfold still_alive in Hd.
             apply Decidable.not_or in Hd as [Hnz Hge]. lia.
        * by rewrite IHinv. }
  rewrite aliveServers_elem, Ht. split.
  - intros (s & Hs & Hal).
    destruct (RegistryLog.last_heartbeat addr reqs) as [beat |]; [| congruence].
    exists beat. split; [done |].
    destruct Hinv as [(s' & Hs' & <-) | (Hnone & _)]; [| congruence].
    assert (s' = s) as -> by congruence. exact Hal.
  - intros (beat & Hb & Hal). rewrite Hb in Hinv.
    destruct Hinv as [(s & Hs & <-) | (_ & Hnz & Hexp)].
    + by exists s.
    + exfalso. destruct Hal as [? | ?]; [done | lia].
Qed.

Lemma last_heartbeat_decides_witness :
  "tcp@a:1" ∈ (aliveServers (RegistryLog.serve (New 100) RegistryLog.busy_day)
                 (λ _, 250)).1.
Proof.
  apply (last_heartbeat_decides 100 RegistryLog.busy_day "tcp@a:1" (λ _, 250)).
  - done.
  - unfold RegistryLog.busy_day. repeat constructor; simpl; lia.
  - exists 200. split; [reflexivity |]. right. lia.
Defined.

(** X11.  The deletions of a GET cannot be seen by a later one: when no
    clock reading of the second query is before the first query's reading
    for the same entry, the second query returns the list it would have
    returned without the first, and leaves the same map. *)
Theorem purge_is_transparent (r : GoRegistry) (now now' : string → Z) :
  (∀ a, now a ≤ now' a) →
  aliveServers (aliveServers r now).2 now' = aliveServers r now'.
Proof.
  intros Hle.
  assert (∀ a s, servers r !! a = Some s →
            still_alive (timeout r) s (now' a) →
            still_alive (timeout r) s (now a)) as Hmono.
  { intros a s _ [H0 | Hlt]; [by left | right]. specialize (Hle a). lia. }
  apply injective_projections.
  - apply StronglySorted_unique with (R := string_le);
      [apply _ | apply sort_Strings_sorted | apply sort_Strings_sorted |].
    apply NoDup_Permutation; [apply aliveServers_NoDup .. |].
    intros a. rewrite !aliveServers_elem. simpl.
    setoid_rewrite aliveServers_map.
    destruct (servers r !! a) as [s |] eqn:Hs; [| by split; intros (? & ? & _)].
    split.
    + intros (s' & Hs' & Hal). case_decide; [| done]. simplify_eq. eauto.
    + intros (s' & [= <-] & Hal). exists s.
      rewrite decide_True by eauto. done.
  - assert (∀ x y : GoRegistry,
              timeout x = timeout y → servers x = servers y → x = y) as Hext.
    { intros [] []; simpl; by intros -> ->. }
    apply Hext; [done |]. apply map_eq. intros a.
    rewrite !aliveServers_map. simpl.
    destruct (servers r !! a) as [s |] eqn:Hs; [| done].
    destruct (decide (still_alive (timeout r) s (now' a))) as [Hal | Hd].
    + rewrite decide_True by eauto. by rewrite decide_True.
    + case_decide; [by rewrite decide_False | done].
Qed.

Lemma purge_is_transparent_witness :
  aliveServers (aliveServers demo_registry (λ _, 120)).2 (λ _, 160)
  = (["tcp@c:3"], {| timeout := 100;
                     servers := {[ "tcp@c:3" := mkItem "tcp@c:3" 70 ]} |}).
Proof.
  rewrite (purge_is_transparent demo_registry (λ _, 120) (λ _, 160));
    [| intros _; lia].
  vm_compute. reflexivity.
Defined.

(** X12.  A registry whose timeout is zero never drops a server: a GET
    deletes nothing and lists every key of the map. *)
Theorem zero_timeout_keeps_all (r : GoRegistry) (now : string → Z) :
  timeout r = 0 →
  (aliveServers r now).2 = r ∧
  ∀ a, a ∈ (aliveServers r now).1 ↔ is_Some (servers r !! a).
Proof.
  intros H0. split.
  - assert (∀ x y : GoRegistry,
              timeout x = timeout y → servers x = servers y → x = y) as Hext.
    { intros [] []; simpl; by intros -> ->. }
    apply Hext; [done |]. apply map_eq. intros a. rewrite aliveServers_map.
    destruct (servers r !! a) as [s |]; [| done].
    rewrite decide_True; [done | by left].
  - intros a. rewrite aliveServers_elem. split.
    + intros (s & Hs & _). by eexists.
    + intros [s Hs]. exists s. split; [done | by left].
Qed.

Lemma zero_timeout_keeps_all_witness :
  timeout (putServer (New 0) "tcp@a:1" 10) = 0 ∧
  (aliveServers (putServer (New 0) "tcp@a:1" 10) (λ _, 1000000)).2
  = putServer (New 0) "tcp@a:1" 10.
Proof.
  split; [reflexivity |].
  apply (zero_timeout_keeps_all (putServer (New 0) "tcp@a:1" 10)). reflexivity.
Defined.

End RegistryMore.

(** ** xclient/discovery.go and discovery_gorpc.go *)

Module DiscoveryMore.
Import Discovery DiscoveryFacts.

(** X13.  [Get] does not panic when the index is not negative and below
    the largest [int] and the generator keeps the contract of [Intn]:
    whatever the mode and the length of the list, it returns; without an
    error the address is an element of the list, with an error it is empty
    and the discovery is as before; the list is never changed, a random
    pick leaves the index alone, and the index stays in that range, also
    over an [Update] to a list of another length. *)
Theorem Get_never_panics (d : MultiServersDiscovery) (mode : SelectMode)
    (intn : Z) (l : list string) :
  0 ≤ index d < max_int →
  Z.of_nat (length (servers d)) ≤ max_int →
  (servers d ≠ [] → 0 ≤ intn < Z.of_nat (length (servers d))) →
  (∃ d' s e,
     Get d mode intn = Return (d', (s, e)) ∧
     servers d' = servers d ∧
     0 ≤ index d' < max_int ∧
     (e = None → s ∈ servers d) ∧
     (e ≠ None → s = "" ∧ d' = d) ∧
     (e = None ↔ servers d ≠ [] ∧ (mode = RandomSelect ∨ mode = RoundRobinSelect)) ∧
     (mode = RandomSelect → d' = d ∧ (e = None → servers d !! Z.to_nat intn = Some s))) ∧
  0 ≤ index (Update d l) < max_int.
Proof.
  intros Hi Hl Hintn. split; [| done].
  destruct (decide (servers d = [])) as [Hnil | Hne].
  { exists d, "", (Some err_no_servers). unfold Get. rewrite Hnil. simpl.
    do 3 (split; [done |]). split; [done |]. split; [done |].
    split; [| done]. split; [done | by intros [? _]]. }
  specialize (Hintn Hne).
  set (n := Z.of_nat (length (servers d))) in *.
  assert (0 < n) as Hn by lia.
  unfold Get. fold n. rewrite decide_False by lia.
  destruct (decide (mode = RandomSelect)) as [-> | Hr].
  - destruct (lookup_lt_is_Some_2 (servers d) (Z.to_nat intn)) as [s Hs]; [lia |].
    rewrite (at_index_lookup _ _ s) by (done || lia).
    exists d, s, None. do 3 (split; [done |]).
    split; [intros _; by eapply list_elem_of_lookup_2 |].
    split; [done |]. split; [| done]. split; [| done]. intros _. split; [done | by left].
  - destruct (decide (mode = RoundRobinSelect)) as [-> | Hrr].
    + destruct (Get_round_robin_step d intn) as (s & Hs & HG);
        [split; [done | by fold n] | done |].
      unfold Get in HG. fold n in HG. rewrite decide_False in HG by lia.
      rewrite decide_False in HG by done. rewrite decide_True in HG by done.
      rewrite HG. do 3 eexists. split; [reflexivity |]. simpl.
      split; [done |].
      pose proof (Z.mod_pos_bound (index d + 1) n Hn).
      split; [lia |].
      split; [intros _; by eapply list_elem_of_lookup_2 |].
      split; [done |]. split; [| done]. split; [| done].
      intros _. split; [done | by right].
    + exists d, "", (Some err_bad_mode). do 3 (split; [done |]).
      split; [done |]. split; [done |]. split; [| done].
      split; [done |]. intros [_ [? | ?]]; done.
Qed.

Lemma Get_never_panics_witness :
  ∃ d', Get three_servers RandomSelect 2 = Return (d', ("tcp@c:3", None)).
Proof.
  destruct (Get_never_panics three_servers RandomSelect 2 [])
    as [(d' & s & e & HG & _ & _ & _ & _ & He & Hr) _];
    [unfold max_int; simpl; lia | unfold max_int; simpl; lia
    | intros _; simpl; lia |].
  assert (e = None) as -> by (apply He; split; [done | by left]).
  destruct (Hr eq_refl) as [_ Hs]. specialize (Hs eq_refl).
  simpl in Hs. injection Hs as <-. by exists d'.
Defined.

End DiscoveryMore.

Module RegistryDiscoveryFacts.
Import Strings Discovery RegistryDiscovery.

Lemma Split_not_nil s sep : Split s sep ≠ [].
Proof.
  induction s as [| a s IH]; simpl; [done |].
  destruct (Ascii.eqb a sep); [done |]. by destruct (Split s sep).
Qed.

Lemma Split_no_sep s sep : has_byte sep s = false → Split s sep = [s].
Proof.
  induction s as [| a s IH]; simpl; [done |].
  intros H. apply orb_false_iff in H as [Ha Hs].
  rewrite Ha. by rewrite (IH Hs).
Qed.

Lemma Split_app s sep rest :
  has_byte sep s = false →
  Split (s ++ String sep rest) sep = s :: Split rest sep.
Proof.
  induction s as [| a s IH]; simpl.
  - intros _. by rewrite Ascii.eqb_refl.
  - intros H. apply orb_false_iff in H as [Ha Hs].
    rewrite Ha. by rewrite (IH Hs).
Qed.

(** [strings.Split] undoes [strings.Join] on a non-empty list of strings
    without the separator. *)
Lemma Split_Join (l : list string) (sep : ascii) :
  l ≠ [] → Forall (λ a, has_byte sep a = false) l →
  Split (Registry.Join l (String sep "")) sep = l.
Proof.
  induction l as [| a l IH]; [done |]. intros _ Hall.
  apply Forall_cons in Hall as [Ha Hl].
  destruct l as [| b l].
  - by apply Split_no_sep.
  - change (Registry.Join (a :: b :: l) (String sep ""))
      with (a +:+ String sep (Registry.Join (b :: l) (String sep ""))).
    rewrite Split_app by done. f_equal. by apply IH.
Qed.

Section WithTrimSpace.
Variable TrimSpace : string → string.

Lemma keep_server_fold acc l :
  foldl (keep_server TrimSpace) acc l =
  acc ++ filter (λ s, s ≠ "") (TrimSpace <$> l).
Proof.
  revert acc. induction l as [| s l IH]; intros acc; simpl.
  - by rewrite app_nil_r.
  - rewrite IH. unfold keep_server. rewrite filter_cons.
    destruct (decide (TrimSpace s ≠ "")); [| done].
    by rewrite <- app_assoc.
Qed.

(** X14.  The list a registry answers a GET with reaches the discovery
    whole: when the cached list has expired and [http.Get] brings the
    response [ServeHTTP] wrote, [Refresh] stores exactly the registry's
    list of live servers, in the registry's order, stamps it with the second
    clock reading and keeps the round-robin index, provided no listed
    address is empty, contains a comma or is changed by [TrimSpace].  An
    empty list comes out empty. *)
Theorem Refresh_reads_what_the_registry_wrote (d : GoRegistryDiscovery)
    (now1 now2 : Z) (r : Registry.GoRegistry) (w : Registry.Response)
    (req : Registry.Request) (now : string → Z) :
  ¬ now1 < lastUpdate d + timeout d →
  Registry.Method req = "GET" →
  TrimSpace "" = "" →
  (∀ a, a ∈ (Registry.aliveServers r now).1 →
     a ≠ "" ∧ has_byte "," a = false ∧ TrimSpace a = a) →
  Refresh TrimSpace d now1 (HttpResp (Registry.ServeHTTP r w req now).2) now2 =
    ({| msd := {| servers := (Registry.aliveServers r now).1;
                  index := index (msd d) |};
        registry := registry d;
        timeout := timeout d;
        lastUpdate := now2 |}, None).
Proof.
  intros Hexp HM Hempty Hall.
  rewrite (RegistryFacts.ServeHTTP_GET r w req now HM).
  set (alive := (Registry.aliveServers r now).1) in *.
  assert (filter (λ s, s ≠ "") (TrimSpace <$> Split (Registry.Join alive ",") ",")
          = alive) as Hround.
  { destruct (decide (alive = [])) as [-> | Hne].
    - simpl. rewrite Hempty. by rewrite filter_cons_False by (by intros H).
    - rewrite Split_Join; [| done |].
      + revert Hall. generalize alive. clear.
        induction alive as [| a l IH]; intros H; [done |]. simpl.
        destruct (H a) as (Hne & _ & Ht); [apply elem_of_cons; by left |].
        rewrite Ht. rewrite filter_cons_True by done. f_equal.
        apply IH. intros b Hb. apply H. apply elem_of_cons. by right.
      + apply Forall_forall. intros a Ha. by apply Hall. }
  unfold Refresh. rewrite decide_False by done. cbn [snd Registry.resp_Header].
  unfold Registry.Header_Get. rewrite lookup_insert_eq. cbn [default].
  rewrite keep_server_fold. simpl app. by rewrite Hround.
Qed.

(** X15.  While the cached list is fresh the registry is not asked: when
    the first clock reading is before the stamp plus the timeout, [Get] is
    the embedded discovery's [Get] on the cached list and [GetAll] returns
    the cached list, whatever [http.Get] would have brought; the stamp
    stays.  This holds in particular after an [Update] at instant [t], for
    the list given to it. *)
Theorem fresh_list_is_served_without_request (d : GoRegistryDiscovery)
    (mode : SelectMode) (intn now1 now2 t : Z) (get : http_result)
    (l : list string) :
  now1 < lastUpdate d + timeout d →
  Refresh TrimSpace d now1 get now2 = (d, None) ∧
  GetAll TrimSpace d now1 get now2 = (d, (servers (msd d), None)) ∧
  Get TrimSpace d mode intn now1 get now2 =
    match Discovery.Get (msd d) mode intn with
    | Return (m, res) =>
        Return ({| msd := m; registry := registry d; timeout := timeout d;
                   lastUpdate := lastUpdate d |}, res)
    | Panics msg => Panics msg
    end ∧
  (now1 < t + timeout d →
   GetAll TrimSpace (Update d l t) now1 get now2 = (Update d l t, (l, None))).
Proof.
  intros Hfresh.
  assert (∀ d0, now1 < lastUpdate d0 + timeout d0 →
            Refresh TrimSpace d0 now1 get now2 = (d0, None)) as HR.
  { intros d0 H. unfold Refresh. by rewrite decide_True. }
  split; [by apply HR |].
  split; [unfold GetAll; by rewrite HR |].
  split; [unfold Get; by rewrite HR |].
  intros Ht. unfold GetAll. by rewrite HR.
Qed.

(** X16.  When the cached list has expired and [http.Get] fails, [Get]
    and [GetAll] return the error of [http.Get], with an empty address and
    no list, although a list is cached; the discovery is left as it was,
    the stamp included, so that the next call at a later instant asks the
    registry again. *)
Theorem expired_list_is_not_served (d : GoRegistryDiscovery)
    (mode : SelectMode) (intn now1 now2 : Z) (e : string) :
  ¬ now1 < lastUpdate d + timeout d →
  Get TrimSpace d mode intn now1 (HttpErr e) now2 = Return (d, ("", Some e)) ∧
  GetAll TrimSpace d now1 (HttpErr e) now2 = (d, ([], Some e)) ∧
  ∀ now1' now2' e', now1 ≤ now1' →
    Refresh TrimSpace d now1' (HttpErr e') now2' = (d, Some e').
Proof.
  intros Hexp.
  assert (Refresh TrimSpace d now1 (HttpErr e) now2 = (d, Some e)) as HR.
  { unfold Refresh. by rewrite decide_False. }
  split; [unfold Get; by rewrite HR |].
  split; [unfold GetAll; by rewrite HR |].
  intros now1' now2' e' Hle. unfold Refresh.
  rewrite decide_False by lia. done.
Qed.

End WithTrimSpace.

Lemma Refresh_reads_what_the_registry_wrote_witness :
  Refresh TrimSpace_ascii cached 20000000000
    (HttpResp (Registry.ServeHTTP Registry.demo_registry
                 (Registry.mkResponse None ∅) (Registry.mkRequest "GET" ∅)
                 (λ _, 120)).2) 20000000001
  = (mkGRD (mkMSD ["tcp@b:2"; "tcp@c:3"] 0) "http://r/_gorpc_/registry"
       defaultUpdateTimeout 20000000001, None).
Proof.
  rewrite (Refresh_reads_what_the_registry_wrote TrimSpace_ascii cached
             20000000000 20000000001 Registry.demo_registry
             (Registry.mkResponse None ∅) (Registry.mkRequest "GET" ∅)
             (λ _, 120)).
  - vm_compute. reflexivity.
  - vm_compute. by intros ?.
  - reflexivity.
  - reflexivity.
  - assert ((Registry.aliveServers Registry.demo_registry (λ _, 120)).1
            = ["tcp@b:2"; "tcp@c:3"]) as -> by (vm_compute; reflexivity).
    intros a Ha. apply elem_of_cons in Ha as [-> | Ha];
      [by vm_compute |].
    apply elem_of_cons in Ha as [-> | Ha]; [by vm_compute |].
    by apply elem_of_nil in Ha.
Defined.

Lemma fresh_list_is_served_without_request_witness :
  GetAll TrimSpace_ascii cached 5000 (HttpErr "connection refused") 5001
  = (cached, (["tcp@a:1"; "tcp@b:2"], None)).
Proof.
  destruct (fresh_list_is_served_without_request TrimSpace_ascii cached
              RandomSelect 0 5000 5001 0 (HttpErr "connection refused") [])
    as (_ & H & _); [vm_compute; reflexivity |].
  exact H.
Defined.

Lemma expired_list_is_not_served_witness :
  Get TrimSpace_ascii cached RoundRobinSelect 0 20000000000
    (HttpErr "connection refused") 20000000001
  = Return (cached, ("", Some "connection refused")).
Proof.
  destruct (expired_list_is_not_served TrimSpace_ascii cached
              RoundRobinSelect 0 20000000000 20000000001 "connection refused")
    as (H & _); [vm_compute; by intros ? |].
  exact H.
Defined.

End RegistryDiscoveryFacts.

(** ** server.go: finding the service of a request *)

Module ServiceFacts.
Import Strings Service.

(** *** Cutting at the last dot *)

Lemma LastIndex_cons a s c :
  LastIndex (String a s) c =
    if decide (0 ≤ LastIndex s c) then LastIndex s c + 1
    else if Ascii.eqb a c then 0 else -1.
Proof. reflexivity. Qed.

Lemma LastIndex_none s c : has_byte c s = false → LastIndex s c = -1.
Proof.
  induction s as [| a s IH]; [done |]. simpl has_byte.
  intros [Ha Hs]%orb_false_elim. rewrite LastIndex_cons, (IH Hs), Ha.
  by rewrite decide_False by lia.
Qed.

Lemma LastIndex_app s c m :
  has_byte c m = false →
  LastIndex (s ++ String c m) c = Z.of_nat (String.length s).
Proof.
  intros Hm. induction s as [| a s IH].
  - change ("" ++ String c m)%string with (String c m).
    rewrite LastIndex_cons, (LastIndex_none _ _ Hm).
    rewrite decide_False by lia. by rewrite Ascii.eqb_refl.
  - change (String a s ++ String c m)%string with (String a (s ++ String c m)).
    rewrite LastIndex_cons, IH. rewrite decide_True by lia.
    simpl String.length. lia.
Qed.

Lemma substring_all s : substring 0 (String.length s) s = s.
Proof. induction s as [| a s IH]; simpl; [done |]. by rewrite IH. Qed.

Lemma substring_prefix s t : substring 0 (String.length s) (s ++ t) = s.
Proof.
  induction s as [| a s IH]; simpl.
  - by destruct t.
  - by rewrite IH.
Qed.

Lemma length_append s t :
  String.length (s ++ t) = (String.length s + String.length t)%nat.
Proof. induction s as [| a s IH]; simpl; [done |]. by rewrite IH. Qed.

Lemma substring_suffix s t n :
  substring (String.length s) n (s ++ t) = substring 0 n t.
Proof. induction s as [| a s IH]; simpl; [done |]. by rewrite IH. Qed.

Lemma append_byte s c m : ((s ++ String c "") ++ m = s ++ String c m)%string.
Proof.
  induction s as [| a s IH]; [done |].
  change (String a ((s ++ String c "") ++ m) = String a (s ++ String c m))%string.
  by rewrite IH.
Qed.

Lemma slice_at_dot s m :
  has_byte "." m = false →
  let sm := (s ++ String "." m)%string in
  LastIndex sm "." = Z.of_nat (String.length s) ∧
  slice_to sm (LastIndex sm ".") = s ∧
  slice_from sm (LastIndex sm "." + 1) = m.
Proof.
  intros Hm sm. subst sm. rewrite (LastIndex_app _ _ _ Hm).
  split; [done |]. unfold slice_to, slice_from. split.
  - rewrite Nat2Z.id. apply substring_prefix.
  - replace (Z.to_nat (Z.of_nat (String.length s) + 1))
      with (String.length (s ++ ".")) by (rewrite length_append; simpl; lia).
    rewrite <- (append_byte s "." m).
    rewrite substring_suffix.
    rewrite !length_append.
    replace (String.length s + String.length "." + String.length m
             - (String.length s + String.length "."))%nat
      with (String.length m) by lia.
    apply substring_all.
Qed.

Lemma findService_dotted (server : Server) (serviceName methodName : string) :
  has_byte "." methodName = false →
  findService server (serviceName ++ "." ++ methodName) =
    match serviceMap server !! serviceName with
    | None => (None, None, Some (err_no_service serviceName))
    | Some svc =>
        match method svc !! methodName with
        | None => (Some svc, None, Some (err_no_method methodName))
        | Some mtype => (Some svc, Some mtype, None)
        end
    end.
Proof.
  intros Hm. unfold findService.
  change (serviceName ++ "." ++ methodName)%string
    with (serviceName ++ String "." methodName)%string.
  destruct (slice_at_dot serviceName methodName Hm) as (Hdot & Hs & Hmn).
  rewrite Hs, Hmn. rewrite Hdot. rewrite decide_False by lia. done.
Qed.

(** X17.  [findService] cuts the name at its last dot: for a method name
    without a dot, the request [serviceName.methodName] is looked up under
    exactly that service name, which may itself contain dots, and that
    method name; an unknown service gives its error and no service, an
    unknown method gives its error together with the service that was
    found; and the method name alone, having no dot, is ill-formed. *)
Theorem findService_cuts_at_the_last_dot (server : Server)
    (serviceName methodName : string) :
  has_byte "." methodName = false →
  findService server (serviceName ++ "." ++ methodName) =
    match serviceMap server !! serviceName with
    | None => (None, None, Some (err_no_service serviceName))
    | Some svc =>
        match method svc !! methodName with
        | None => (Some svc, None, Some (err_no_method methodName))
        | Some mtype => (Some svc, Some mtype, None)
        end
    end ∧
  findService server methodName = (None, None, Some (err_ill_formed methodName)).
Proof.
  intros Hm. split.
  - by apply findService_dotted.
  - unfold findService. rewrite (LastIndex_none _ _ Hm).
    by rewrite decide_True by lia.
Qed.

Lemma findService_cuts_at_the_last_dot_witness :
  findService (mkServer {[ "pkg.Foo" := mkService "pkg.Foo" {[ "Sum" := 0%nat ]} ]})
    "pkg.Foo.Sum"
  = (Some (mkService "pkg.Foo" {[ "Sum" := 0%nat ]}), Some 0%nat, None).
Proof.
  destruct (findService_cuts_at_the_last_dot
              (mkServer {[ "pkg.Foo" := mkService "pkg.Foo" {[ "Sum" := 0%nat ]} ]})
              "pkg.Foo" "Sum") as [H _]; [reflexivity |].
  exact H.
Defined.

(** X18.  A service registered under a free name is found by
    [findService] with each of its methods; registering any service under
    that name again is refused with an error and changes nothing, so the
    first registration stays; and the requests for other services are
    answered as before. *)
Theorem Register_then_findService (server : Server) (s : service)
    (methodName : string) :
  serviceMap server !! name s = None →
  has_byte "." methodName = false →
  let server' := (Register server s).1 in
  (Register server s).2 = None ∧
  findService server' (name s ++ "." ++ methodName) =
    match method s !! methodName with
    | None => (Some s, None, Some (err_no_method methodName))
    | Some mtype => (Some s, Some mtype, None)
    end ∧
  (∀ s2, name s2 = name s →
     Register server' s2 = (server', Some (err_defined (name s)))) ∧
  (∀ other, other ≠ name s →
     findService server' (other ++ "." ++ methodName) =
     findService server (other ++ "." ++ methodName)).
Proof.
  intros Hfree Hm server'. subst server'. unfold Register. rewrite Hfree. simpl.
  split; [done |]. split; [| split].
  - rewrite findService_dotted by done. simpl. by rewrite lookup_insert_eq.
  - intros s2 H2. rewrite H2. simpl. by rewrite lookup_insert_eq.
  - intros other Hne. rewrite !findService_dotted by done.
    simpl. by rewrite lookup_insert_ne.
Qed.

Lemma Register_then_findService_witness :
  findService foo_server "Foo.Sum"
  = (Some (mkService "Foo" {[ "Sum" := 0%nat ]}), Some 0%nat, None) ∧
  Register foo_server (mkService "Foo" ∅)
  = (foo_server, Some "rpc: service already defined: Foo").
Proof.
  destruct (Register_then_findService NewServer
              (mkService "Foo" {[ "Sum" := 0%nat ]}) "Sum")
    as (_ & Hf & Hdup & _); [reflexivity | reflexivity |].
  split; [exact Hf |]. exact (Hdup (mkService "Foo" ∅) eq_refl).
Defined.

(** *** A request the server cannot route *)

(** X19.  A request for a service or method the server does not have
    comes back to the caller as the call's error.  [Go] on an open client
    writes a header; the server's turn on that header reads no body and
    answers with the same header, the lookup's error in it, and the
    placeholder body; and the client's [receive], given that answer,
    completes the call with [fmt.Errorf] of that text, removes it from the
    pending map and goes on if the body could be skipped.  The text
    arrives unchanged when it has no percent sign. *)
Theorem unroutable_request_fails_the_call (server : Server) (c : Client.Client)
    (serviceMethod args reply e : string) (body b : Client.body_result) :
  Client.closing c = false → Client.shutdown c = false →
  (findService server serviceMethod).2 = Some e →
  let p := length (Client.calls c) in
  let h := Client.mkHeader serviceMethod (Client.seq c) "" in
  ∃ c1 c2,
    Client.Go serviceMethod args reply None None c = Client.Ok p c1 ∧
    Client.cc c1 = Client.cc c ++ [Client.Write h args] ∧
    serve_turn server (inl h) body =
      ([ReadHeader; Write (Server.set_Error e h) Server.invalidRequest],
       Answered) ∧
    Client.receive_frame (Server.set_Error e h) b c1
      = Client.Ok (Client.body_error b) c2 ∧
    Client.calls c2 !! p =
      Some (Client.mkCall (Client.seq c) serviceMethod args reply
              (Some (Client.fmt_Errorf e)) (length (Client.chans c))) ∧
    Client.completed c2 p ∧
    Client.pending c2 !! Client.seq c = None ∧
    (Client.has_percent e = false →
     Client.Error_text (Client.fmt_Errorf e) = Some e).
Proof.
  intros Hcl Hsh Hfind p h.
  destruct (ClientFacts.Go_registers c serviceMethod args reply Hcl Hsh)
    as (c1 & HGo & Hpend & Hseq & Hcc & Hhdr & Hco & Hcalls & Hchans).
  fold p in HGo, Hpend, Hcalls. fold h in Hcc.
  set (x := Client.mkCall (Client.seq c) serviceMethod args reply None
              (length (Client.chans c))) in *.
  assert (Client.calls c1 !! p = Some x) as Hx.
  { rewrite Hcalls. by apply ClientFacts.lookup_snoc. }
  pose proof (ClientFacts.receive_frame_error c1 (Server.set_Error e h) b p x
                (Client.mkChan 10 [])) as Hrf.
  assert (e ≠ "") as Hne.
  { unfold findService in Hfind. intros ->.
    repeat case_match; simplify_eq; simpl in *; simplify_eq. }
  lapply Hrf; [clear Hrf; intros Hrf | simpl; rewrite Hpend; apply lookup_insert_eq].
  specialize (Hrf Hx).
  lapply Hrf; [clear Hrf; intros Hrf | simpl; rewrite Hchans; by apply ClientFacts.lookup_snoc].
  specialize (Hrf ltac:(simpl; lia) ltac:(done)).
  eexists c1, _. split; [exact HGo |]. split; [exact Hcc |]. split.
  { unfold serve_turn, readRequest. simpl.
    destruct (findService server serviceMethod) as [[s m] e0]. simpl in Hfind.
    subst e0. done. }
  split; [exact Hrf |]. simpl.
  assert (p < length (Client.calls c1))%nat as Hlt by (by eapply lookup_lt_Some).
  split; [rewrite list_lookup_insert_eq by done; done |].
  split; [unfold Client.completed; simpl; apply elem_of_app; right;
          by apply list_elem_of_singleton |].
  split; [apply lookup_delete_eq |].
  intros Hpc. simpl. by apply ClientFacts.Sprintf0_no_percent.
Qed.

Lemma unroutable_request_fails_the_call_witness :
  ∃ c1 c2,
    Client.Go "Foo.Mul" "3,4" "" None None Client.NewClientCodec = Client.Ok 0%nat c1 ∧
    serve_turn foo_server (inl (Client.mkHeader "Foo.Mul" 1 "")) (Client.BodyOk "3,4") =
      ([ReadHeader;
        Write (Client.mkHeader "Foo.Mul" 1 "rpc server: can't find method Mul")
          Server.invalidRequest], Answered) ∧
    Client.receive_frame
      (Client.mkHeader "Foo.Mul" 1 "rpc server: can't find method Mul")
      (Client.BodyOk "") c1 = Client.Ok None c2 ∧
    Client.calls c2 !! 0%nat =
      Some (Client.mkCall 1 "Foo.Mul" "3,4" ""
              (Some (Client.fmt_Errorf "rpc server: can't find method Mul")) 0).
Proof.
  destruct (unroutable_request_fails_the_call foo_server Client.NewClientCodec
              "Foo.Mul" "3,4" "" "rpc server: can't find method Mul"
              (Client.BodyOk "3,4") (Client.BodyOk "") eq_refl eq_refl eq_refl)
    as (c1 & c2 & HGo & _ & Hturn & Hrf & Hcall & _).
  exists c1, c2. split; [exact HGo |]. split; [exact Hturn |].
  split; [exact Hrf | exact Hcall].
Defined.

End ServiceFacts.

(** ** server.go: [handleRequest] gets to its end *)

Module ServerMore.
Import Server.

Section Request.
Variable timeout : Z.
Variable result : option string * string.
Variable timeout_message : string.
Variable hd : Client.Header.

Abbreviation step := (step timeout result timeout_message).
Abbreviation run := (run timeout result timeout_message).
Abbreviation expected := (expected timeout result timeout_message hd).

Lemma step_moves_left m s s' :
  step m s = Some s' → (Service.moves_left s' < Service.moves_left s)%nat.
Proof.
  destruct s as [w0 sv0 h0 wire0]. unfold Server.step, Service.moves_left.
  simpl. destruct m, w0, sv0; simpl; intros Hst; try done;
    repeat case_match; simplify_eq; simpl; lia.
Qed.

Lemma run_moves_left ms s s' :
  run ms s = Some s' →
  (length ms + Service.moves_left s' ≤ Service.moves_left s)%nat.
Proof.
  revert s. induction ms as [| m ms IH]; intros s Hrun; simpl in *.
  - simplify_eq. lia.
  - destruct (step m s) as [s1 |] eqn:Hs; [| done].
    apply IH in Hrun. apply step_moves_left in Hs. lia.
Qed.

Lemma responses_echo :
  Service.echoes hd (response result hd) ∧
  Service.echoes hd (timeout_response timeout_message hd) ∧
  Service.echoes hd (late_response result timeout_message hd).
Proof.
  unfold Service.echoes, response, timeout_response, late_response.
  destruct result.1; simpl; done.
Qed.

(** X20.  [handleRequest] and its goroutine always get to the end: in
    every state they can reach, unless both have finished, a move other
    than the timer is possible, so with the unbuffered channels neither
    waits for the other for ever once the method has returned; at most
    seven moves are made; [handleRequest] has not returned before its
    goroutine is done; and every response written, at most two, carries the
    sequence number and the service method of the request. *)
Theorem handleRequest_finishes (ms : list move) (s : state) :
  run ms (enter hd) = Some s →
  (length ms ≤ 7)%nat ∧
  (sv s = Returned → w s = WorkerDone) ∧
  (¬ finished s → ∃ m s', m ≠ TimerFires ∧ step m s = Some s') ∧
  (length (wire s) ≤ 2)%nat ∧
  ∀ r, r ∈ wire s →
    Client.h_Seq r.1 = Client.h_Seq hd ∧
    Client.h_ServiceMethod r.1 = Client.h_ServiceMethod hd.
Proof.
  intros Hrun.
  split; [apply run_moves_left in Hrun; simpl in Hrun;
          unfold Service.moves_left in Hrun; simpl in Hrun; lia |].
  assert (expected false (enter hd)) as H0 by done.
  pose proof (ServerFacts.run_expected _ _ _ _ _ _ _ _ H0 Hrun) as Hex.
  simpl in Hex. clear Hrun H0.
  destruct responses_echo as (E1 & E2 & E3).
  destruct s as [w0 sv0 h0 wire0]. unfold Server.expected in Hex. simpl in *.
  split; [| split].
  - intros ->. by destruct w0.
  - intros Hnf. unfold finished in Hnf. simpl in Hnf. unfold Server.step. simpl.
    destruct w0, sv0; try done; try (exfalso; by apply Hnf).
    all: first
      [ by exists CallReturns; eexists
      | by exists HandOverCalled; eexists
      | by exists HandOverSent; eexists
      | by exists Enter; eexists
      | by exists TimeoutResponds; eexists
      | exists WorkerResponds; destruct result.1; by eexists ].
  - assert (wire0 = [] ∨ wire0 = [response result hd] ∨
            wire0 = [timeout_response timeout_message hd] ∨
            wire0 = [timeout_response timeout_message hd;
                     late_response result timeout_message hd]) as Hw.
    { destruct sv0, w0; try done; destruct_and?; auto.
      destruct (existsb is_timer ms); destruct_and?; auto. }
    destruct Hw as [-> | [-> | [-> | ->]]]; (split; [simpl; lia |]);
      intros r Hr; repeat (apply elem_of_cons in Hr as [-> | Hr]; [done |]);
      by apply elem_of_nil in Hr.
Qed.

End Request.

Lemma handleRequest_finishes_witness :
  let hd := Client.mkHeader "Foo.Sum" 1 "" in
  ∃ s, run 0 (None, "7") "" [Enter; CallReturns; HandOverCalled; WorkerResponds]
         (enter hd) = Some s ∧
       wire s = [(hd, replyv "7")] ∧
       ∃ m s', step 0 (None, "7") "" m s = Some s'.
Proof.
  intros hd. eexists. split; [reflexivity |]. split; [reflexivity |].
  destruct (handleRequest_finishes 0 (None, "7") "" hd
              [Enter; CallReturns; HandOverCalled; WorkerResponds] _ eq_refl)
    as (_ & _ & Hprog & _).
  destruct Hprog as (m & s' & _ & Hstep); [by intros [? _] |].
  by exists m, s'.
Defined.

End ServerMore.

(** ** xclient/xclient.go: [dial] and [Close] *)

Module XClientCacheFacts.
Import XClientCache.

Lemma Close_state closed c :
  ∃ r c', Client.Close closed c = Client.Ok r c' ∧
    Client.closing c' = true ∧ Client.IsAvailable c' = false ∧
    (Client.closing c = true → c' = c).
Proof.
  unfold Client.Close. destruct (Client.closing c) eqn:Hc.
  - exists (Some Client.ErrShutdown), c. split; [done |]. split; [done |].
    split; [| done]. unfold Client.IsAvailable. rewrite Hc.
    by rewrite andb_false_r.
  - eexists _, _. split; [reflexivity |]. simpl. split; [done |].
    split; [| done]. unfold Client.IsAvailable. simpl. by rewrite andb_false_r.
Qed.

Lemma close_at_valid p closed h c :
  h !! p = Some c →
  ∃ c', close_at p closed h = Return (<[p := c']> h) ∧
    Client.closing c' = true ∧ Client.IsAvailable c' = false ∧
    (Client.closing c = true → c' = c).
Proof.
  intros Hp. unfold close_at. rewrite Hp.
  destruct (Close_state closed c) as (r & c' & -> & H1 & H2 & H3).
  by exists c'.
Qed.

(** X21.  [dial] on a cache whose pointers are clients does not panic.  An
    entry whose client is available is returned as it is, without a call
    of [XDial] and without any change.  Otherwise [XDial] is called, after
    the unavailable client, if there was one, has been closed and its entry
    deleted: a new client is stored under the address and returned, an
    error is returned with no client and leaves no entry for the address.
    No other entry changes, no available client is touched, and the
    pointers of the cache are clients afterwards. *)
Theorem dial_reuses_or_replaces (xc : XClient) (rpcAddr : string)
    (dialed : Client.Client + string) (closed : option Client.error) :
  valid xc →
  ∃ xc' r e,
    dial xc rpcAddr dialed closed = Return (xc', (r, e)) ∧
    valid xc' ∧
    (∀ k, k ≠ rpcAddr → clients xc' !! k = clients xc !! k) ∧
    (∀ p c, heap xc !! p = Some c → Client.IsAvailable c = true →
       heap xc' !! p = Some c) ∧
    ((∃ p c, clients xc !! rpcAddr = Some p ∧ heap xc !! p = Some c ∧
             Client.IsAvailable c = true) →
     xc' = xc ∧ r = clients xc !! rpcAddr ∧ e = None) ∧
    (¬ (∃ p c, clients xc !! rpcAddr = Some p ∧ heap xc !! p = Some c ∧
               Client.IsAvailable c = true) →
     (∀ p, clients xc !! rpcAddr = Some p →
        ∃ c', heap xc' !! p = Some c' ∧ Client.closing c' = true) ∧
     match dialed with
     | inl c =>
         e = None ∧ r = Some (length (heap xc)) ∧
         clients xc' !! rpcAddr = r ∧ heap xc' !! length (heap xc) = Some c
     | inr msg =>
         e = Some msg ∧ r = None ∧ clients xc' !! rpcAddr = None
     end).
Proof.
  intros Hv. unfold dial.
  assert (∀ m h,
            length h = length (heap xc) →
            map_Forall (λ _ p, is_Some (h !! p)) m →
            (∀ k, k ≠ rpcAddr → m !! k = clients xc !! k) →
            m !! rpcAddr = None →
            (∀ p c, heap xc !! p = Some c → Client.IsAvailable c = true →
               h !! p = Some c) →
            ∃ xc' r e,
              match dialed with
              | inr e => Return (mkXClient m h, (None, Some e))
              | inl c => Return (mkXClient (<[rpcAddr := length h]> m) (h ++ [c]),
                                 (Some (length h), None))
              end = Return (xc', (r, e)) ∧
              valid xc' ∧
              (∀ k, k ≠ rpcAddr → clients xc' !! k = clients xc !! k) ∧
              (∀ p c, heap xc !! p = Some c → Client.IsAvailable c = true →
                 heap xc' !! p = Some c) ∧
              (∀ p c, h !! p = Some c → heap xc' !! p = Some c) ∧
              match dialed with
              | inl c =>
                  e = None ∧ r = Some (length (heap xc)) ∧
                  clients xc' !! rpcAddr = r ∧
                  heap xc' !! length (heap xc) = Some c
              | inr msg =>
                  e = Some msg ∧ r = None ∧ clients xc' !! rpcAddr = None
              end) as Hfresh.
  { intros m h Hlen Hmv Hother Hnone Hkeep. destruct dialed as [c | msg].
    - eexists _, _, _. split; [reflexivity |]. simpl.
      split; [| split; [| split; [| split]]].
      + intros k p Hk. simpl in *.
        apply lookup_insert_Some in Hk as [[<- <-] | [Hne Hk]].
        * exists c. by apply ClientFacts.lookup_snoc.
        * destruct (Hmv k p Hk) as [c0 Hc0]. exists c0.
          by apply lookup_app_l_Some.
      + intros k Hk. rewrite lookup_insert_ne by done. by apply Hother.
      + intros p c0 Hp Hav. apply lookup_app_l_Some. by eapply Hkeep.
      + intros p c0 Hp. by apply lookup_app_l_Some.
      + split; [done |]. rewrite Hlen. split; [done |].
        split; [apply lookup_insert_eq |].
        rewrite <- Hlen. apply ClientFacts.lookup_snoc.
    - eexists _, _, _. split; [reflexivity |]. simpl.
      split; [done |]. split; [done |]. split; [done |]. split; [done |]. done. }
  destruct (clients xc !! rpcAddr) as [p |] eqn:Hp.
  - destruct (Hv rpcAddr p Hp) as [c Hc]. rewrite Hc.
    destruct (Client.IsAvailable c) eqn:Hav.
    + exists xc, (Some p), None. split; [done |]. split; [done |].
      split; [done |]. split; [done |]. split; [done |].
      intros Hn. exfalso. apply Hn. by exists p, c.
    + destruct (close_at_valid p closed (heap xc) c Hc)
        as (c' & -> & Hcl & Hna & _).
      destruct (Hfresh (delete rpcAddr (clients xc)) (<[p := c']> (heap xc)))
        as (xc' & r & e & Heq & Hv' & Hoth & Hkeep & Hh & Hres).
      * by rewrite length_insert.
      * intros k q Hk. apply lookup_delete_Some in Hk as [_ Hk].
        destruct (Hv k q Hk) as [c0 Hc0].
        destruct (decide (q = p)) as [-> | Hne].
        -- exists c'. apply list_lookup_insert_eq. by eapply lookup_lt_Some.
        -- exists c0. by rewrite list_lookup_insert_ne.
      * intros k Hk. by rewrite lookup_delete_ne.
      * apply lookup_delete_eq.
      * intros q c0 Hq Hav0. destruct (decide (q = p)) as [-> | Hne].
        -- congruence.
        -- by rewrite list_lookup_insert_ne.
      * exists xc', r, e. split; [done |]. split; [done |].
        split; [done |]. split; [done |]. split.
        -- intros (q & c0 & [= <-] & Hc0 & Hav0). congruence.
        -- intros _. split; [| done]. intros q [= <-]. exists c'.
           split; [| done]. apply Hh. apply list_lookup_insert_eq.
           by eapply lookup_lt_Some.
  - destruct (Hfresh (clients xc) (heap xc))
      as (xc' & r & e & Heq & Hv' & Hoth & Hkeep & Hh & Hres); try done.
    exists xc', r, e. split; [done |]. split; [done |].
    split; [done |]. split; [done |]. split.
    + by intros (q & c0 & ? & _).
    + intros _. split; [| done]. by intros q ?.
Qed.

Lemma dial_reuses_or_replaces_witness :
  ∃ xc', dial two_cached "tcp@b:2" (inl Client.NewClientCodec) None
         = Return (xc', (Some 2%nat, None)) ∧
         clients xc' !! "tcp@b:2" = Some 2%nat ∧
         clients xc' !! "tcp@a:1" = Some 0%nat.
Proof.
  destruct (dial_reuses_or_replaces two_cached "tcp@b:2"
              (inl Client.NewClientCodec) None)
    as (xc' & r & e & Hd & _ & Hoth & _ & _ & Hnew).
  { apply (bool_decide_unpack _). vm_compute. exact I. }
  destruct Hnew as [_ (-> & -> & Hc & _)].
  { intros (p & c & Hp & Hc & Hav).
    assert (clients two_cached !! "tcp@b:2" = Some 1%nat) as Hp' by reflexivity.
    rewrite Hp' in Hp. injection Hp as <-.
    assert (heap two_cached !! 1%nat = Some Client.one_call_terminated) as Hc'
      by reflexivity.
    rewrite Hc' in Hc. injection Hc as <-.
    vm_compute in Hav. done. }
  exists xc'. split; [exact Hd |]. split; [exact Hc |].
  rewrite Hoth by done. reflexivity.
Defined.

(** *** [Close] *)

Lemma close_fold closed l m h :
  (∀ k p, (k, p) ∈ l → is_Some (h !! p)) →
  ∃ h', foldl (close_step closed) (Return (m, h)) l
        = Return (foldr (λ e, delete e.1) m (reverse l), h') ∧
    length h' = length h ∧
    (∀ p, p ∉ l.*2 → h' !! p = h !! p) ∧
    (∀ p c, h !! p = Some c → Client.closing c = true → h' !! p = Some c) ∧
    (∀ p, p ∈ l.*2 → ∃ c', h' !! p = Some c' ∧ Client.closing c' = true).
Proof.
  revert m h. induction l as [| [k p] l IH]; intros m h Hv.
  - exists h. simpl. split; [done |]. split; [done |]. split; [done |].
    split; [done |]. intros p Hp. by apply elem_of_nil in Hp.
  - destruct (Hv k p) as [c Hc]; [apply elem_of_cons; by left |].
    destruct (close_at_valid p closed h c Hc) as (c' & Hclose & Hcl & _ & Hsame).
    simpl. rewrite Hclose.
    destruct (IH (delete k m) (<[p := c']> h)) as (h' & Hf & Hlen & Hout & Hkeep & Hin).
    { intros k0 p0 Hin. destruct (Hv k0 p0) as [c0 Hc0]; [apply elem_of_cons; by right |].
      destruct (decide (p0 = p)) as [-> | Hne].
      - exists c'. apply list_lookup_insert_eq. by eapply lookup_lt_Some.
      - exists c0. by rewrite list_lookup_insert_ne. }
    exists h'. split; [| split; [| split; [| split]]].
    + rewrite Hf. rewrite reverse_cons, foldr_app. done.
    + by rewrite Hlen, length_insert.
    + intros q Hq. rewrite Hout.
      * rewrite list_lookup_insert_ne; [done |]. intros ->. apply Hq.
        apply elem_of_cons. by left.
      * intros Hq'. apply Hq. apply elem_of_cons. by right.
    + intros q c0 Hq Hc0. apply Hkeep; [| done].
      destruct (decide (q = p)) as [-> | Hne].
      * assert (c0 = c) as -> by congruence. rewrite (Hsame Hc0).
        apply list_lookup_insert_eq. by eapply lookup_lt_Some.
      * by rewrite list_lookup_insert_ne.
    + intros q Hq. apply elem_of_cons in Hq as [-> | Hq]; [| by apply Hin].
      exists c'. split; [| done].
      apply (Hkeep p c'); [| done]. apply list_lookup_insert_eq.
      by eapply lookup_lt_Some.
Qed.

Lemma delete_all (m : gmap string nat) (l : list (string * nat)) k :
  foldr (λ e, delete e.1) m l !! k =
    if decide (k ∈ l.*1) then None else m !! k.
Proof.
  induction l as [| [k0 p0] l IH].
  - destruct (decide _) as [H | H]; [by apply elem_of_nil in H | done].
  - cbn [foldr fmap list_fmap fst]. destruct (decide (k = k0)) as [-> | Hne].
    + rewrite lookup_delete_eq. rewrite decide_True; [done |].
      apply elem_of_cons. by left.
    + rewrite lookup_delete_ne by done. rewrite IH.
      destruct (decide (k ∈ l.*1)) as [Hin | Hout].
      * rewrite decide_True; [done |]. apply elem_of_cons. by right.
      * rewrite decide_False; [done |].
        intros [? | ?]%elem_of_cons; done.
Qed.

(** X22.  [Close] on a cache whose pointers are clients does not panic
    and returns nil: afterwards the cache is empty and every client that
    was in it is closing, while the clients that were closing already and
    those outside the cache are as they were. *)
Theorem Close_closes_every_cached_client (xc : XClient)
    (closed : option Client.error) :
  valid xc →
  ∃ xc',
    Close xc closed = Return (xc', None) ∧
    clients xc' = ∅ ∧
    length (heap xc') = length (heap xc) ∧
    (∀ k p, clients xc !! k = Some p →
       ∃ c', heap xc' !! p = Some c' ∧ Client.closing c' = true) ∧
    (∀ p c, heap xc !! p = Some c → Client.closing c = true →
       heap xc' !! p = Some c) ∧
    (∀ p, (∀ k, clients xc !! k ≠ Some p) → heap xc' !! p = heap xc !! p).
Proof.
  intros Hv. unfold Close.
  destruct (close_fold closed (map_to_list (clients xc)) (clients xc) (heap xc))
    as (h' & -> & Hlen & Hout & Hkeep & Hin).
  { intros k p Hk. apply elem_of_map_to_list in Hk. by eapply Hv. }
  eexists. split; [reflexivity |]. simpl.
  split; [| split; [done |]; split; [| split; [done |]]].
  - apply map_eq. intros k. rewrite delete_all, lookup_empty.
    destruct (decide (k ∈ (reverse (map_to_list (clients xc))).*1)) as [_ | Hn];
      [done |].
    destruct (clients xc !! k) as [p |] eqn:Hk; [| done].
    exfalso. apply Hn. apply list_elem_of_fmap. exists (k, p). split; [done |].
    apply elem_of_reverse. by apply elem_of_map_to_list.
  - intros k p Hk. apply Hin. apply list_elem_of_fmap. exists (k, p).
    split; [done |]. by apply elem_of_map_to_list.
  - intros p Hp. apply Hout. intros Hin'.
    apply list_elem_of_fmap in Hin' as ([k q] & -> & Hkq).
    apply elem_of_map_to_list in Hkq. by apply (Hp k).
Qed.

Lemma Close_closes_every_cached_client_witness :
  ∃ xc', Close two_cached None = Return (xc', None) ∧ clients xc' = ∅ ∧
         ∃ c', heap xc' !! 0%nat = Some c' ∧ Client.closing c' = true.
Proof.
  destruct (Close_closes_every_cached_client two_cached None)
    as (xc' & HC & Hm & _ & Hall & _).
  { apply (bool_decide_unpack _). vm_compute. exact I. }
  exists xc'. split; [exact HC |]. split; [exact Hm |].
  exact (Hall "tcp@a:1" 0%nat eq_refl).
Defined.

End XClientCacheFacts.

(** ** client.go: [Dial] *)

Module DialFacts.
Import Options Dial.

Section WithCodecs.
Variable NewCodecFuncMap : string → bool.

Lemma NewClient_cases encoded opt :
  let '(ops, result) := NewClient NewCodecFuncMap encoded opt in
  (client result = None ↔ err result ≠ None) ∧
  (err result = None → ops = [Encode opt]) ∧
  (err result ≠ None → ops = [] ∨ ops = [Encode opt; CloseConn]) ∧
  (∀ d, err result ≠ Some (timeout_error d)) ∧
  (∀ e, err result ≠ Some (parse_error e)).
Proof.
  unfold NewClient. destruct (NewCodecFuncMap (CodecType opt));
    [destruct encoded |]; simpl.
  - split; [split; [done | by intros _] |]. split; [done |].
    split; [intros _; by right | done].
  - split; [split; [done | by intros ?] |]. split; [done |].
    split; [done | done].
  - split; [split; [done | by intros _] |]. split; [done |].
    split; [intros _; by left | done].
Qed.

(** X23.  [Dial] on a store that holds the default option and the
    caller's returns either a client or an error, never both and never
    neither.  Only an error of [parseOptions] comes before
    [net.DialTimeout] is called.  When a client is returned the connection
    has not been closed and the goroutine has handed over its result.
    When the connection was made and an error is returned, the deferred
    function has closed the connection, a second time if [NewClient] had
    closed it after a failed [Encode].  The goroutine is left at its send
    exactly when the timeout error is returned, which needs a non-zero
    [ConnectTimeout].  Every option written to the connection carries the
    magic number of the default option. *)
Theorem Dial_closes_the_connection_on_error (encoded : option string)
    (st : gmap nat Option) (dflt : Option) (opts : list (option nat))
    (dial : option string) (timer_first : bool) :
  st !! DefaultOption = Some dflt →
  (∀ a, opts !! 0%nat = Some (Some a) → is_Some (st !! a)) →
  ∃ st' d,
    Dial NewCodecFuncMap encoded st opts dial timer_first = Return (st', d) ∧
    (client (ret d) = None ↔ err (ret d) ≠ None) ∧
    (dial_called d = false ↔ ∃ e, err (ret d) = Some (parse_error e)) ∧
    (err (ret d) = None → closes d = 0%nat ∧ left_sending d = false) ∧
    (dial_called d = true → dial = None → err (ret d) ≠ None →
       closed_on_return d = true ∧ (1 ≤ closes d ≤ 2)%nat) ∧
    (dial ≠ None → closes d = 0%nat) ∧
    (left_sending d = true ↔
       ∃ t, err (ret d) = Some (timeout_error t) ∧ t ≠ 0) ∧
    (∀ o, Encode o ∈ by_f d → opt_Number o = opt_Number dflt).
Proof.
  intros Hd Hopts. unfold Dial, dialTimeout.
  assert (∃ st1 r, parseOptions st opts = Return (st1, r) ∧
            (r = (None, Some err_too_many) ∨
             ∃ a opt, r = (Some a, None) ∧ st1 !! a = Some opt ∧
                      opt_Number opt = opt_Number dflt)) as Hparse.
  { destruct opts as [| [a |] rest].
    - eexists _, _. split; [reflexivity |]. right. by exists DefaultOption, dflt.
    - destruct rest as [| o rest].
      + destruct (Hopts a eq_refl) as [opt Ha].
        rewrite (OptionsFacts.parseOptions_one st a opt dflt Hd Ha).
        eexists _, _. split; [reflexivity |]. right.
        eexists a, _. split; [done |]. split; [apply lookup_insert_eq | done].
      + eexists _, _. split; [reflexivity |]. by left.
    - eexists _, _. split; [reflexivity |]. right. by exists DefaultOption, dflt. }
  destruct Hparse as (st1 & r & -> & [-> | (a & opt & -> & Ha & Hnum)]).
  { eexists _, _. split; [reflexivity |]. unfold closes. simpl.
    split; [split; [by intros _ | done] |].
    split; [split; [by eexists | done] |].
    split; [done |]. split; [done |]. split; [done |].
    split; [split; [done | by intros (t & ? & _)] |].
    intros o Ho. by apply elem_of_nil in Ho. }
  simpl. rewrite Ha. destruct dial as [e |].
  { eexists _, _. split; [reflexivity |]. unfold closes. simpl.
    split; [split; [by intros _ | done] |].
    split; [split; [done | by intros (? & ?)] |].
    split; [done |]. split; [done |]. split; [done |].
    split; [split; [done | by intros (t & ? & _)] |].
    intros o Ho. by apply elem_of_nil in Ho. }
  pose proof (NewClient_cases encoded opt) as HN.
  destruct (NewClient NewCodecFuncMap encoded opt) as [ops result].
  destruct HN as (Hone & Hok & Herr & Hnt & Hnp).
  assert (∀ o, Encode o ∈ ops → opt_Number o = opt_Number dflt) as Hmagic.
  { intros o Ho. destruct (err result) as [e0 |] eqn:He.
    - destruct Herr as [-> | ->]; [done | by apply elem_of_nil in Ho |].
      apply elem_of_cons in Ho as [[= ->] | Ho]; [done |].
      apply elem_of_cons in Ho as [? | Ho]; [done |].
      by apply elem_of_nil in Ho.
    - rewrite (Hok eq_refl) in Ho.
      apply elem_of_cons in Ho as [[= ->] | Ho]; [done |].
      by apply elem_of_nil in Ho. }
  destruct (bool_decide (ConnectTimeout opt = 0) || negb timer_first) eqn:Hsel.
  - eexists _, _. split; [reflexivity |]. unfold closes. simpl.
    split; [done |].
    split; [split; [done | by intros (e0 & He0); destruct (Hnp e0)] |].
    split; [| split; [| split; [done |]; split; [| done]]].
    + intros He. rewrite (Hok He), He. simpl. done.
    + intros _ _ He. rewrite bool_decide_eq_true_2 by done.
      split; [done |]. destruct (Herr He) as [-> | ->]; simpl; lia.
    + split; [done |]. intros (t & Ht & _). by destruct (Hnt t).
  - apply orb_false_iff in Hsel as [Hz Ht].
    apply bool_decide_eq_false in Hz.
    eexists _, _. split; [reflexivity |]. unfold closes. simpl.
    split; [split; [by intros _ | done] |].
    split; [split; [done | by intros (? & ?)] |].
    split; [done |].
    split; [| split; [done |]; split; [| done]].
    + intros _ _ _. split; [done |].
      destruct (err result) as [e0 |] eqn:He.
      * destruct Herr as [-> | ->]; [done | simpl; lia | simpl; lia].
      * rewrite (Hok eq_refl). simpl. lia.
    + split; [| done]. intros _. by eexists.
Qed.

End WithCodecs.

Lemma Dial_closes_the_connection_on_error_witness :
  ∃ st' d,
    Dial (λ _, true) (Some "broken pipe") two_options [Some 1%nat] None false
      = Return (st', d) ∧
    err (ret d) = Some (encode_error "broken pipe") ∧ closes d = 2%nat.
Proof.
  destruct (Dial_closes_the_connection_on_error (λ _, true) (Some "broken pipe")
              two_options (DefaultOption_value "application/gob")
              [Some 1%nat] None false)
    as (st' & d & HD & _); [reflexivity | |].
  { intros a [= <-]. by eexists. }
  exists st', d. split; [exact HD |].
  vm_compute in HD. injection HD as _ <-. split; reflexivity.
Defined.

End DialFacts.
